(** * Bi-encoder batch assembly, similarity scoring and contrastive loss

    A shallow embedding of [dpr/models/biencoder.py]:
    - the scoring functions [dot_product_scores] and [cosine_scores],
    - the losses [BiEncoderNllLoss] and [BiEncoderEntLoss],
    - the span re-windowing helper [_select_span_with_token]
      (spelled [_select_span_with_token] here),
    - the batch assembler [BiEncoder.create_biencoder_input],
    - the encoder dispatch [BiEncoder.get_representation] and
      [BiEncoder.forward],
    and of the title cache of [drl.py], which ranks with
    [dot_product_scores]: [create_title_cache], [find_relevant_passages].

    Conventions of the model.
    - A Python exception is a value of [Error]; a call that may raise
      returns a [Result].
    - A torch tensor of rank at most two is a [Tensor]: a scalar, a vector
      or a matrix given by its rows together with its declared number of
      columns (so that an [n x 0] or [0 x d] shape is representable).
    - Floating point numbers are idealised: scores and losses are real
      numbers ([R]); the value drawn by [rnd.random()] is a rational, a
      multiple of [2^-53], and the arithmetic on it is exact.
    - Python lists that the code mutates in place (the negative pools that
      [random.shuffle] permutes) live in a store indexed by locations, so
      that aliasing between samples is visible. *)

From Stdlib Require Import Reals Lra Lia ZArith QArith List Permutation.
From stdpp Require Import base gmap list strings.
Import ListNotations.
Open Scope nat_scope.

(** ** Exceptions and results *)

Inductive Error : Type :=
| IndexError (msg : string)
| ValueError (msg : string)
| RuntimeError (msg : string)
| AssertionError (msg : string).

Inductive Result (A : Type) : Type :=
| Ok (a : A)
| Raise (e : Error).
Arguments Ok {A} a.
Arguments Raise {A} e.

#[global] Instance result_ret : MRet Result := fun _ a => Ok a.
#[global] Instance result_bind : MBind Result := fun _ _ f m =>
  match m with
  | Ok a => f a
  | Raise e => Raise e
  end.

(** ** Tensors of rank at most two *)

Inductive Tensor (A : Type) : Type :=
| Scal (x : A)
| Vec (v : list A)
| Mat (ncols : nat) (rows : list (list A)).
Arguments Scal {A} x.
Arguments Vec {A} v.
Arguments Mat {A} ncols rows.

(** [t.size()] *)
Definition size {A} (t : Tensor A) : list nat :=
  match t with
  | Scal _ => []
  | Vec v => [length v]
  | Mat d rows => [length rows; d]
  end.

(** Every row of a matrix has the declared width. *)
Definition wf_tensor {A} (t : Tensor A) : bool :=
  match t with
  | Mat d rows => forallb (fun r => length r =? d) rows
  | _ => true
  end.

(** The element type of a tensor: what [matmul] and [+] need. *)
Class Scalar (A : Type) := {
  s_zero : A;
  s_add : A -> A -> A;
  s_mul : A -> A -> A;
}.

#[global] Instance Z_scalar : Scalar Z :=
  {| s_zero := 0%Z; s_add := Z.add; s_mul := Z.mul |}.
#[global] Instance R_scalar : Scalar R :=
  {| s_zero := 0%R; s_add := Rplus; s_mul := Rmult |}.

Section TensorOps.
Context {A : Type} `{Scalar A}.

Definition sum_list (l : list A) : A := fold_right s_add s_zero l.

(** Inner product of two rows. *)
Definition dot (u v : list A) : A := sum_list (zip_with s_mul u v).

(** Column [j] of a list of rows. *)
Definition col (j : nat) (rows : list (list A)) : list A :=
  map (fun r => nth j r s_zero) rows.

(** [torch.transpose(t, 0, 1)]: needs two dimensions. *)
Definition transpose (t : Tensor A) : Result (Tensor A) :=
  match t with
  | Mat d rows => Ok (Mat (length rows) (map (fun j => col j rows) (seq 0 d)))
  | _ => Raise (IndexError "Dimension out of range")
  end.

(** [torch.matmul(a, b)] on tensors of rank one or two. *)
Definition matmul (a b : Tensor A) : Result (Tensor A) :=
  match a, b with
  | Mat d1 ra, Mat d2 rb =>
      if d1 =? length rb
      then Ok (Mat d2 (map (fun r => map (fun j => dot r (col j rb)) (seq 0 d2)) ra))
      else Raise (RuntimeError "mat1 and mat2 shapes cannot be multiplied")
  | Vec v, Mat d2 rb =>
      if length v =? length rb
      then Ok (Vec (map (fun j => dot v (col j rb)) (seq 0 d2)))
      else Raise (RuntimeError "size mismatch")
  | Mat d1 ra, Vec w =>
      if d1 =? length w
      then Ok (Vec (map (fun r => dot r w) ra))
      else Raise (RuntimeError "size mismatch")
  | Vec v, Vec w =>
      if length v =? length w
      then Ok (Scal (dot v w))
      else Raise (RuntimeError "inconsistent tensor size")
  | _, _ => Raise (RuntimeError "both arguments to matmul need to be at least 1D")
  end.

(** [dot_product_scores]: q_vector: n1 x D, ctx_vectors: n2 x D,
    result n1 x n2. *)
Definition dot_product_scores (q_vectors ctx_vectors : Tensor A) : Result (Tensor A) :=
  ctxT ← transpose ctx_vectors;
  matmul q_vectors ctxT.

(** *** Broadcasting, as torch applies it to binary elementwise operations *)

Definition rank (t : Tensor A) : nat := length (size t).

(** A tensor seen as a list of rows, with its two (right-aligned) dimensions. *)
Definition as_rows (t : Tensor A) : nat * nat * list (list A) :=
  match t with
  | Scal x => (1, 1, [[x]])
  | Vec v => (1, length v, [v])
  | Mat d rows => (length rows, d, rows)
  end.

(** The common size of two dimensions, when they are compatible. *)
Definition bdim (a b : nat) : option nat :=
  if a =? b then Some a
  else if a =? 1 then Some b
  else if b =? 1 then Some a
  else None.

(** Expand a dimension of size one to size [n]. *)
Definition expand {X} (n : nat) (l : list X) : list X :=
  match l with
  | [x] => repeat x n
  | _ => l
  end.

Definition expand_rows (n d : nat) (rows : list (list A)) : list (list A) :=
  expand n (map (expand d) rows).

(** Both operands expanded to their common shape. *)
Definition broadcast (a b : Tensor A)
  : Result (nat * nat * list (list A) * list (list A)) :=
  let '(na, da, ra) := as_rows a in
  let '(nb, db, rb) := as_rows b in
  match bdim na nb, bdim da db with
  | Some n, Some d => Ok (n, d, expand_rows n d ra, expand_rows n d rb)
  | _, _ => Raise (RuntimeError "The size of tensor a must match the size of tensor b")
  end.

(** Rows packed back into a tensor of rank [k]. *)
Definition of_rows (k d : nat) (rows : list (list A)) : Tensor A :=
  match k with
  | 0 => Scal (nth 0 (nth 0 rows []) s_zero)
  | 1 => Vec (nth 0 rows [])
  | _ => Mat d rows
  end.

(** [a + b] on tensors. *)
Definition tensor_add (a b : Tensor A) : Result (Tensor A) :=
  '(n, d, ra, rb) ← broadcast a b;
  mret (of_rows (Nat.max (rank a) (rank b)) d (zip_with (zip_with s_add) ra rb)).

(** The sum of two matrices entry by entry, as the specification words it. *)
Definition elementwise_sum (S1 S2 : list (list A)) : list (list A) :=
  zip_with (fun r1 r2 => zip_with s_add r1 r2) S1 S2.

End TensorOps.

(** ** Cosine similarity *)

(** [F.cosine_similarity(x1, x2, dim=1)] with its default [eps = 1e-8]:
    the operands are broadcast to a common shape and the similarity is taken
    along dimension one, which is thereby reduced away. *)
Definition cosine_eps : R := (/ 100000000)%R.

Definition norm2 (v : list R) : R := sqrt (dot v v).

Definition cosine_row (x y : list R) : R :=
  (dot x y / Rmax (norm2 x * norm2 y) cosine_eps)%R.

Definition cosine_similarity_dim1 (x1 x2 : Tensor R) : Result (Tensor R) :=
  '(n, d, r1, r2) ← broadcast x1 x2;
  if Nat.max (rank x1) (rank x2) <? 2
  then Raise (IndexError "Dimension out of range")
  else Ok (Vec (zip_with cosine_row r1 r2)).

(** [cosine_scores]; the source carries the comment
    "q_vector: n1 x D, ctx_vectors: n2 x D, result n1 x n2". *)
Definition cosine_scores (q_vector ctx_vectors : Tensor R) : Result (Tensor R) :=
  cosine_similarity_dim1 q_vector ctx_vectors.

(** ** The negative log-likelihood loss *)

(** All the entries of a tensor, row after row. *)
Definition flatten {A} (t : Tensor A) : list A :=
  match t with
  | Scal x => [x]
  | Vec v => v
  | Mat _ rows => concat rows
  end.

(** [k] consecutive chunks of width [w]. *)
Fixpoint chunks {A} (w k : nat) (l : list A) : list (list A) :=
  match k with
  | 0 => []
  | S k' => take w l :: chunks w k' (drop w l)
  end.

(** [t.view(k, -1)] *)
Definition view_rows {A} (k : nat) (t : Tensor A) : Result (Tensor A) :=
  let data := flatten t in
  if k =? 0 then Raise (RuntimeError "cannot reshape tensor into shape [0, -1]")
  else if length data mod k =? 0
       then Ok (Mat (length data / k) (chunks (length data / k) k data))
       else Raise (RuntimeError "shape is invalid for input size").

Definition log_softmax_row (r : list R) : list R :=
  map (fun x => (x - ln (sum_list (map exp r)))%R) r.

(** [F.log_softmax(scores, dim=1)] *)
Definition log_softmax_dim1 (scores : Tensor R) : Result (Tensor R) :=
  match scores with
  | Mat d rows => Ok (Mat d (map log_softmax_row rows))
  | _ => Raise (IndexError "Dimension out of range")
  end.

(** The rows of the input picked at the targets, or the exception torch raises. *)
Fixpoint gather_targets (rows : list (list R)) (target : list nat) : Result (list R) :=
  match rows, target with
  | [], [] => Ok []
  | r :: rows', t :: target' =>
      match r !! t with
      | Some x => xs ← gather_targets rows' target'; mret (x :: xs)
      | None => Raise (IndexError "Target is out of bounds")
      end
  | _, _ => Raise (ValueError "Expected input batch_size to match target batch_size")
  end.

(** [F.nll_loss(input, target, reduction="mean")] on a two-dimensional input.
    On an empty batch torch yields nan; the reals have none, and the model
    then yields the real [0 / 0]. *)
Definition nll_loss_mean (input : Tensor R) (target : list nat) : Result R :=
  match input with
  | Mat d rows =>
      if length rows =? length target
      then xs ← gather_targets rows target;
           mret (sum_list (map Ropp xs) / INR (length rows))%R
      else Raise (ValueError "Expected input batch_size to match target batch_size")
  | _ => Raise (ValueError "input tensor shape not supported")
  end.

(** Index of the first maximal entry after position [i], given the best so far. *)
Fixpoint argmax_from (best_i : nat) (best : R) (i : nat) (l : list R) : nat :=
  match l with
  | [] => best_i
  | x :: l' =>
      if Rlt_dec best x then argmax_from i x (S i) l'
      else argmax_from best_i best (S i) l'
  end.

Definition argmax (l : list R) : nat :=
  match l with
  | [] => 0
  | x :: l' => argmax_from 0 x 1 l'
  end.

(** The indices returned by [torch.max(t, 1)]. *)
Definition max_idxs_dim1 (t : Tensor R) : Result (list nat) :=
  match t with
  | Mat d rows =>
      if d =? 0
      then Raise (IndexError "cannot perform reduction function max on tensor with no elements")
      else Ok (map argmax rows)
  | _ => Raise (IndexError "Dimension out of range")
  end.

(** [(max_idxs == torch.tensor(positive_idx)).sum()] *)
Definition count_equal (max_idxs target : list nat) : Result nat :=
  match bdim (length max_idxs) (length target) with
  | Some n =>
      Ok (length (List.filter (fun p => fst p =? snd p)
                    (zip (expand n max_idxs) (expand n target))))
  | None => Raise (RuntimeError "The size of tensor a must match the size of tensor b")
  end.

(** [if loss_scale: loss.mul_(loss_scale)] *)
Definition apply_loss_scale (loss_scale : option R) (loss : R) : R :=
  match loss_scale with
  | Some s => if Req_dec_T s 0 then loss else (loss * s)%R
  | None => loss
  end.

(** The body that both [calc] methods share once [scores] is known. *)
Definition calc_from_scores (q_vectors scores : Tensor R)
    (positive_idx_per_question : list nat) (loss_scale : option R) : Result (R * nat) :=
  scores ← (if 1 <? rank q_vectors
            then view_rows (nth 0 (size q_vectors) 0) scores
            else Ok scores);
  softmax_scores ← log_softmax_dim1 scores;
  loss ← nll_loss_mean softmax_scores positive_idx_per_question;
  max_idxs ← max_idxs_dim1 softmax_scores;
  correct_predictions_count ← count_equal max_idxs positive_idx_per_question;
  mret (apply_loss_scale loss_scale loss, correct_predictions_count).

Module BiEncoderNllLoss.
Definition get_similarity_function : Tensor R -> Tensor R -> Result (Tensor R) :=
  dot_product_scores.

Definition get_scores (q_vector ctx_vectors : Tensor R) : Result (Tensor R) :=
  get_similarity_function q_vector ctx_vectors.

Definition calc (q_vectors ctx_vectors q_ent_vectors ctx_ent_vectors : Tensor R)
    (positive_idx_per_question : list nat)
    (hard_negative_idx_per_question : option (list (list nat)))
    (loss_scale : option R) : Result (R * nat) :=
  scores ← get_scores q_vectors ctx_vectors;
  calc_from_scores q_vectors scores positive_idx_per_question loss_scale.
End BiEncoderNllLoss.

(** ** Entity-augmented scores *)

Module BiEncoderEntLoss.
Section Scores.
Context {A : Type} `{Scalar A}.

Definition get_similarity_function : Tensor A -> Tensor A -> Result (Tensor A) :=
  dot_product_scores.

Definition get_scores (q_vector ctx_vectors q_ent_vector ctx_ent_vectors : Tensor A)
  : Result (Tensor A) :=
  let f := get_similarity_function in
  s1 ← f q_vector ctx_vectors;
  s2 ← f q_ent_vector ctx_ent_vectors;
  tensor_add s1 s2.
End Scores.

Definition calc (q_vectors ctx_vectors q_ent_vectors ctx_ent_vectors : Tensor R)
    (positive_idx_per_question : list nat)
    (hard_negative_idx_per_question : option (list (list nat)))
    (loss_scale : option R) : Result (R * nat) :=
  scores ← get_scores q_vectors ctx_vectors q_ent_vectors ctx_ent_vectors;
  calc_from_scores q_vectors scores positive_idx_per_question loss_scale.
End BiEncoderEntLoss.

(** ** Samples, passages and the store of list objects *)

Module Passage.
Record t : Type := mk {
  text : string;
  title : option string;
  entities : list string;
  entity_spans : list (nat * nat);
}.
End Passage.

Module Query.
Record t : Type := mk {
  text : string;
  entities : list string;
  entity_spans : list (nat * nat);
}.
End Query.

(** A location names one Python list object. *)
Definition loc : Type := positive.

(** A [BiEncoderSample]: the query, and references to its three passage
    pools.  The pools are list objects: [random.shuffle] permutes them in
    place, through whichever sample refers to them. *)
Record BiEncoderSample : Type := {
  query : Query.t;
  positive_passages : loc;
  negative_passages : loc;
  hard_negative_passages : loc;
}.

(** ** Random sources *)

(** A generator is an unbounded tape of raw draws and a read position: any
    sequence of outcomes of a pseudo-random generator is some tape. *)
Record Rng : Type := {
  tape : nat -> N;
  cursor : nat;
}.

Definition next_raw (g : Rng) : N * Rng :=
  (tape g (cursor g), {| tape := tape g; cursor := S (cursor g) |}).

(** [_randbelow(n)], for [n > 0]. *)
Definition randbelow (n : nat) (g : Rng) : nat * Rng :=
  let (raw, g') := next_raw g in (N.to_nat (raw mod N.of_nat n), g').

(** [random()]: a multiple of [2^-53] in [[0, 1)]. *)
Definition random_float (g : Rng) : Q * Rng :=
  let (raw, g') := next_raw g in
  (Qmake (Z.of_N (raw mod 2 ^ 53)) (2 ^ 53), g').

(** The state a call can read or change: the list objects, and the three
    generators the module uses: the global one of [random], the global one
    of [np.random], and the module's own [rnd = random.Random(0)]. *)
Record World : Type := {
  heap : gmap loc (list Passage.t);
  random_state : Rng;
  np_random_state : Rng;
  rnd : Rng;
}.

(** ** Computations that read and change the world and may raise *)

Definition M (A : Type) : Type := World -> Result A * World.

Definition ret {A} (a : A) : M A := fun w => (Ok a, w).

Definition raise {A} (e : Error) : M A := fun w => (Raise e, w).

Definition bind {A B} (m : M A) (f : A -> M B) : M B := fun w =>
  match m w with
  | (Ok a, w') => f a w'
  | (Raise e, w') => (Raise e, w')
  end.

Definition lift {A} (r : Result A) : M A := fun w => (r, w).

#[global] Instance M_ret : MRet M := @ret.
#[global] Instance M_bind : MBind M := fun _ _ f m => bind m f.

(** The contents of a list object. *)
Definition read_list (l : loc) : M (list Passage.t) := fun w => (Ok (heap w !!! l), w).

(** [x[i], x[j] = x[j], x[i]] *)
Definition swap {A} (x : list A) (i j : nat) : list A :=
  match x !! i, x !! j with
  | Some xi, Some xj => <[j := xi]> (<[i := xj]> x)
  | _, _ => x
  end.

(** The loop of [random.shuffle]:
    [for i in reversed(range(1, len(x))): j = randbelow(i + 1); swap]. *)
Fixpoint shuffle_from {A} (i : nat) (x : list A) (g : Rng) : list A * Rng :=
  match i with
  | 0 => (x, g)
  | S i' => let (j, g') := randbelow (S i) g in shuffle_from i' (swap x i j) g'
  end.

Definition shuffle_list {A} (x : list A) (g : Rng) : list A * Rng :=
  shuffle_from (length x - 1) x g.

(** [random.shuffle(x)] on the list object at [l]. *)
Definition random_shuffle (l : loc) : M unit := fun w =>
  let (x', g') := shuffle_list (heap w !!! l) (random_state w) in
  (Ok tt, {| heap := <[l := x']> (heap w); random_state := g';
             np_random_state := np_random_state w; rnd := rnd w |}).

(** [np.random.choice(n)] *)
Definition np_random_choice (n : nat) : M nat := fun w =>
  if n =? 0 then (Raise (ValueError "a must be non-empty"), w)
  else let (i, g') := randbelow n (np_random_state w) in
       (Ok i, {| heap := heap w; random_state := random_state w;
                 np_random_state := g'; rnd := rnd w |}).

(** [rnd.random()] *)
Definition rnd_random : M Q := fun w =>
  let (r, g') := random_float (rnd w) in
  (Ok r, {| heap := heap w; random_state := random_state w;
            np_random_state := np_random_state w; rnd := g' |}).

(** [l[i]] for [i >= 0] *)
Definition index {A} (l : list A) (i : nat) : Result A :=
  match l !! i with
  | Some x => Ok x
  | None => Raise (IndexError "list index out of range")
  end.

(** ** The tensorizer *)

(** What [text_to_tensor] yields when the assembler unpacks it: token ids,
    entity ids and entity position ids. *)
Definition Encoded : Type := list Z * list Z * Tensor Z.

(** The [Tensorizer] is a collaborator whose code lies outside the
    modelled file; it is taken as a record of its methods.
    [text_to_tensor] is the call with a title, entities and entity spans,
    whose result the assembler unpacks into three tensors;
    [text_to_token_tensor text apply_max_len] is the call on a text alone,
    whose result [_select_span_with_token] uses as a tensor of token ids.
    [get_max_mention_length] is [None] for a tensorizer without that
    attribute. *)
Record Tensorizer : Type := {
  text_to_tensor : string -> option string -> list string -> list (nat * nat) -> Encoded;
  text_to_token_tensor : string -> bool -> list Z;
  get_token_id : string -> Z;
  get_pad_id : Z;
  max_length : nat;
  cls_token_id : Z;
  sep_token_id : Z;
  get_max_mention_length : option nat;
}.

(** ** Span re-windowing *)

(** [int(x)]: truncation toward zero. *)
Definition int_of_Q (x : Q) : Z := Z.quot (Qnum x) (Zpos (Qden x)).

(** [id in t] *)
Definition contains (id : Z) (t : list Z) : bool := existsb (Z.eqb id) t.

(** The first position of [(t == id).nonzero()], if any. *)
Fixpoint first_index (id : Z) (t : list Z) : option nat :=
  match t with
  | [] => None
  | x :: t' => if (x =? id)%Z then Some 0 else S <$> first_index id t'
  end.

(** [t[k:]], where a negative [k] counts from the end. *)
Definition slice_from {A} (t : list A) (k : Z) : list A :=
  if (k <? 0)%Z then drop (Z.to_nat (Z.of_nat (length t) + k)) t
  else drop (Z.to_nat k) t.

(** Modelled from the spec: [_pad_to_len] of [dpr.models.reader], which is
    not part of the modelled file; the specification describes the step as
    "right-pad/truncate to the configured max length". *)
Definition _pad_to_len (seq : list Z) (pad_id : Z) (max_len : nat) : list Z :=
  if max_len <? length seq then take max_len seq
  else seq ++ replicate (max_len - length seq) pad_id.

(** [t[-1] = x] *)
Definition set_last (t : list Z) (x : Z) : Result (list Z) :=
  match t with
  | [] => Raise (IndexError "index -1 is out of bounds for dimension 0 with size 0")
  | _ => Ok (<[length t - 1 := x]> t)
  end.

(** [left_shit] after the jitter, given the value [r] of [rnd.random()]:
    [left_shit = int(max_length / 2)],
    [rnd_shift = int((r - 0.5) * left_shit / 2)], [left_shit += rnd_shift]. *)
Definition jittered_left_shift (max_len : nat) (r : Q) : Z :=
  let left_shit := int_of_Q (inject_Z (Z.of_nat max_len) / 2) in
  let rnd_shift := int_of_Q ((r - (1 # 2)) * inject_Z left_shit / 2) in
  (left_shit + rnd_shift)%Z.

Definition _select_span_with_token (text : string) (tensorizer : Tensorizer)
    (token_str : string) : M (list Z) :=
  let id := get_token_id tensorizer token_str in
  let query_tensor := text_to_token_tensor tensorizer text true in
  if negb (contains id query_tensor) then
    let query_tensor_full := text_to_token_tensor tensorizer text false in
    match first_index id query_tensor_full with
    | Some start_pos =>
        r ← rnd_random;
        let left_shit := jittered_left_shift (max_length tensorizer) r in
        let query_tensor := slice_from query_tensor_full (Z.of_nat start_pos - left_shit) in
        let cls_id := cls_token_id tensorizer in
        match query_tensor with
        | [] => raise (IndexError "index 0 is out of bounds for dimension 0 with size 0")
        | first :: _ =>
            let query_tensor :=
              if negb (first =? cls_id)%Z then cls_id :: query_tensor else query_tensor in
            let query_tensor :=
              _pad_to_len query_tensor (get_pad_id tensorizer) (max_length tensorizer) in
            query_tensor ← lift (set_last query_tensor (sep_token_id tensorizer));
            if contains id query_tensor then ret query_tensor
            else raise (AssertionError "query_tensor=")
        end
    | None =>
        raise (RuntimeError
                 ("[START_ENT] toke not found for Entity Linking sample query=" +:+ text))
    end
  else ret query_tensor.

(** ** The batch *)

(** A batch of entity position ids: either the three-dimensional stack
    [batch x k x mention_length], or, for a tensorizer without a declared
    mention length, the plain concatenation of the per-text tensors. *)
Inductive PositionIds : Type :=
| Stacked (k mention_length : nat) (blocks : list (list (list Z)))
| Concatenated (t : Tensor Z).

Record BiEncoderBatch : Type := {
  question_ids : Tensor Z;
  question_segments : Tensor Z;
  question_entity_ids : Tensor Z;
  question_entity_position_ids : PositionIds;
  question_entity_segments : Tensor Z;
  context_ids : Tensor Z;
  ctx_segments : Tensor Z;
  ctx_entity_ids : Tensor Z;
  ctx_entity_position_ids : PositionIds;
  ctx_entity_segments : Tensor Z;
  is_positive : list nat;
  hard_negatives : list (list nat);
  encoder_type : string;
}.

(** [torch.cat([t.view(1, -1) for t in ts], dim=0)] on one-dimensional tensors *)
Definition cat_rows (ts : list (list Z)) : Result (Tensor Z) :=
  match ts with
  | [] => Raise (RuntimeError "torch.cat(): expected a non-empty list of Tensors")
  | t :: _ =>
      if forallb (fun t' => length t' =? length t) ts
      then Ok (Mat (length t) ts)
      else Raise (RuntimeError "Sizes of tensors must match except in dimension 0")
  end.

(** [t.view(1, -1, m)]: the block of rows of width [m]. *)
Definition view_block (m : nat) (t : Tensor Z) : Result (list (list Z)) :=
  let data := flatten t in
  if m =? 0 then Raise (RuntimeError "shape is invalid for input size")
  else if length data mod m =? 0
       then Ok (chunks m (length data / m) data)
       else Raise (RuntimeError "shape is invalid for input size").

Fixpoint view_blocks (m : nat) (ts : list (Tensor Z)) : Result (list (list (list Z))) :=
  match ts with
  | [] => Ok []
  | t :: ts' => b ← view_block m t; bs ← view_blocks m ts'; mret (b :: bs)
  end.

(** [torch.cat([t.view(1, -1, m) for t in ts], dim=0)] *)
Definition cat_blocks (m : nat) (ts : list (Tensor Z)) : Result PositionIds :=
  blocks ← view_blocks m ts;
  match blocks with
  | [] => Raise (RuntimeError "torch.cat(): expected a non-empty list of Tensors")
  | b :: _ =>
      if forallb (fun b' => length b' =? length b) blocks
      then Ok (Stacked (length b) m blocks)
      else Raise (RuntimeError "Sizes of tensors must match except in dimension 0")
  end.

(** [torch.cat(ts, dim=0)] *)
Definition cat_dim0 (ts : list (Tensor Z)) : Result (Tensor Z) :=
  match ts with
  | [] => Raise (RuntimeError "torch.cat(): expected a non-empty list of Tensors")
  | Scal _ :: _ => Raise (RuntimeError "zero-dimensional tensor cannot be concatenated")
  | Vec _ :: _ =>
      if forallb (fun t => match t with Vec _ => true | _ => false end) ts
      then Ok (Vec (concat (map flatten ts)))
      else Raise (RuntimeError "Tensors must have same number of dimensions")
  | Mat d _ :: _ =>
      if forallb (fun t => match t with Mat d' _ => d' =? d | _ => false end) ts
      then Ok (Mat d (concat (map (fun t => snd (as_rows t)) ts)))
      else Raise (RuntimeError "Sizes of tensors must match except in dimension 0")
  end.

(** [torch.zeros_like(t)] *)
Definition zeros_like (t : Tensor Z) : Tensor Z :=
  match t with
  | Scal _ => Scal 0%Z
  | Vec v => Vec (map (fun _ => 0%Z) v)
  | Mat d rows => Mat d (map (map (fun _ => 0%Z)) rows)
  end.

(** ** [BiEncoder.create_biencoder_input] *)

(** The lists that the loop over the samples fills. *)
Record Acc : Type := {
  question_tensors : list (list Z);
  question_entity_tensors : list (list Z);
  question_entity_position_ids_acc : list (Tensor Z);
  ctx_tensors : list (list Z);
  ctx_entity_tensors : list (list Z);
  ctxs_entity_position_ids : list (Tensor Z);
  positive_ctx_indices : list nat;
  hard_neg_ctx_indices : list (list nat);
}.

Definition empty_acc : Acc :=
  {| question_tensors := []; question_entity_tensors := [];
     question_entity_position_ids_acc := []; ctx_tensors := [];
     ctx_entity_tensors := []; ctxs_entity_position_ids := [];
     positive_ctx_indices := []; hard_neg_ctx_indices := [] |}.

(** The truth value of a string. *)
Definition truthy (s : string) : bool := negb (String.eqb s "").

Section Assembler.
Variable tensorizer : Tensorizer.
Variable insert_title : bool.
(** The two counts are amounts of passages, hence natural numbers. *)
Variable num_hard_negatives : nat.
Variable num_other_negatives : nat.
Variable shuffle : bool.
Variable shuffle_positives : bool.
Variable hard_neg_fallback : bool.
Variable query_token : option string.

(** Choice of the positive and of the two slices of negatives. *)
Definition select_passages (sample : BiEncoderSample)
  : M (Passage.t * list Passage.t * list Passage.t) :=
  positive_ctx ←
    (if shuffle && shuffle_positives then
       positive_ctxs ← read_list (positive_passages sample);
       i ← np_random_choice (length positive_ctxs);
       lift (index positive_ctxs i)
     else
       positive_ctxs ← read_list (positive_passages sample);
       lift (index positive_ctxs 0));
  _ ← (if shuffle then
         _ ← random_shuffle (negative_passages sample);
         random_shuffle (hard_negative_passages sample)
       else ret tt);
  neg_ctxs ← read_list (negative_passages sample);
  hard_neg_ctxs ← read_list (hard_negative_passages sample);
  let hard_neg_ctxs :=
    if hard_neg_fallback && (length hard_neg_ctxs =? 0)
    then take num_hard_negatives neg_ctxs else hard_neg_ctxs in
  let neg_ctxs := take num_other_negatives neg_ctxs in
  let hard_neg_ctxs := take num_hard_negatives hard_neg_ctxs in
  ret (positive_ctx, neg_ctxs, hard_neg_ctxs).

(** The tensors of one passage. *)
Definition ctx_to_tensor (ctx : Passage.t) : Encoded :=
  text_to_tensor tensorizer (Passage.text ctx)
    (match Passage.title ctx with
     | Some t => if insert_title && truthy t then Some t else None
     | None => None
     end)
    (Passage.entities ctx) (Passage.entity_spans ctx).

(** The tensors of the query, in its three modes. *)
Definition encode_query (question : Query.t) (acc : Acc) : M Acc :=
  let with_encoded (e : Encoded) : Acc :=
    let '(token_ids, entity_ids, entity_position_ids) := e in
    {| question_tensors := question_tensors acc ++ [token_ids];
       question_entity_tensors := question_entity_tensors acc ++ [entity_ids];
       question_entity_position_ids_acc :=
         question_entity_position_ids_acc acc ++ [entity_position_ids];
       ctx_tensors := ctx_tensors acc;
       ctx_entity_tensors := ctx_entity_tensors acc;
       ctxs_entity_position_ids := ctxs_entity_position_ids acc;
       positive_ctx_indices := positive_ctx_indices acc;
       hard_neg_ctx_indices := hard_neg_ctx_indices acc |} in
  match query_token with
  | Some qt =>
      if truthy qt then
        if String.eqb qt "[START_ENT]" then
          query_span ← _select_span_with_token (Query.text question) tensorizer qt;
          ret {| question_tensors := question_tensors acc ++ [query_span];
                 question_entity_tensors := question_entity_tensors acc;
                 question_entity_position_ids_acc := question_entity_position_ids_acc acc;
                 ctx_tensors := ctx_tensors acc;
                 ctx_entity_tensors := ctx_entity_tensors acc;
                 ctxs_entity_position_ids := ctxs_entity_position_ids acc;
                 positive_ctx_indices := positive_ctx_indices acc;
                 hard_neg_ctx_indices := hard_neg_ctx_indices acc |}
        else
          ret (with_encoded
                 (text_to_tensor tensorizer (qt +:+ " " +:+ Query.text question) None
                    (Query.entities question) (Query.entity_spans question)))
      else
        ret (with_encoded
               (text_to_tensor tensorizer (Query.text question) None
                  (Query.entities question) (Query.entity_spans question)))
  | None =>
      ret (with_encoded
             (text_to_tensor tensorizer (Query.text question) None
                (Query.entities question) (Query.entity_spans question)))
  end.

(** One turn of the loop over the samples. *)
Definition process_sample (sample : BiEncoderSample) (acc : Acc) : M Acc :=
  '(positive_ctx, neg_ctxs, hard_neg_ctxs) ← select_passages sample;
  let question := query sample in
  let all_ctxs := [positive_ctx] ++ neg_ctxs ++ hard_neg_ctxs in
  let hard_negatives_start_idx := 1 in
  let hard_negatives_end_idx := 1 + length hard_neg_ctxs in
  let current_ctxs_len := length (ctx_tensors acc) in
  let sample_ctxs := map ctx_to_tensor all_ctxs in
  let sample_ctxs_tensors := map (fun e => fst (fst e)) sample_ctxs in
  let sample_ctxs_entity_tensors := map (fun e => snd (fst e)) sample_ctxs in
  let sample_ctxs_entity_position_ids := map snd sample_ctxs in
  let acc :=
    {| question_tensors := question_tensors acc;
       question_entity_tensors := question_entity_tensors acc;
       question_entity_position_ids_acc := question_entity_position_ids_acc acc;
       ctx_tensors := ctx_tensors acc ++ sample_ctxs_tensors;
       ctx_entity_tensors := ctx_entity_tensors acc ++ sample_ctxs_entity_tensors;
       ctxs_entity_position_ids :=
         ctxs_entity_position_ids acc ++ sample_ctxs_entity_position_ids;
       positive_ctx_indices := positive_ctx_indices acc ++ [current_ctxs_len];
       hard_neg_ctx_indices :=
         hard_neg_ctx_indices acc
         ++ [seq (current_ctxs_len + hard_negatives_start_idx)
               ((current_ctxs_len + hard_negatives_end_idx)
                - (current_ctxs_len + hard_negatives_start_idx))] |} in
  encode_query question acc.

(** [for sample in samples: ...] *)
Fixpoint process_samples (samples : list BiEncoderSample) (acc : Acc) : M Acc :=
  match samples with
  | [] => ret acc
  | sample :: samples' => acc' ← process_sample sample acc; process_samples samples' acc'
  end.

(** The stacking of the collected tensors into the batch. *)
Definition stack_batch (acc : Acc) : Result BiEncoderBatch :=
  ctxs_tensor ← cat_rows (ctx_tensors acc);
  ctxs_entity_tensor ← cat_rows (ctx_entity_tensors acc);
  questions_tensor ← cat_rows (question_tensors acc);
  questions_entity_tensor ← cat_rows (question_entity_tensors acc);
  '(question_entity_position_ids, ctxs_entity_position_ids) ←
    match get_max_mention_length tensorizer with
    | Some m =>
        q ← cat_blocks m (question_entity_position_ids_acc acc);
        c ← cat_blocks m (ctxs_entity_position_ids acc);
        mret (q, c)
    | None =>
        q ← cat_dim0 (question_entity_position_ids_acc acc);
        c ← cat_dim0 (ctxs_entity_position_ids acc);
        mret (Concatenated q, Concatenated c)
    end;
  mret {| question_ids := questions_tensor;
          question_segments := zeros_like questions_tensor;
          question_entity_ids := questions_entity_tensor;
          question_entity_position_ids := question_entity_position_ids;
          question_entity_segments := zeros_like questions_entity_tensor;
          context_ids := ctxs_tensor;
          ctx_segments := zeros_like ctxs_tensor;
          ctx_entity_ids := ctxs_entity_tensor;
          ctx_entity_position_ids := ctxs_entity_position_ids;
          ctx_entity_segments := zeros_like ctxs_entity_tensor;
          is_positive := positive_ctx_indices acc;
          hard_negatives := hard_neg_ctx_indices acc;
          encoder_type := "question" |}.

Definition create_biencoder_input (samples : list BiEncoderSample) : M BiEncoderBatch :=
  acc ← process_samples samples empty_acc;
  lift (stack_batch acc).

End Assembler.

(** ** Vocabulary for the statements about the assembler *)

(** [l] is the negative or the hard-negative pool of one of the samples. *)
Definition is_negative_pool (samples : list BiEncoderSample) (l : loc) : bool :=
  existsb (fun s => Pos.eqb l (negative_passages s)
                    || Pos.eqb l (hard_negative_passages s)) samples.

(** Every list object holds a permutation of what it held, and the list
    objects outside [pools] hold exactly what they held. *)
Definition pools_permuted (pools : loc -> bool) (w w' : World) : Prop :=
  forall l, heap w' !!! l ≡ₚ heap w !!! l
            /\ (pools l = false -> heap w' !!! l = heap w !!! l).

(** ** Concrete inputs for the examples *)

Module Toy.

(** A tensorizer with sequences of width four: start marker, length of the
    text, length of the inserted title, end marker.  On a text alone it
    yields 100 tokens without the marker token [9] when the length limit
    applies, and otherwise 200 tokens with the marker at position 50. *)
Definition tensorizer : Tensorizer :=
  {| text_to_tensor := fun text title ents spans =>
       ([101; Z.of_nat (String.length text);
         match title with Some t => Z.of_nat (String.length t) | None => 0 end;
         102]%Z,
        [Z.of_nat (length ents)], Mat 2 [[0; 1]]%Z);
     text_to_token_tensor := fun text apply_max_len =>
       if apply_max_len then replicate 100 7%Z
       else replicate 50 7%Z ++ [9%Z] ++ replicate 149 7%Z;
     get_token_id := fun _ => 9%Z;
     get_pad_id := 0%Z;
     max_length := 100;
     cls_token_id := 101%Z;
     sep_token_id := 102%Z;
     get_max_mention_length := Some 2 |}.

(** The same tensorizer when the untruncated text has no marker either. *)
Definition tensorizer_no_marker : Tensorizer :=
  {| text_to_tensor := text_to_tensor tensorizer;
     text_to_token_tensor := fun text apply_max_len =>
       if apply_max_len then replicate 100 7%Z else replicate 200 7%Z;
     get_token_id := fun _ => 9%Z;
     get_pad_id := 0%Z;
     max_length := 100;
     cls_token_id := 101%Z;
     sep_token_id := 102%Z;
     get_max_mention_length := Some 2 |}.

(** A tensorizer with [max_length = 4] whose length-limited tensor is the
    untruncated one cut to four tokens, the last one set to the end marker. *)
Definition tensorizer_short : Tensorizer :=
  {| text_to_tensor := text_to_tensor tensorizer;
     text_to_token_tensor := fun text apply_max_len =>
       if apply_max_len then [101; 7; 7; 102]%Z else [101; 7; 7; 7; 9; 7; 102]%Z;
     get_token_id := fun _ => 9%Z;
     get_pad_id := 0%Z;
     max_length := 4;
     cls_token_id := 101%Z;
     sep_token_id := 102%Z;
     get_max_mention_length := Some 2 |}.

Definition passage (text : string) : Passage.t :=
  Passage.mk text (Some "T"%string) [] [].

(** Three list objects: one positive, three other negatives, one hard
    negative; and a second hard-negative pool that is empty. *)
Definition pools : gmap loc (list Passage.t) :=
  <[1%positive := [passage "p"]]>
    (<[2%positive := [passage "n1"; passage "n22"; passage "n333"]]>
       (<[3%positive := [passage "h4444"]]> (<[4%positive := []]> ∅))).

(** A generator whose draws are [k], [k + 1], ... *)
Definition counting (k : N) : Rng := {| tape := fun i => (k + N.of_nat i)%N; cursor := 0 |}.

(** A world whose next [rnd.random()] is [raw / 2^53]. *)
Definition world (raw : N) : World :=
  {| heap := pools; random_state := counting 5; np_random_state := counting 0;
     rnd := counting raw |}.


Definition sample : BiEncoderSample :=
  {| query := Query.mk "what" [] [];
     positive_passages := 1%positive;
     negative_passages := 2%positive;
     hard_negative_passages := 3%positive |}.

(** A sample without curated hard negatives. *)
Definition sample_no_hard : BiEncoderSample :=
  {| query := Query.mk "who" [] [];
     positive_passages := 1%positive;
     negative_passages := 2%positive;
     hard_negative_passages := 4%positive |}.

End Toy.

(** The number of passages a sample contributes to the flattened batch:
    its positive, its slice of other negatives and its slice of hard
    negatives, given the list objects [h]. *)
Definition sample_ctxs_count (num_hard_negatives num_other_negatives : nat)
    (hard_neg_fallback : bool) (h : gmap loc (list Passage.t)) (s : BiEncoderSample) : nat :=
  let negs := length (h !!! negative_passages s) in
  let hards := length (h !!! hard_negative_passages s) in
  1 + Nat.min num_other_negatives negs
  + Nat.min num_hard_negatives
      (if hard_neg_fallback && (hards =? 0) then Nat.min num_hard_negatives negs else hards).

(** The running totals [base], [base + c0], [base + c0 + c1], ... *)
Fixpoint offsets (base : nat) (counts : list nat) : list nat :=
  match counts with
  | [] => []
  | c :: counts' => base :: offsets (base + c) counts'
  end.

(** [always R m]: whatever [m] does, also when it raises, the world it
    leaves is related by [R] to the one it started in. *)
Definition always {A} (R : World -> World -> Prop) (m : M A) : Prop :=
  forall w, R w (snd (m w)).

(** A computation that reads the list objects only: it leaves the world as
    it found it, and its outcome is the same in two worlds that hold the
    same list objects, whatever the states of their random generators. *)
Definition heap_only {A} (m : M A) : Prop :=
  (forall w, snd (m w) = w)
  /\ (forall w1 w2, heap w1 = heap w2 -> fst (m w1) = fst (m w2)).

(** ** [BiEncoder.get_representation] and [BiEncoder.forward] *)

Section Encoders.
(** The tensors given to an encoder ([T]), the values of the tensors it
    computes ([V]) and its two further results ([H] for the hidden states,
    [E] for the entity output) are kept abstract. *)
Context {T V H E : Type}.

(** A computed tensor: its value, and whether autograd tracks it. *)
Record Output : Type := { output_value : V; requires_grad : bool }.

(** The seven tensors of one side, [None] for an absent one. *)
Record EncoderInput : Type := {
  ids : option T;
  segments : option T;
  attn_mask : option T;
  ent_ids : option T;
  ent_segments : option T;
  ent_attn_mask : option T;
  ent_position_ids : option T;
}.

(** An encoder module: what a call yields (sequence output, pooled output,
    hidden states, entity output) given whether gradients are enabled, the
    input, [representation_token_pos] and [entity_list_representation]; and
    its [training] flag. *)
Record SubModel : Type := {
  call : bool -> EncoderInput -> Z -> bool -> Result (Output * Output * H * E);
  training : bool;
}.

(** [t.requires_grad_(requires_grad=True)] *)
Definition requires_grad_ (t : Output) : Output :=
  {| output_value := output_value t; requires_grad := true |}.

(** [grad_enabled] is the gradient mode in which the method is entered;
    [with torch.no_grad()] runs the call with gradients disabled. *)
Definition get_representation (grad_enabled : bool) (sub_model : SubModel)
    (input : EncoderInput) (fix_encoder : bool) (representation_token_pos : Z)
    (entity_list_representation : bool)
  : Result (option Output * option Output * option H * option E) :=
  match ids input with
  | Some _ =>
      if fix_encoder then
        '(sequence_output, pooled_output, hidden_states, random_entity_output) ←
          call sub_model false input representation_token_pos entity_list_representation;
        if training sub_model then
          Ok (Some (requires_grad_ sequence_output), Some (requires_grad_ pooled_output),
              Some hidden_states, Some random_entity_output)
        else
          Ok (Some sequence_output, Some pooled_output,
              Some hidden_states, Some random_entity_output)
      else
        '(sequence_output, pooled_output, hidden_states, random_entity_output) ←
          call sub_model grad_enabled input representation_token_pos
            entity_list_representation;
        Ok (Some sequence_output, Some pooled_output,
            Some hidden_states, Some random_entity_output)
  | None => Ok (None, None, None, None)
  end.

Record BiEncoder : Type := {
  question_model : SubModel;
  ctx_model : SubModel;
  fix_q_encoder : bool;
  fix_ctx_encoder : bool;
}.

(** [encoder_type is None or encoder_type == name] *)
Definition none_or (encoder_type : option string) (name : string) : bool :=
  match encoder_type with
  | None => true
  | Some t => String.eqb t name
  end.

Definition forward (grad_enabled : bool) (self : BiEncoder)
    (question context : EncoderInput) (encoder_type : option string)
    (representation_token_pos : Z) (entity_list_representation : bool)
  : Result (option Output * option Output * option E * option E) :=
  let q_encoder :=
    if none_or encoder_type "question" then question_model self else ctx_model self in
  '(_q_seq, q_pooled_out, _q_hidden, q_ent_out) ←
    get_representation grad_enabled q_encoder question (fix_q_encoder self)
      representation_token_pos entity_list_representation;
  let ctx_encoder :=
    if none_or encoder_type "ctx" then ctx_model self else question_model self in
  '(_ctx_seq, ctx_pooled_out, _ctx_hidden, ctx_ent_out) ←
    get_representation grad_enabled ctx_encoder context (fix_ctx_encoder self)
      0%Z entity_list_representation;
  Ok (q_pooled_out, ctx_pooled_out, q_ent_out, ctx_ent_out).

End Encoders.

Arguments Output : clear implicits.
Arguments EncoderInput : clear implicits.
Arguments SubModel : clear implicits.
Arguments BiEncoder : clear implicits.

(** An encoder for the examples: the pooled output is the first token id
    plus [bias] plus the representation position, tracked when gradients
    are enabled. *)
Definition toy_encoder (bias : Z) (is_training : bool) : SubModel Z Z unit unit :=
  {| call := fun grad input pos _ =>
       match ids input with
       | Some t =>
           Ok ({| output_value := t; requires_grad := grad |},
               {| output_value := (t + bias + pos)%Z; requires_grad := grad |}, tt, tt)
       | None => Raise (ValueError "input_ids is None")
       end;
     training := is_training |}.

Definition toy_input (t : Z) : EncoderInput Z :=
  {| ids := Some t; segments := None; attn_mask := None; ent_ids := None;
     ent_segments := None; ent_attn_mask := None; ent_position_ids := None |}.

(** ** The title cache of [drl.py] *)

Section TitleCache.
(** Passage ids, passages and titles are whatever the context source
    yields; titles are dictionary keys. *)
Context {Id P Title : Type} `{Countable Title}.
Variable title : P -> Title.

(** [cache[key]] on a [defaultdict(list)]: a missing key is entered with
    an empty list. *)
Definition defaultdict_getitem (key : Title) (cache : gmap Title (list (Id * P)))
  : list (Id * P) * gmap Title (list (Id * P)) :=
  match cache !! key with
  | Some l => (l, cache)
  | None => ([], <[key := []]> cache)
  end.

Definition create_title_cache (passages : list (Id * P)) : gmap Title (list (Id * P)) :=
  foldl (fun cache '(passage_id, passage) =>
           let (l, cache) := defaultdict_getitem (title passage) cache in
           <[title passage := l ++ [(passage_id, passage)]]> cache)
    ∅ passages.

(** Returns [relevant] and the cache as the lookups leave it. *)
Definition find_relevant_passages (entities : list Title)
    (title_cache : gmap Title (list (Id * P)))
  : list (Id * P) * gmap Title (list (Id * P)) :=
  foldl (fun '(relevant, title_cache) ent =>
           let (l, title_cache) := defaultdict_getitem ent title_cache in
           (relevant ++ l, title_cache))
    ([], title_cache) entities.

End TitleCache.

(** [rows] holds, from position [b] on, the token tensors of [p], of [negs]
    and of [hards] in this order, and these passages are passages of the
    sample [s] in the list objects [h]: [p] a positive, [negs] other
    negatives, [hards] hard negatives or, on fallback, other negatives. *)
Definition block_of (tensorizer : Tensorizer) (insert_title hard_neg_fallback : bool)
    (h : gmap loc (list Passage.t)) (s : BiEncoderSample) (rows : list (list Z))
    (b : nat) (p : Passage.t) (negs hards : list Passage.t) : Prop :=
  (forall k c, (p :: negs ++ hards) !! k = Some c ->
     rows !! (b + k) = Some (fst (fst (ctx_to_tensor tensorizer insert_title c))))
  /\ p ∈ h !!! positive_passages s
  /\ (forall c, c ∈ negs -> c ∈ h !!! negative_passages s)
  /\ (forall c, c ∈ hards ->
        c ∈ h !!! hard_negative_passages s
        \/ (hard_neg_fallback = true /\ h !!! hard_negative_passages s = []
            /\ c ∈ h !!! negative_passages s)).

(** ** The loss and the accuracy count as the specification words them *)

(** Entry [j] of the log-softmax of a row of scores. *)
Definition log_softmax_at (row : list R) (j : nat) : R :=
  (nth j row 0 - ln (sum_list (map exp row)))%R.

(** The mean over the queries [i] of [- log_softmax(scores)[i, p[i]]], where
    row [i] of [scores] holds the inner products of query [i] with every
    passage. *)
Definition mean_nll (qs cs : list (list R)) (p : list nat) : R :=
  (sum_list (zip_with (fun q t => - log_softmax_at (map (dot q) cs) t) qs p)
   / INR (length qs))%R.

(** The number of queries whose best-scoring passage is their positive. *)
Definition correct_count (qs cs : list (list R)) (p : list nat) : nat :=
  length (List.filter (fun qt => argmax (map (dot (fst qt)) cs) =? snd qt) (zip qs p)).

(** * Theorems *)

Example get_scores_toy :
  BiEncoderEntLoss.get_scores
    (Mat 2 [[1; 2]; [3; 4]]%Z) (Mat 2 [[1; 0]; [0; 1]; [1; 1]]%Z)
    (Mat 1 [[5]; [7]]%Z) (Mat 1 [[1]; [2]; [3]]%Z)
  = Ok (Mat 3 [[6; 12; 18]; [10; 18; 28]]%Z).
Proof. reflexivity. Qed.

(** ** Shapes and entries of the dot-product score matrix *)

Section TensorFacts.
Context {A : Type} `{Scalar A}.

Lemma nth_map_lt {X Y} (f : X -> Y) (l : list X) (i : nat) (dx : X) (dy : Y) :
  i < length l -> nth i (map f l) dy = f (nth i l dx).
Proof.
  revert i. induction l as [|x l IH]; intros [|i] Hi; simpl in *; try lia.
  - reflexivity.
  - apply IH. lia.
Qed.

Lemma map_nth_seq_self {X} (l : list X) (d : X) (n : nat) :
  length l = n -> map (fun k => nth k l d) (seq 0 n) = l.
Proof.
  intros Hn. apply (nth_ext _ _ d d).
  - now rewrite length_map, length_seq.
  - intros i Hi. rewrite length_map, length_seq in Hi.
    rewrite (nth_map_lt _ _ _ 0) by now rewrite length_seq.
    now rewrite seq_nth.
Qed.

Lemma nth_col (cs : list (list A)) (k i : nat) :
  i < length cs -> nth i (col k cs) s_zero = nth k (nth i cs []) s_zero.
Proof.
  intros Hi. unfold col.
  now rewrite (nth_map_lt (fun r => nth k r s_zero) cs i [] s_zero).
Qed.

(** Transposing twice gives the rows back. *)
Lemma col_of_cols (cs : list (list A)) (D i : nat) :
  Forall (fun r => length r = D) cs -> i < length cs ->
  col i (map (fun k => col k cs) (seq 0 D)) = nth i cs [].
Proof.
  intros Hwf Hi. unfold col at 1. rewrite map_map.
  transitivity (map (fun k => nth k (nth i cs []) s_zero) (seq 0 D)).
  - apply map_ext. intros k. now apply nth_col.
  - apply map_nth_seq_self.
    rewrite List.Forall_forall in Hwf. apply Hwf. now apply nth_In.
Qed.

Lemma wf_tensor_Mat (D : nat) (rows : list (list A)) :
  wf_tensor (Mat D rows) = true <-> Forall (fun r => length r = D) rows.
Proof.
  simpl. rewrite List.forallb_forall, List.Forall_forall.
  split; intros Hall r Hr; specialize (Hall r Hr).
  - now apply Nat.eqb_eq.
  - now apply Nat.eqb_eq.
Qed.

(** The result of [dot_product_scores] always is a matrix with one row per
    query and one column per passage. *)
Lemma dot_product_scores_shape (D : nat) (qs cs : list (list A)) :
  exists S, dot_product_scores (Mat D qs) (Mat D cs) = Ok (Mat (length cs) S)
            /\ length S = length qs
            /\ Forall (fun r => length r = length cs) S.
Proof.
  eexists. unfold dot_product_scores. simpl.
  rewrite length_map, length_seq, Nat.eqb_refl. split; [reflexivity|].
  split.
  - now rewrite length_map.
  - apply List.Forall_forall. intros r Hr. apply in_map_iff in Hr as (q & <- & _).
    now rewrite length_map, length_seq.
Qed.

(** Entry [(i, j)] of the score matrix is the inner product of query [i]
    and passage [j]. *)
Lemma dot_product_scores_entries (D : nat) (qs cs : list (list A)) :
  wf_tensor (Mat D cs) = true ->
  dot_product_scores (Mat D qs) (Mat D cs)
  = Ok (Mat (length cs) (map (fun q => map (dot q) cs) qs)).
Proof.
  intros Hwf%wf_tensor_Mat. unfold dot_product_scores. simpl.
  rewrite length_map, length_seq, Nat.eqb_refl. do 2 f_equal.
  apply map_ext. intros q.
  transitivity (map (fun j => dot q (nth j cs [])) (seq 0 (length cs))).
  - apply map_ext_in. intros j Hj%in_seq. f_equal. apply col_of_cols; [assumption | lia].
  - rewrite <- (map_map (fun j => nth j cs []) (dot q)). f_equal.
    now apply map_nth_seq_self.
Qed.

Lemma expand_id {X} (n : nat) (l : list X) : length l = n -> expand n l = l.
Proof.
  intros Hn. destruct l as [|x [|y l]]; try reflexivity.
  simpl in Hn. now subst.
Qed.

Lemma expand_rows_id (n d : nat) (rows : list (list A)) :
  length rows = n -> Forall (fun r => length r = d) rows ->
  expand_rows n d rows = rows.
Proof.
  intros Hn Hwf. unfold expand_rows.
  assert (map (expand d) rows = rows) as ->.
  { rewrite <- (map_id rows) at 2. apply map_ext_in. intros r Hr.
    apply expand_id. rewrite List.Forall_forall in Hwf. now apply Hwf. }
  now apply expand_id.
Qed.

(** Adding two matrices of one shape involves no broadcasting. *)
Lemma tensor_add_same_shape (d : nat) (S1 S2 : list (list A)) :
  length S1 = length S2 ->
  Forall (fun r => length r = d) S1 -> Forall (fun r => length r = d) S2 ->
  tensor_add (Mat d S1) (Mat d S2) = Ok (Mat d (elementwise_sum S1 S2)).
Proof.
  intros Hlen Hwf1 Hwf2. unfold tensor_add, broadcast, bdim. simpl.
  rewrite Hlen, !Nat.eqb_refl. simpl.
  rewrite !expand_rows_id by auto. reflexivity.
Qed.

End TensorFacts.

(** C6. The entity-augmented score matrix that [BiEncoderEntLoss.get_scores]
    computes for a batch of queries and passages, with their entity vectors,
    is the elementwise sum of the dot-product score matrix of the
    query/passage vectors and the dot-product score matrix of the
    query-entity/passage-entity vectors. *)
Theorem get_scores_elementwise_sum {A : Type} `{Scalar A}
    (D E : nat) (qs cs qes ces : list (list A)) :
  length qes = length qs -> length ces = length cs ->
  exists S1 S2,
    dot_product_scores (Mat D qs) (Mat D cs) = Ok (Mat (length cs) S1) /\
    dot_product_scores (Mat E qes) (Mat E ces) = Ok (Mat (length cs) S2) /\
    BiEncoderEntLoss.get_scores (Mat D qs) (Mat D cs) (Mat E qes) (Mat E ces)
    = Ok (Mat (length cs) (elementwise_sum S1 S2)).
Proof.
  intros Hq Hc.
  destruct (dot_product_scores_shape D qs cs) as (S1 & E1 & L1 & W1).
  destruct (dot_product_scores_shape E qes ces) as (S2 & E2 & L2 & W2).
  rewrite Hc in E2, W2.
  exists S1, S2. split; [assumption|]. split; [assumption|].
  unfold BiEncoderEntLoss.get_scores, BiEncoderEntLoss.get_similarity_function.
  rewrite E1. simpl. rewrite E2. simpl.
  apply tensor_add_same_shape; congruence.
Qed.

Lemma get_scores_elementwise_sum_witness :
  exists S1 S2,
    dot_product_scores (Mat 2 [[1; 2]; [3; 4]]%Z) (Mat 2 [[1; 0]; [0; 1]; [1; 1]]%Z)
    = Ok (Mat 3 S1) /\
    dot_product_scores (Mat 1 [[5]; [7]]%Z) (Mat 1 [[1]; [2]; [3]]%Z) = Ok (Mat 3 S2) /\
    BiEncoderEntLoss.get_scores
      (Mat 2 [[1; 2]; [3; 4]]%Z) (Mat 2 [[1; 0]; [0; 1]; [1; 1]]%Z)
      (Mat 1 [[5]; [7]]%Z) (Mat 1 [[1]; [2]; [3]]%Z)
    = Ok (Mat 3 (elementwise_sum S1 S2)).
Proof.
  apply (get_scores_elementwise_sum 2 1
           [[1; 2]; [3; 4]]%Z [[1; 0]; [0; 1]; [1; 1]]%Z
           [[5]; [7]]%Z [[1]; [2]; [3]]%Z); reflexivity.
Defined.

(** ** The cosine strategy *)

(** On two batches with as many rows, [cosine_scores] pairs row [i] of the
    queries with row [i] of the passages: the result is a vector. *)
Lemma cosine_scores_rowwise (D : nat) (qs cs : list (list R)) :
  length qs = length cs ->
  wf_tensor (Mat D qs) = true -> wf_tensor (Mat D cs) = true ->
  cosine_scores (Mat D qs) (Mat D cs) = Ok (Vec (zip_with cosine_row qs cs)).
Proof.
  intros Hlen Hq%wf_tensor_Mat Hc%wf_tensor_Mat.
  unfold cosine_scores, cosine_similarity_dim1, broadcast, bdim. simpl.
  rewrite Hlen, !Nat.eqb_refl. simpl.
  rewrite !expand_rows_id by auto. reflexivity.
Qed.

(** Batches whose numbers of rows differ, none being one, are rejected. *)
Lemma cosine_scores_mismatch (D : nat) (qs cs : list (list R)) :
  length qs <> length cs -> length qs <> 1 -> length cs <> 1 ->
  exists e, cosine_scores (Mat D qs) (Mat D cs) = Raise e.
Proof.
  intros Hne Hq Hc.
  unfold cosine_scores, cosine_similarity_dim1, broadcast, bdim. simpl.
  destruct (Nat.eqb_spec (length qs) (length cs)); [contradiction|].
  destruct (Nat.eqb_spec (length qs) 1); [contradiction|].
  destruct (Nat.eqb_spec (length cs) 1); [contradiction|].
  simpl. eauto.
Qed.

(** C8. Two queries and three passages of width two: the dot-product
    strategy yields a 2 x 3 score matrix, whereas [cosine_scores] raises;
    and on two queries and two passages [cosine_scores] yields a vector of
    two similarities, not a 2 x 2 matrix. *)
Theorem cosine_scores_not_a_score_matrix :
  let q := Mat 2 [[1; 0]; [0; 1]]%R in
  let ctx3 := Mat 2 [[1; 0]; [0; 1]; [1; 1]]%R in
  let ctx2 := Mat 2 [[1; 0]; [1; 1]]%R in
  (exists S, dot_product_scores q ctx3 = Ok S /\ size S = [2; 3]) /\
  (exists e, cosine_scores q ctx3 = Raise e) /\
  (exists S, dot_product_scores q ctx2 = Ok S /\ size S = [2; 2]) /\
  (exists S, cosine_scores q ctx2 = Ok S /\ size S = [2]).
Proof.
  cbv zeta. repeat split.
  - eexists. split; [reflexivity | reflexivity].
  - apply cosine_scores_mismatch; simpl; lia.
  - eexists. split; [reflexivity | reflexivity].
  - eexists. split; [apply cosine_scores_rowwise; reflexivity | reflexivity].
Qed.

(** ** The negative log-likelihood loss *)

Lemma length_concat_uniform {X} (w : nat) (rows : list (list X)) :
  Forall (fun r => length r = w) rows -> length (concat rows) = length rows * w.
Proof.
  induction 1 as [|r rows Hr _ IH]; simpl; [reflexivity|].
  rewrite length_app. lia.
Qed.

(** Cutting the flattened entries of a matrix back into rows. *)
Lemma chunks_concat {X} (w : nat) (rows : list (list X)) :
  Forall (fun r => length r = w) rows ->
  chunks w (length rows) (concat rows) = rows.
Proof.
  induction 1 as [|r rows Hr _ IH]; simpl; [reflexivity|].
  rewrite take_app_length', drop_app_length' by auto. now rewrite IH.
Qed.

(** Viewing an [n x w] matrix as [n] rows changes nothing. *)
Lemma view_rows_id {X} (w : nat) (rows : list (list X)) :
  rows <> [] -> Forall (fun r => length r = w) rows ->
  view_rows (length rows) (Mat w rows) = Ok (Mat w rows).
Proof.
  intros Hne Hwf. unfold view_rows. simpl.
  assert (length rows <> 0) as Hn by (destruct rows; simpl; congruence).
  destruct (Nat.eqb_spec (length rows) 0); [contradiction|].
  rewrite (length_concat_uniform w) by assumption.
  rewrite (Nat.mul_comm (length rows)), Nat.Div0.mod_mul, Nat.div_mul by assumption.
  simpl. now rewrite chunks_concat.
Qed.

(** Subtracting one constant from every entry does not move the first maximum. *)
Lemma argmax_from_shift (c : R) (l : list R) (bi i : nat) (b : R) :
  argmax_from bi (b - c) i (map (fun x => (x - c)%R) l) = argmax_from bi b i l.
Proof.
  revert bi i b. induction l as [|x l IH]; intros bi i b; simpl; [reflexivity|].
  destruct (Rlt_dec (b - c) (x - c)), (Rlt_dec b x); try lra; apply IH.
Qed.

Lemma argmax_log_softmax_row (r : list R) : argmax (log_softmax_row r) = argmax r.
Proof.
  unfold log_softmax_row. destruct r as [|x r]; [reflexivity|].
  cbn [map argmax]. generalize (ln (sum_list (map exp (x :: r)))). intros c.
  apply argmax_from_shift.
Qed.

Lemma lookup_log_softmax_row (r : list R) (t : nat) :
  t < length r -> log_softmax_row r !! t = Some (log_softmax_at r t).
Proof.
  intros Ht. unfold log_softmax_row, log_softmax_at.
  rewrite list_lookup_fmap.
  destruct (lookup_lt_is_Some_2 r t Ht) as [x Hx]. rewrite Hx. simpl.
  now rewrite (nth_lookup_Some _ _ _ _ Hx).
Qed.

Section NllFacts.
Variable cs : list (list R).

Let scores_row (q : list R) : list R := map (dot q) cs.

Lemma gather_targets_scores (qs : list (list R)) (p : list nat) :
  length p = length qs -> Forall (fun t => t < length cs) p ->
  gather_targets (map log_softmax_row (map scores_row qs)) p
  = Ok (zip_with (fun q t => log_softmax_at (scores_row q) t) qs p).
Proof.
  revert p. induction qs as [|q qs IH]; intros [|t p] Hlen Hp; simpl in *; try lia.
  - reflexivity.
  - inversion Hp as [|? ? Ht Hp']; subst.
    rewrite lookup_log_softmax_row by (unfold scores_row; now rewrite length_map).
    rewrite IH by (auto; lia). reflexivity.
Qed.

Lemma sum_opp_zip_with (f : list R -> nat -> R) (qs : list (list R)) (p : list nat) :
  sum_list (map Ropp (zip_with f qs p))
  = sum_list (zip_with (fun q t => (- f q t)%R) qs p).
Proof.
  revert p. induction qs as [|q qs IH]; intros [|t p]; simpl; try reflexivity.
  now rewrite IH.
Qed.

Lemma count_equal_argmax (qs : list (list R)) (p : list nat) :
  length p = length qs ->
  count_equal (map argmax (map log_softmax_row (map scores_row qs))) p
  = Ok (length (List.filter (fun qt => argmax (scores_row (fst qt)) =? snd qt) (zip qs p))).
Proof.
  intros Hlen. unfold count_equal, bdim.
  rewrite !length_map, Hlen, Nat.eqb_refl.
  rewrite !expand_id by (rewrite ?length_map; auto).
  f_equal. clear Hlen. revert p.
  induction qs as [|q qs IH]; intros [|t p]; simpl; try reflexivity.
  rewrite argmax_log_softmax_row.
  destruct (argmax (scores_row q) =? t); simpl; now rewrite IH.
Qed.

End NllFacts.

(** With any scale argument, [calc] succeeds on a well-shaped batch. *)
Lemma nll_calc_scaled
    (D : nat) (qs cs : list (list R)) (q_ent ctx_ent : Tensor R)
    (p : list nat) (hard : option (list (list nat))) (ls : option R) :
  qs <> [] ->
  wf_tensor (Mat D cs) = true ->
  length p = length qs ->
  Forall (fun t => t < length cs) p ->
  BiEncoderNllLoss.calc (Mat D qs) (Mat D cs) q_ent ctx_ent p hard ls
  = Ok (apply_loss_scale ls (mean_nll qs cs p), correct_count qs cs p).
Proof.
  intros Hne Hwf Hlen Hp.
  unfold BiEncoderNllLoss.calc, BiEncoderNllLoss.get_scores,
    BiEncoderNllLoss.get_similarity_function.
  rewrite dot_product_scores_entries by assumption. simpl.
  unfold calc_from_scores. cbn [rank size length Nat.ltb Nat.leb nth].
  rewrite <- (length_map (fun q => map (dot q) cs) qs) at 1.
  rewrite view_rows_id.
  2: { destruct qs; simpl; congruence. }
  2: { apply List.Forall_forall. intros r Hr.
       apply in_map_iff in Hr as (q & <- & _). now rewrite length_map. }
  simpl. rewrite !length_map, Hlen, Nat.eqb_refl.
  rewrite gather_targets_scores by assumption. simpl.
  assert (length cs <> 0) as Hm.
  { destruct qs as [|q qs]; [congruence|]. destruct p as [|t p]; [discriminate|].
    inversion Hp; subst. lia. }
  destruct (Nat.eqb_spec (length cs) 0); [contradiction|]. simpl.
  rewrite <- Hlen. rewrite count_equal_argmax by assumption. simpl.
  rewrite sum_opp_zip_with, Hlen. reflexivity.
Qed.



Lemma example_score_row (a b c : R) :
  map (dot [a; b; c]) [[1; 0; 0]; [0; 1; 0]; [0; 0; 1]]%R = [a; b; c].
Proof.
  cbn [map]. unfold dot, sum_list. cbn [zip_with fold_right s_mul s_add s_zero R_scalar].
  repeat f_equal; ring.
Qed.

(** On the scores [[2,1,0],[0,1,2]] with positives [0, 2] both queries are
    counted as correct, and the loss is the mean of the two negative
    log-softmax entries. *)
Example nll_calc_on_known_scores :
  BiEncoderNllLoss.calc
    (Mat 3 [[2; 1; 0]; [0; 1; 2]]%R) (Mat 3 [[1; 0; 0]; [0; 1; 0]; [0; 0; 1]]%R)
    (Vec []) (Vec []) [0; 2] None None
  = Ok (((- (2 - ln (exp 2 + exp 1 + exp 0)) + - (2 - ln (exp 0 + exp 1 + exp 2))) / 2)%R,
        2).
Proof.
  rewrite nll_calc_scaled; [| discriminate | reflexivity | reflexivity | repeat constructor].
  unfold mean_nll, correct_count, apply_loss_scale.
  cbn [zip_with zip List.filter fst snd length].
  rewrite !example_score_row. f_equal. f_equal.
  - unfold log_softmax_at, sum_list.
    cbn [nth map fold_right s_add s_zero R_scalar INR].
    replace (exp 2 + (exp 1 + (exp 0 + 0)))%R with (exp 2 + exp 1 + exp 0)%R by ring.
    replace (exp 0 + (exp 1 + (exp 2 + 0)))%R with (exp 0 + exp 1 + exp 2)%R by ring.
    field.
  - unfold argmax, argmax_from.
    repeat (destruct (Rlt_dec _ _); try lra); reflexivity.
Qed.

(** ** Reasoning about computations *)

Lemma bind_run {A B} (m : M A) (f : A -> M B) (w : World) :
  (m ≫= f) w = match m w with
               | (Ok a, w') => f a w'
               | (Raise e, w') => (Raise e, w')
               end.
Proof. reflexivity. Qed.

Lemma bind_Ok_inv {A B} (m : M A) (f : A -> M B) (w w' : World) (b : B) :
  (m ≫= f) w = (Ok b, w') ->
  exists a w1, m w = (Ok a, w1) /\ f a w1 = (Ok b, w').
Proof.
  rewrite bind_run. destruct (m w) as [[a|e] w1]; [eauto | discriminate].
Qed.

Lemma bind_Ok_intro {A B} (m : M A) (f : A -> M B) (w w1 : World) (a : A) :
  m w = (Ok a, w1) -> (m ≫= f) w = f a w1.
Proof. intros Hm. now rewrite bind_run, Hm. Qed.

Section Always.
Context (R : World -> World -> Prop) `{!PreOrder R}.

Lemma always_ret {A} (a : A) : always R (ret a).
Proof. intros w. simpl. reflexivity. Qed.

Lemma always_raise {A} (e : Error) : always R (@raise A e).
Proof. intros w. simpl. reflexivity. Qed.

Lemma always_lift {A} (r : Result A) : always R (lift r).
Proof. intros w. simpl. reflexivity. Qed.

Lemma always_read_list (l : loc) : always R (read_list l).
Proof. intros w. simpl. reflexivity. Qed.

Lemma always_bind {A B} (m : M A) (f : A -> M B) :
  always R m -> (forall a, always R (f a)) -> always R (m ≫= f).
Proof.
  intros Hm Hf w. rewrite bind_run. specialize (Hm w).
  destruct (m w) as [[a|e] w1]; simpl in *; [|assumption].
  etransitivity; [exact Hm | apply Hf].
Qed.

End Always.

(** ** Shuffling permutes *)

Lemma insert_cons_Permutation {A} (t : list A) (j : nat) (b h : A) :
  t !! j = Some b -> b :: <[j := h]> t ≡ₚ h :: t.
Proof.
  revert j. induction t as [|x t IH]; intros [|j] Hj; simpl in *; try discriminate.
  - injection Hj as ->. apply perm_swap.
  - rewrite perm_swap, (IH j Hj). apply perm_swap.
Qed.

Lemma swap_insert_Permutation {A} (x : list A) (i j : nat) (xi xj : A) :
  x !! i = Some xi -> x !! j = Some xj -> <[j := xi]> (<[i := xj]> x) ≡ₚ x.
Proof.
  revert i j. induction x as [|h t IH]; intros [|i] [|j] Hi Hj; simpl in *;
    try discriminate.
  - injection Hi as ->. injection Hj as ->. reflexivity.
  - injection Hi as ->. now apply insert_cons_Permutation.
  - injection Hj as ->. now apply insert_cons_Permutation.
  - now rewrite (IH i j).
Qed.

Lemma swap_Permutation {A} (x : list A) (i j : nat) : swap x i j ≡ₚ x.
Proof.
  unfold swap. destruct (x !! i) as [xi|] eqn:Hi; [|reflexivity].
  destruct (x !! j) as [xj|] eqn:Hj; [|reflexivity].
  now apply swap_insert_Permutation.
Qed.

Lemma shuffle_from_Permutation {A} (i : nat) (x : list A) (g : Rng) :
  fst (shuffle_from i x g) ≡ₚ x.
Proof.
  revert x g. induction i as [|i IH]; intros x g; simpl; [reflexivity|].
  destruct (randbelow (S (S i)) g) as [j g'].
  rewrite IH. apply swap_Permutation.
Qed.

Lemma shuffle_list_Permutation {A} (x : list A) (g : Rng) :
  fst (shuffle_list x g) ≡ₚ x.
Proof. apply shuffle_from_Permutation. Qed.

(** ** The effect of the assembler on the pools *)

#[local] Instance pools_permuted_preorder (pools : loc -> bool) :
  PreOrder (pools_permuted pools).
Proof.
  split.
  - intros w l. split; reflexivity.
  - intros w1 w2 w3 H12 H23 l.
    destruct (H12 l) as [P12 F12], (H23 l) as [P23 F23]. split.
    + now rewrite P23.
    + intros Hl. now rewrite F23, F12.
Qed.

Lemma pools_permuted_mono (pools pools' : loc -> bool) (w w' : World) :
  (forall l, pools l = true -> pools' l = true) ->
  pools_permuted pools w w' -> pools_permuted pools' w w'.
Proof.
  intros Hsub Hp l. destruct (Hp l) as [HP HF]. split; [assumption|].
  intros Hl. apply HF. destruct (pools l) eqn:E; [|reflexivity].
  apply Hsub in E. congruence.
Qed.

Lemma heap_unchanged_pools_permuted (pools : loc -> bool) (w w' : World) :
  heap w' = heap w -> pools_permuted pools w w'.
Proof. intros E l. rewrite E. split; reflexivity. Qed.

Lemma random_shuffle_pools (pools : loc -> bool) (l : loc) :
  pools l = true -> always (pools_permuted pools) (random_shuffle l).
Proof.
  intros Hl w l'. unfold random_shuffle.
  pose proof (shuffle_list_Permutation (heap w !!! l) (random_state w)) as HP.
  destruct (shuffle_list (heap w !!! l) (random_state w)) as [x' g']. simpl in *.
  destruct (decide (l = l')) as [<-|Hne].
  - rewrite lookup_total_insert_eq. split; [assumption | congruence].
  - rewrite lookup_total_insert_ne by assumption. split; reflexivity.
Qed.

Lemma np_random_choice_heap (n : nat) (w : World) :
  heap (snd (np_random_choice n w)) = heap w.
Proof.
  unfold np_random_choice. destruct (n =? 0); [reflexivity|].
  now destruct (randbelow n (np_random_state w)).
Qed.

Lemma rnd_random_heap (w : World) : heap (snd (rnd_random w)) = heap w.
Proof. unfold rnd_random. now destruct (random_float (rnd w)). Qed.

Section AssemblerEffects.
Variable tensorizer : Tensorizer.
Variable insert_title : bool.
Variables num_hard_negatives num_other_negatives : nat.
Variables shuffle shuffle_positives hard_neg_fallback : bool.
Variable query_token : option string.
Variable pools : loc -> bool.

#[local] Abbreviation R := (pools_permuted pools).

Lemma select_span_with_token_pools (text token_str : string) :
  always R (_select_span_with_token text tensorizer token_str).
Proof.
  unfold _select_span_with_token.
  destruct (negb _); [|apply always_ret; apply _].
  destruct (first_index _ _); [|apply always_raise; apply _].
  apply always_bind; [apply _ | |].
  - intros w. apply heap_unchanged_pools_permuted, rnd_random_heap.
  - intros r. destruct (slice_from _ _); [apply always_raise; apply _|].
    apply always_bind; [apply _ | apply always_lift; apply _ |].
    intros t. destruct (contains _ t); [apply always_ret | apply always_raise]; apply _.
Qed.

Lemma encode_query_pools (question : Query.t) (acc : Acc) :
  always R (encode_query tensorizer query_token question acc).
Proof.
  unfold encode_query. destruct query_token as [qt|]; [|apply always_ret; apply _].
  destruct (truthy qt); [|apply always_ret; apply _].
  destruct (String.eqb qt _); [|apply always_ret; apply _].
  apply always_bind; [apply _ | apply select_span_with_token_pools |].
  intros t. apply always_ret; apply _.
Qed.

Lemma select_passages_pools (sample : BiEncoderSample) :
  pools (negative_passages sample) = true ->
  pools (hard_negative_passages sample) = true ->
  always R (select_passages num_hard_negatives num_other_negatives
              shuffle shuffle_positives hard_neg_fallback sample).
Proof.
  intros Hneg Hhard. unfold select_passages.
  apply always_bind; [apply _ | |].
  { destruct (shuffle && shuffle_positives).
    - apply always_bind; [apply _ | apply always_read_list; apply _ |].
      intros ps. apply always_bind; [apply _ | | intros i; apply always_lift; apply _].
      intros w. apply heap_unchanged_pools_permuted, np_random_choice_heap.
    - apply always_bind; [apply _ | apply always_read_list; apply _ |].
      intros ps. apply always_lift; apply _. }
  intros p. apply always_bind; [apply _ | |].
  { destruct shuffle; [|apply always_ret; apply _].
    apply always_bind; [apply _ | now apply random_shuffle_pools |].
    intros _. now apply random_shuffle_pools. }
  intros _. apply always_bind; [apply _ | apply always_read_list; apply _ |].
  intros negs. apply always_bind; [apply _ | apply always_read_list; apply _ |].
  intros hards. apply always_ret; apply _.
Qed.

Lemma process_sample_pools (sample : BiEncoderSample) (acc : Acc) :
  pools (negative_passages sample) = true ->
  pools (hard_negative_passages sample) = true ->
  always R (process_sample tensorizer insert_title num_hard_negatives
              num_other_negatives shuffle shuffle_positives hard_neg_fallback
              query_token sample acc).
Proof.
  intros Hneg Hhard. unfold process_sample.
  apply always_bind; [apply _ | now apply select_passages_pools |].
  intros [[p negs] hards]. apply encode_query_pools.
Qed.


End AssemblerEffects.



(** After such a call the caller finds the pool of other negatives reordered. *)
Example shuffle_reorders_the_callers_pool :
  heap (snd (create_biencoder_input Toy.tensorizer true 1 2 true false true None
               [Toy.sample] (Toy.world 0))) !!! 2%positive
  = [Toy.passage "n22"; Toy.passage "n1"; Toy.passage "n333"].
Proof. vm_compute. reflexivity. Qed.

(** ** Span re-windowing *)

Lemma contains_true_lookup (id : Z) (t : list Z) (i : nat) :
  t !! i = Some id -> contains id t = true.
Proof.
  intros Hi. unfold contains. apply existsb_exists. exists id. split.
  - apply list_elem_of_In. eapply list_elem_of_lookup_2. exact Hi.
  - apply Z.eqb_refl.
Qed.

Lemma first_index_lookup (id : Z) (t : list Z) (n : nat) :
  first_index id t = Some n -> t !! n = Some id.
Proof.
  revert n. induction t as [|x t IH]; intros n Hn; simpl in *; [discriminate|].
  destruct (Z.eqb_spec x id) as [->|Hne].
  - injection Hn as <-. reflexivity.
  - destruct (first_index id t) as [m|]; [|discriminate].
    injection Hn as <-. simpl. now apply IH.
Qed.

Lemma first_index_None (id : Z) (t : list Z) :
  contains id t = false -> first_index id t = None.
Proof.
  unfold contains. induction t as [|x t IH]; simpl; [reflexivity|].
  rewrite orb_false_iff. intros [Hx Ht].
  rewrite Z.eqb_sym, Hx. now rewrite IH.
Qed.

Lemma length_pad_to_len (seq : list Z) (pad_id : Z) (max_len : nat) :
  length (_pad_to_len seq pad_id max_len) = max_len.
Proof.
  unfold _pad_to_len. destruct (Nat.ltb_spec max_len (length seq)).
  - rewrite length_take. lia.
  - rewrite length_app, length_replicate. lia.
Qed.

Lemma lookup_pad_to_len (seq : list Z) (pad_id : Z) (max_len i : nat) (x : Z) :
  i < max_len -> seq !! i = Some x -> _pad_to_len seq pad_id max_len !! i = Some x.
Proof.
  intros Hi Hx. unfold _pad_to_len. destruct (max_len <? length seq).
  - now rewrite lookup_take_lt.
  - rewrite lookup_app_l; [assumption | now apply lookup_lt_Some in Hx].
Qed.

Lemma random_float_range (g : Rng) :
  exists n : Z, fst (random_float g) = Qmake n (2 ^ 53) /\ (0 <= n < Z.pos (2 ^ 53))%Z.
Proof.
  unfold random_float, next_raw. cbn [fst].
  exists (Z.of_N (tape g (cursor g) mod 2 ^ 53)). split; [reflexivity|].
  assert (tape g (cursor g) mod 2 ^ 53 < 2 ^ 53)%N as Hlt by now apply N.mod_lt.
  assert (Z.pos (2 ^ 53) = Z.of_N (2 ^ 53)%N) as -> by reflexivity.
  split; [apply N2Z.is_nonneg | now apply N2Z.inj_lt].
Qed.

Lemma quot_quarter_bound (X h d : Z) :
  (0 < d)%Z -> (0 <= h)%Z -> (- d <= X <= d)%Z ->
  (- h <= 4 * ((X * h) `quot` (4 * d)) <= h)%Z.
Proof.
  intros Hd Hh HX.
  pose proof (Z.quot_rem' (X * h) (4 * d)) as Hqr.
  assert (- (d * h) <= X * h <= d * h)%Z as Hprod by nia.
  destruct (Z.le_gt_cases 0 (X * h)) as [Hpos|Hneg].
  - pose proof (Z.rem_bound_pos (X * h) (4 * d) Hpos ltac:(lia)) as Hr.
    revert Hqr Hr.
    generalize ((X * h) `quot` (4 * d))%Z ((X * h) `rem` (4 * d))%Z.
    intros q r Hqr Hr.
    assert (d * (4 * q) <= d * h)%Z as Hle by lia.
    assert (0 < d * (4 * (q + 1)))%Z as Hq by lia.
    apply Z.mul_le_mono_pos_l in Hle; [|lia].
    apply Z.mul_pos_cancel_l in Hq; lia.
  - pose proof (Z.rem_bound_pos_neg (X * h) (4 * d) ltac:(lia) ltac:(lia)) as Hr.
    revert Hqr Hr.
    generalize ((X * h) `quot` (4 * d))%Z ((X * h) `rem` (4 * d))%Z.
    intros q r Hqr Hr.
    assert (0 < d * (4 * (1 - q)))%Z as Hq by lia.
    assert (d * (- h) <= d * (4 * q))%Z as Hle by lia.
    apply Z.mul_pos_cancel_l in Hq; [|lia].
    apply Z.mul_le_mono_pos_l in Hle; lia.
Qed.

(** The jitter moves the left shift by at most a quarter of it. *)
Lemma jittered_left_shift_bounds (L : nat) (n : Z) (d : positive) :
  (0 <= n < Z.pos d)%Z ->
  let h := (Z.of_nat L `quot` 2)%Z in
  let s := jittered_left_shift L (Qmake n d) in
  (- h <= 4 * (s - h) <= h)%Z.
Proof.
  intros Hn h s. subst s.
  unfold jittered_left_shift, int_of_Q.
  unfold Qdiv, Qmult, Qminus, Qplus, Qopp, Qinv, inject_Z. cbn [Qnum Qden].
  rewrite !Z.mul_1_r, !Pos.mul_1_r, Pos.mul_1_l. fold h.
  assert (0 <= h)%Z as Hh by (subst h; apply Z.quot_pos; lia).
  replace (Z.pos (d * 2 * 2)) with (4 * Z.pos d)%Z by lia.
  pose proof (quot_quarter_bound (n * 2 + - (1) * Z.pos d) h (Z.pos d)
                ltac:(lia) Hh ltac:(lia)) as Hb.
  lia.
Qed.

Section SpanFacts.
Variable tensorizer : Tensorizer.
Variables text token_str : string.

#[local] Abbreviation id := (get_token_id tensorizer token_str).
#[local] Abbreviation truncated := (text_to_token_tensor tensorizer text true).
#[local] Abbreviation full := (text_to_token_tensor tensorizer text false).

(** What [_select_span_with_token] does once the marker is found at
    [start_pos], when the left shift [s] it draws keeps the slice inside the
    tensor and the marker inside the window. *)
Lemma select_span_window (w : World) (start_pos : nat) :
  let s := jittered_left_shift (max_length tensorizer) (fst (random_float (rnd w))) in
  contains id truncated = false ->
  first_index id full = Some start_pos ->
  (0 <= s <= Z.of_nat start_pos)%Z ->
  (s + 3 <= Z.of_nat (max_length tensorizer))%Z ->
  exists t,
    _select_span_with_token text tensorizer token_str w = (Ok t, snd (rnd_random w))
    /\ contains id t = true
    /\ head t = Some (cls_token_id tensorizer)
    /\ last t = Some (sep_token_id tensorizer)
    /\ length t = max_length tensorizer.
Proof.
  intros s Htrunc Hfirst [Hs0 Hshift] HsL.
  set (L := max_length tensorizer) in *.
  unfold _select_span_with_token. rewrite Htrunc, Hfirst. cbn [negb].
  rewrite bind_run. unfold rnd_random at 1.
  destruct (random_float (rnd w)) as [r g'] eqn:Hrf. cbn [fst] in s.
  fold L. fold s.
  pose proof (first_index_lookup _ _ _ Hfirst) as Hmark.
  unfold slice_from. destruct (Z.ltb_spec (Z.of_nat start_pos - s) 0); [lia|].
  set (k := Z.to_nat (Z.of_nat start_pos - s)).
  assert (k + Z.to_nat s = start_pos) as Hk by (subst k; lia).
  assert (drop k full !! Z.to_nat s = Some id) as Hslice.
  { rewrite lookup_drop, Hk. exact Hmark. }
  destruct (drop k full) as [|first rest] eqn:Hdrop; [discriminate|].
  set (t1 := if negb (first =? cls_token_id tensorizer)%Z
             then cls_token_id tensorizer :: first :: rest else first :: rest).
  assert (head t1 = Some (cls_token_id tensorizer)) as Hhead1.
  { subst t1. destruct (Z.eqb_spec first (cls_token_id tensorizer)) as [->|]; reflexivity. }
  assert (exists m, m <= Z.to_nat s + 1 /\ t1 !! m = Some id) as (m & Hm & Hm1).
  { subst t1. destruct (negb _).
    - exists (S (Z.to_nat s)). split; [lia | exact Hslice].
    - exists (Z.to_nat s). split; [lia | exact Hslice]. }
  set (t2 := _pad_to_len t1 (get_pad_id tensorizer) L).
  assert (length t2 = L) as Hlen2 by apply length_pad_to_len.
  rewrite bind_run. unfold lift, set_last.
  destruct t2 as [|x2 t2'] eqn:Ht2; [simpl in Hlen2; lia|]. rewrite <- Ht2 in *.
  assert (<[length t2 - 1 := sep_token_id tensorizer]> t2 !! m = Some id) as Hm3.
  { rewrite list_lookup_insert_ne by lia.
    apply lookup_pad_to_len; [lia | assumption]. }
  rewrite (contains_true_lookup _ _ _ Hm3).
  eexists. split; [unfold rnd_random; rewrite Hrf; reflexivity|].
  split; [exact (contains_true_lookup _ _ _ Hm3)|].
  split; [|split].
  - rewrite head_lookup, list_lookup_insert_ne by lia.
    apply lookup_pad_to_len; [lia | now rewrite <- head_lookup].
  - rewrite last_lookup, length_insert.
    replace (pred (length t2)) with (length t2 - 1) by lia.
    apply list_lookup_insert_eq. lia.
  - now rewrite length_insert.
Qed.

End SpanFacts.


(** With [max_length = 4] the marker never fits in the window. *)
Example select_span_fails_on_short_max_length :
  fst (_select_span_with_token "q" Toy.tensorizer_short "[START_ENT]" (Toy.world 0))
  = Raise (AssertionError "query_tensor=")
  /\ fst (_select_span_with_token "q" Toy.tensorizer_short "[START_ENT]"
            (Toy.world (2 ^ 53 - 1)))
     = Raise (AssertionError "query_tensor=").
Proof. vm_compute. split; reflexivity. Qed.



(** The slice never wraps around when the marker lies at or beyond the last
    position of the length-limited window. *)
Corollary select_span_rewindows_beyond_window
    (tensorizer : Tensorizer) (text token_str : string) (w : World) (start_pos : nat) :
  let id := get_token_id tensorizer token_str in
  contains id (text_to_token_tensor tensorizer text true) = false ->
  first_index id (text_to_token_tensor tensorizer text false) = Some start_pos ->
  5 <= max_length tensorizer ->
  max_length tensorizer - 1 <= start_pos ->
  exists t,
    _select_span_with_token text tensorizer token_str w = (Ok t, snd (rnd_random w))
    /\ contains id t = true
    /\ head t = Some (cls_token_id tensorizer)
    /\ last t = Some (sep_token_id tensorizer)
    /\ length t = max_length tensorizer.
Proof.
  intros id Htrunc Hfirst HL Hpos.
  destruct (random_float_range (rnd w)) as (n & Hr & Hn).
  pose proof (jittered_left_shift_bounds (max_length tensorizer) n _ Hn) as Hb.
  cbv zeta in Hb. rewrite <- Hr in Hb.
  pose proof (Z.quot_rem' (Z.of_nat (max_length tensorizer)) 2) as Hhalf.
  pose proof (Z.rem_bound_pos (Z.of_nat (max_length tensorizer)) 2) as Hrem.
  assert (0 <= Z.of_nat (max_length tensorizer) `quot` 2)%Z by (apply Z.quot_pos; lia).
  apply select_span_window with (start_pos := start_pos); try assumption; lia.
Qed.

(** C9. In span-selection mode, for a query whose untruncated token tensor
    does not contain the marker (nor, then, its length-limited tensor),
    [_select_span_with_token] raises at once, without drawing a random
    number or changing anything, a [RuntimeError] whose message ends with
    the text of the query. *)
Theorem select_span_raises_when_marker_absent
    (tensorizer : Tensorizer) (text token_str : string) (w : World) :
  let id := get_token_id tensorizer token_str in
  contains id (text_to_token_tensor tensorizer text false) = false ->
  contains id (text_to_token_tensor tensorizer text true) = false ->
  _select_span_with_token text tensorizer token_str w
  = (Raise (RuntimeError
              ("[START_ENT] toke not found for Entity Linking sample query=" +:+ text)),
     w).
Proof.
  intros id Hfull Htrunc. unfold _select_span_with_token. fold id.
  rewrite Htrunc. cbn [negb]. now rewrite (first_index_None _ _ Hfull).
Qed.

Lemma select_span_raises_when_marker_absent_witness :
  _select_span_with_token "who is it" Toy.tensorizer_no_marker "[START_ENT]" (Toy.world 0)
  = (Raise (RuntimeError
              "[START_ENT] toke not found for Entity Linking sample query=who is it"),
     Toy.world 0).
Proof.
  apply (select_span_raises_when_marker_absent Toy.tensorizer_no_marker "who is it"
           "[START_ENT]" (Toy.world 0)); reflexivity.
Defined.

(** ** What one turn of the loop records *)

Ltac inv_bind H :=
  let a := fresh "a" in
  let w := fresh "w" in
  let H1 := fresh H "_l" in
  apply bind_Ok_inv in H as (a & w & H1 & H).

Lemma randbelow_lt (n : nat) (g : Rng) : n <> 0 -> fst (randbelow n g) < n.
Proof.
  intros Hn. unfold randbelow, next_raw. cbn [fst].
  assert (tape g (cursor g) mod N.of_nat n < N.of_nat n)%N by (apply N.mod_lt; lia).
  lia.
Qed.

Lemma shuffle_list_length {A} (x : list A) (g : Rng) :
  length (fst (shuffle_list x g)) = length x.
Proof. apply Permutation_length, shuffle_list_Permutation. Qed.

Section TurnFacts.
Variable tensorizer : Tensorizer.
Variable insert_title : bool.
Variables num_hard_negatives num_other_negatives : nat.
Variables shuffle shuffle_positives hard_neg_fallback : bool.
Variable query_token : option string.

#[local] Abbreviation select :=
  (select_passages num_hard_negatives num_other_negatives shuffle shuffle_positives
     hard_neg_fallback).
#[local] Abbreviation turn :=
  (process_sample tensorizer insert_title num_hard_negatives num_other_negatives
     shuffle shuffle_positives hard_neg_fallback query_token).
#[local] Abbreviation turns :=
  (process_samples tensorizer insert_title num_hard_negatives num_other_negatives
     shuffle shuffle_positives hard_neg_fallback query_token).
#[local] Abbreviation count :=
  (sample_ctxs_count num_hard_negatives num_other_negatives hard_neg_fallback).

(** The slices are cut from the pools as the selection leaves them. *)
Lemma select_passages_Ok (s : BiEncoderSample) (w w1 : World)
    (p : Passage.t) (negs hards : list Passage.t) :
  select s w = (Ok (p, negs, hards), w1) ->
  let neg_pool := heap w1 !!! negative_passages s in
  let hard_pool := heap w1 !!! hard_negative_passages s in
  negs = take num_other_negatives neg_pool
  /\ hards = take num_hard_negatives
               (if hard_neg_fallback && (length hard_pool =? 0)
                then take num_hard_negatives neg_pool else hard_pool)
  /\ p ∈ heap w !!! positive_passages s.
Proof.
  intros Hsel neg_pool hard_pool. unfold select_passages in Hsel.
  inv_bind Hsel. inv_bind Hsel. inv_bind Hsel. inv_bind Hsel.
  unfold read_list in Hsel_l1, Hsel_l2. unfold ret in Hsel. simplify_eq.
  split; [reflexivity|]. split; [reflexivity|].
  destruct (shuffle && shuffle_positives).
  - inv_bind Hsel_l. unfold read_list in Hsel_l_l. simplify_eq.
    inv_bind Hsel_l. unfold np_random_choice in Hsel_l_l.
    destruct (_ =? 0); [discriminate|].
    destruct (randbelow _ _) as [i g']. simplify_eq.
    unfold lift, index in Hsel_l.
    destruct (_ !! _) as [x|] eqn:Hx; [|discriminate].
    simplify_eq. eapply list_elem_of_lookup_2; exact Hx.
  - inv_bind Hsel_l. unfold read_list in Hsel_l_l. simplify_eq.
    unfold lift, index in Hsel_l.
    destruct (_ !! _) as [x|] eqn:Hx; [|discriminate].
    simplify_eq. eapply list_elem_of_lookup_2; exact Hx.
Qed.

(** The selection succeeds as soon as the sample has a positive passage. *)
Lemma select_passages_returns (s : BiEncoderSample) (w : World) :
  heap w !!! positive_passages s <> [] ->
  exists p negs hards w1, select s w = (Ok (p, negs, hards), w1).
Proof.
  intros Hpos. unfold select_passages.
  assert (exists p w0, (if shuffle && shuffle_positives
                        then positive_ctxs ← read_list (positive_passages s);
                             i ← np_random_choice (length positive_ctxs);
                             lift (index positive_ctxs i)
                        else positive_ctxs ← read_list (positive_passages s);
                             lift (index positive_ctxs 0)) w = (Ok p, w0))
    as (p & w0 & Hp).
  { destruct (shuffle && shuffle_positives).
    - rewrite bind_run. cbn [read_list]. rewrite bind_run. unfold np_random_choice.
      destruct (Nat.eqb_spec (length (heap w !!! positive_passages s)) 0) as [E|E].
      { destruct (heap w !!! positive_passages s); [congruence | discriminate]. }
      pose proof (randbelow_lt _ (np_random_state w) E) as Hlt.
      destruct (randbelow _ _) as [i g']. cbn [fst] in Hlt.
      unfold lift, index.
      destruct (lookup_lt_is_Some_2 _ _ Hlt) as [x ->]. eauto.
    - rewrite bind_run. cbn [read_list]. unfold lift, index.
      destruct (heap w !!! positive_passages s) as [|x ps]; [congruence|].
      simpl. eauto. }
  rewrite (bind_Ok_intro _ _ _ _ _ Hp).
  assert (exists w2, (if shuffle
                      then _ ← random_shuffle (negative_passages s);
                           random_shuffle (hard_negative_passages s)
                      else ret tt) w0 = (Ok tt, w2)) as (w2 & Hs).
  { destruct shuffle.
    - rewrite bind_run. unfold random_shuffle at 1.
      destruct (shuffle_list _ _) as [x' g']. unfold random_shuffle.
      destruct (shuffle_list _ _) as [x'' g'']. eauto.
    - eexists. reflexivity. }
  rewrite (bind_Ok_intro _ _ _ _ _ Hs).
  rewrite bind_run. cbn [read_list]. rewrite bind_run. cbn [read_list].
  unfold ret. eauto.
Qed.

(** The query is encoded without touching what was recorded for the passages. *)
Lemma encode_query_Ok (question : Query.t) (acc acc' : Acc) (w w' : World) :
  encode_query tensorizer query_token question acc w = (Ok acc', w') ->
  ctx_tensors acc' = ctx_tensors acc
  /\ positive_ctx_indices acc' = positive_ctx_indices acc
  /\ hard_neg_ctx_indices acc' = hard_neg_ctx_indices acc.
Proof.
  unfold encode_query. intros Henc.
  destruct query_token as [qt|].
  2: { destruct (text_to_tensor _ _ _ _ _) as [[? ?] ?].
       injection Henc as <- <-. auto. }
  destruct (truthy qt).
  2: { destruct (text_to_tensor _ _ _ _ _) as [[? ?] ?].
       injection Henc as <- <-. auto. }
  destruct (String.eqb qt _).
  - inv_bind Henc. injection Henc as <- <-. auto.
  - destruct (text_to_tensor _ _ _ _ _) as [[? ?] ?].
    injection Henc as <- <-. auto.
Qed.

(** One turn appends the tensors of [positive] + negatives + hard negatives,
    records the previous length as the index of the positive, and records
    as indices of the hard negatives the positions that follow it. *)
Lemma process_sample_Ok (s : BiEncoderSample) (acc acc' : Acc) (w w' : World) :
  turn s acc w = (Ok acc', w') ->
  exists p negs hards w1,
    select s w = (Ok (p, negs, hards), w1)
    /\ ctx_tensors acc'
       = ctx_tensors acc
         ++ map (fun c => fst (fst (ctx_to_tensor tensorizer insert_title c)))
              ([p] ++ negs ++ hards)
    /\ positive_ctx_indices acc'
       = positive_ctx_indices acc ++ [length (ctx_tensors acc)]
    /\ hard_neg_ctx_indices acc'
       = hard_neg_ctx_indices acc
         ++ [seq (length (ctx_tensors acc) + 1) (length hards)].
Proof.
  intros Hturn. unfold process_sample in Hturn.
  inv_bind Hturn. destruct a as [[p negs] hards].
  apply encode_query_Ok in Hturn as (Hc & Hp & Hh). cbn in Hc, Hp, Hh.
  exists p, negs, hards, w0. split; [assumption|].
  rewrite Hc, Hp, Hh. split; [|split].
  - now rewrite map_map.
  - reflexivity.
  - do 3 f_equal. lia.
Qed.

End TurnFacts.

(** ** The indices recorded over the whole loop *)

Lemma result_bind_Ok_inv {A B} (m : Result A) (f : A -> Result B) (b : B) :
  m ≫= f = Ok b -> exists a, m = Ok a /\ f a = Ok b.
Proof. destruct m as [a|e]; [eauto | discriminate]. Qed.

Lemma cat_rows_Ok (ts : list (list Z)) (t : Tensor Z) :
  cat_rows ts = Ok t -> exists d, t = Mat d ts.
Proof.
  unfold cat_rows. destruct ts as [|t0 ts']; [discriminate|].
  destruct (forallb _ _); [|discriminate]. intros [= <-]. eauto.
Qed.

(** The batch carries the recorded indices and the collected passage rows. *)
Lemma stack_batch_Ok (tensorizer : Tensorizer) (acc : Acc) (batch : BiEncoderBatch) :
  stack_batch tensorizer acc = Ok batch ->
  is_positive batch = positive_ctx_indices acc
  /\ hard_negatives batch = hard_neg_ctx_indices acc
  /\ (exists d, context_ids batch = Mat d (ctx_tensors acc))
  /\ question_entity_tensors acc <> [].
Proof.
  unfold stack_batch. intros Hst.
  apply result_bind_Ok_inv in Hst as (ctxs & Hctxs & Hst).
  apply result_bind_Ok_inv in Hst as (cents & Hcents & Hst).
  apply result_bind_Ok_inv in Hst as (qs & Hqs & Hst).
  apply result_bind_Ok_inv in Hst as (qents & Hqents & Hst).
  apply result_bind_Ok_inv in Hst as ([qpos cpos] & Hpos & Hst).
  injection Hst as <-. cbn.
  split; [reflexivity|]. split; [reflexivity|]. split.
  - now apply cat_rows_Ok.
  - intros E. rewrite E in Hqents. discriminate.
Qed.

Lemma offsets_lookup (base : nat) (counts : list nat) (i : nat) :
  i < length counts -> offsets base counts !! i = Some (base + list_sum (take i counts)).
Proof.
  revert base i. induction counts as [|c counts IH]; intros base [|i] Hi;
    simpl in *; try lia.
  - f_equal. lia.
  - rewrite IH by lia. f_equal. lia.
Qed.

Lemma length_offsets (base : nat) (counts : list nat) :
  length (offsets base counts) = length counts.
Proof. revert base. induction counts; intros; simpl; auto. Qed.

Section LoopFacts.
Variable tensorizer : Tensorizer.
Variable insert_title : bool.
Variables num_hard_negatives num_other_negatives : nat.
Variables shuffle shuffle_positives hard_neg_fallback : bool.
Variable query_token : option string.

#[local] Abbreviation select :=
  (select_passages num_hard_negatives num_other_negatives shuffle shuffle_positives
     hard_neg_fallback).
#[local] Abbreviation turn :=
  (process_sample tensorizer insert_title num_hard_negatives num_other_negatives
     shuffle shuffle_positives hard_neg_fallback query_token).
#[local] Abbreviation turns :=
  (process_samples tensorizer insert_title num_hard_negatives num_other_negatives
     shuffle shuffle_positives hard_neg_fallback query_token).
#[local] Abbreviation count :=
  (sample_ctxs_count num_hard_negatives num_other_negatives hard_neg_fallback).

Lemma sample_ctxs_count_ext (h1 h2 : gmap loc (list Passage.t)) (s : BiEncoderSample) :
  (forall l, h1 !!! l ≡ₚ h2 !!! l) -> count h1 s = count h2 s.
Proof.
  intros Hperm. unfold sample_ctxs_count.
  now rewrite (Permutation_length (Hperm (negative_passages s))),
    (Permutation_length (Hperm (hard_negative_passages s))).
Qed.

(** A sample contributes as many passages as its pools allow. *)
Lemma select_passages_count (s : BiEncoderSample) (w w1 : World)
    (p : Passage.t) (negs hards : list Passage.t) :
  select s w = (Ok (p, negs, hards), w1) ->
  1 + length negs + length hards = count (heap w) s.
Proof.
  intros Hsel.
  pose proof (select_passages_pools num_hard_negatives num_other_negatives shuffle
                shuffle_positives hard_neg_fallback (fun _ => true) s eq_refl eq_refl w)
    as Hpools.
  rewrite Hsel in Hpools. cbn [snd] in Hpools.
  apply select_passages_Ok in Hsel as (-> & -> & _).
  unfold sample_ctxs_count.
  rewrite <- (Permutation_length (proj1 (Hpools (negative_passages s)))).
  rewrite <- (Permutation_length (proj1 (Hpools (hard_negative_passages s)))).
  rewrite !length_take.
  destruct (hard_neg_fallback && _); rewrite ?length_take; lia.
Qed.

Lemma process_samples_Ok (samples : list BiEncoderSample) (acc acc' : Acc) (w w' : World) :
  turns samples acc w = (Ok acc', w') ->
  positive_ctx_indices acc'
  = positive_ctx_indices acc
    ++ offsets (length (ctx_tensors acc)) (map (count (heap w)) samples)
  /\ length (ctx_tensors acc')
     = length (ctx_tensors acc) + list_sum (map (count (heap w)) samples).
Proof.
  revert acc w. induction samples as [|s samples IH]; intros acc w Hturns;
    cbn [process_samples] in Hturns; cbn [map offsets].
  - unfold ret in Hturns. simplify_eq. rewrite app_nil_r. split; [reflexivity | simpl; lia].
  - inv_bind Hturns.
    pose proof (process_sample_pools tensorizer insert_title num_hard_negatives
                  num_other_negatives shuffle shuffle_positives hard_neg_fallback
                  query_token (fun _ => true) s acc eq_refl eq_refl w) as Hpools.
    rewrite Hturns_l in Hpools. cbn [snd] in Hpools.
    apply process_sample_Ok in Hturns_l as (p & negs & hards & w1 & Hsel & Hc & Hp & _).
    apply select_passages_count in Hsel.
    apply IH in Hturns as [IHp IHc].
    assert (map (count (heap w0)) samples = map (count (heap w)) samples) as Hcount.
    { apply map_ext. intros s'. apply sample_ctxs_count_ext. intros l. apply Hpools. }
    rewrite Hcount in IHp, IHc.
    assert (length (ctx_tensors a) = length (ctx_tensors acc) + count (heap w) s) as Hlen.
    { rewrite Hc, length_app, length_map, !length_app. cbn [length]. lia. }
    rewrite IHp, IHc, Hp, Hlen, <- app_assoc. split; [reflexivity|].
    unfold list_sum. cbn [fold_right]. lia.
Qed.

(** The loop goes through all the samples as soon as each has a positive
    passage, outside span-selection mode. *)
Lemma process_samples_returns (samples : list BiEncoderSample) (acc : Acc) (w : World) :
  query_token <> Some "[START_ENT]"%string ->
  Forall (fun s => heap w !!! positive_passages s <> []) samples ->
  exists acc' w', turns samples acc w = (Ok acc', w').
Proof.
  intros Hmode. revert acc w.
  induction samples as [|s samples IH]; intros acc w Hpos; cbn [process_samples].
  - unfold ret. eauto.
  - inversion Hpos as [|? ? Hs Hrest]; subst.
    destruct (select_passages_returns num_hard_negatives num_other_negatives shuffle
                shuffle_positives hard_neg_fallback s w Hs)
      as (p & negs & hards & w1 & Hsel).
    assert (exists acc1 w2, turn s acc w = (Ok acc1, w2)) as (acc1 & w2 & Hturn).
    { unfold process_sample. rewrite (bind_Ok_intro _ _ _ _ _ Hsel).
      unfold encode_query. destruct query_token as [qt|]; [|unfold ret; eauto].
      destruct (truthy qt); [|unfold ret; eauto].
      destruct (String.eqb_spec qt "[START_ENT]") as [->|_]; [congruence|].
      unfold ret. eauto. }
    rewrite (bind_Ok_intro _ _ _ _ _ Hturn). apply IH.
    pose proof (process_sample_pools tensorizer insert_title num_hard_negatives
                  num_other_negatives shuffle shuffle_positives hard_neg_fallback
                  query_token (fun _ => true) s acc eq_refl eq_refl w) as Hpools.
    rewrite Hturn in Hpools. cbn [snd] in Hpools.
    eapply Forall_impl; [exact Hrest|]. cbn beta. intros s' Hs' E.
    pose proof (proj1 (Hpools (positive_passages s'))) as Hperm.
    rewrite E in Hperm. symmetry in Hperm. now apply Permutation_nil_r in Hperm.
Qed.

End LoopFacts.

(** C3. In the batch that [create_biencoder_input] returns there is one
    positive index per sample, and the one recorded for sample [i] is the
    total number of passages that the samples before it contribute to the
    flattened batch, whose rows number the passages of all the samples. *)
Theorem positive_index_counts_earlier_passages
    (tensorizer : Tensorizer) (insert_title : bool)
    (num_hard_negatives num_other_negatives : nat)
    (shuffle shuffle_positives hard_neg_fallback : bool) (query_token : option string)
    (samples : list BiEncoderSample) (w : World) (batch : BiEncoderBatch) :
  let contributed :=
    sample_ctxs_count num_hard_negatives num_other_negatives hard_neg_fallback (heap w) in
  fst (create_biencoder_input tensorizer insert_title num_hard_negatives
         num_other_negatives shuffle shuffle_positives hard_neg_fallback query_token
         samples w) = Ok batch ->
  length (is_positive batch) = length samples
  /\ (forall i, i < length samples ->
        is_positive batch !! i = Some (list_sum (map contributed (take i samples))))
  /\ (exists d rows, context_ids batch = Mat d rows
                     /\ length rows = list_sum (map contributed samples)).
Proof.
  intros contributed Hrun.
  destruct (create_biencoder_input _ _ _ _ _ _ _ _ samples w) as [r w'] eqn:Hcreate.
  cbn [fst] in Hrun. subst r. unfold create_biencoder_input in Hcreate.
  inv_bind Hcreate. unfold lift in Hcreate. simplify_eq.
  apply process_samples_Ok in Hcreate_l as [Hp Hc]. cbn in Hp, Hc.
  match goal with H : stack_batch _ _ = Ok _ |- _ =>
    apply stack_batch_Ok in H as (Hpos & _ & (d & Hctx) & _) end.
  rewrite Hpos, Hp. fold contributed in Hc |- *. split; [|split].
  - now rewrite length_offsets, length_map.
  - intros i Hi. rewrite offsets_lookup by now rewrite length_map.
    now rewrite <- firstn_map.
  - exists d, (ctx_tensors a). split; assumption.
Qed.

Lemma positive_index_counts_earlier_passages_witness :
  exists batch,
    fst (create_biencoder_input Toy.tensorizer true 1 2 false false true None
           [Toy.sample; Toy.sample_no_hard; Toy.sample] (Toy.world 0)) = Ok batch
    /\ is_positive batch = [0; 4; 8]
    /\ length (is_positive batch) = 3
    /\ is_positive batch !! 2
       = Some (list_sum (map (sample_ctxs_count 1 2 true (heap (Toy.world 0)))
                           (take 2 [Toy.sample; Toy.sample_no_hard; Toy.sample])))
    /\ (exists d rows, context_ids batch = Mat d rows
                       /\ length rows
                          = list_sum (map (sample_ctxs_count 1 2 true (heap (Toy.world 0)))
                                        [Toy.sample; Toy.sample_no_hard; Toy.sample])).
Proof.
  eexists. split; [vm_compute; reflexivity|]. split; [reflexivity|].
  destruct (positive_index_counts_earlier_passages Toy.tensorizer true 1 2 false false
              true None [Toy.sample; Toy.sample_no_hard; Toy.sample] (Toy.world 0)
              _ ltac:(vm_compute; reflexivity)) as (Hlen & Hidx & Hrows).
  split; [exact Hlen|]. split; [apply Hidx; simpl; lia | exact Hrows].
Defined.

(** ** Without shuffling *)

Lemma heap_only_ret {A} (a : A) : heap_only (ret a).
Proof. split; intros; reflexivity. Qed.

Lemma heap_only_lift {A} (r : Result A) : heap_only (lift r).
Proof. split; intros; reflexivity. Qed.

Lemma heap_only_read_list (l : loc) : heap_only (read_list l).
Proof. split; intros; simpl; [reflexivity | congruence]. Qed.

Lemma heap_only_bind {A B} (m : M A) (f : A -> M B) :
  heap_only m -> (forall a, heap_only (f a)) -> heap_only (m ≫= f).
Proof.
  intros [Hm1 Hm2] Hf. split.
  - intros w. rewrite bind_run. specialize (Hm1 w).
    destruct (m w) as [[a|e] w']; simpl in *; subst; [apply Hf | reflexivity].
  - intros w1 w2 Hh. rewrite !bind_run.
    pose proof (Hm1 w1) as E1. pose proof (Hm1 w2) as E2. specialize (Hm2 w1 w2 Hh).
    destruct (m w1) as [[a1|e1] w1'], (m w2) as [[a2|e2] w2']; simpl in *;
      subst; simplify_eq; [now apply Hf | reflexivity].
Qed.

Section NoShuffle.
Variable tensorizer : Tensorizer.
Variable insert_title : bool.
Variables num_hard_negatives num_other_negatives : nat.
Variables shuffle_positives hard_neg_fallback : bool.
Variable query_token : option string.
Hypothesis not_span_mode : query_token <> Some "[START_ENT]"%string.

Lemma select_passages_heap_only (s : BiEncoderSample) :
  heap_only (select_passages num_hard_negatives num_other_negatives false
               shuffle_positives hard_neg_fallback s).
Proof.
  unfold select_passages. cbn [andb].
  apply heap_only_bind.
  { apply heap_only_bind; [apply heap_only_read_list|].
    intros ps. apply heap_only_lift. }
  intros p. apply heap_only_bind; [apply heap_only_ret|].
  intros _. apply heap_only_bind; [apply heap_only_read_list|].
  intros negs. apply heap_only_bind; [apply heap_only_read_list|].
  intros hards. apply heap_only_ret.
Qed.




End NoShuffle.

(** In span-selection mode no entity tensor of a query is ever collected. *)
Lemma process_samples_span_mode (tensorizer : Tensorizer) (insert_title : bool)
    (num_hard_negatives num_other_negatives : nat)
    (shuffle shuffle_positives hard_neg_fallback : bool)
    (samples : list BiEncoderSample) (acc acc' : Acc) (w w' : World) :
  process_samples tensorizer insert_title num_hard_negatives num_other_negatives
    shuffle shuffle_positives hard_neg_fallback (Some "[START_ENT]"%string)
    samples acc w = (Ok acc', w') ->
  question_entity_tensors acc' = question_entity_tensors acc.
Proof.
  revert acc w. induction samples as [|s samples IH]; intros acc w Hturns;
    cbn [process_samples] in Hturns.
  - unfold ret in Hturns. now simplify_eq.
  - inv_bind Hturns. apply IH in Hturns. rewrite Hturns.
    unfold process_sample in Hturns_l. inv_bind Hturns_l.
    destruct a0 as [[p negs] hards]. unfold encode_query in Hturns_l.
    cbn in Hturns_l. inv_bind Hturns_l. unfold ret in Hturns_l. now simplify_eq.
Qed.

(** Hence the stacking of the batch fails: in that mode no call returns. *)
Lemma create_biencoder_input_span_mode_raises (tensorizer : Tensorizer)
    (insert_title : bool) (num_hard_negatives num_other_negatives : nat)
    (shuffle shuffle_positives hard_neg_fallback : bool)
    (samples : list BiEncoderSample) (w : World) (batch : BiEncoderBatch) :
  fst (create_biencoder_input tensorizer insert_title num_hard_negatives
         num_other_negatives shuffle shuffle_positives hard_neg_fallback
         (Some "[START_ENT]"%string) samples w) <> Ok batch.
Proof.
  intros Hrun.
  destruct (create_biencoder_input _ _ _ _ _ _ _ _ samples w) as [r w'] eqn:Hcreate.
  cbn [fst] in Hrun. subst r. unfold create_biencoder_input in Hcreate.
  inv_bind Hcreate. unfold lift in Hcreate. simplify_eq.
  apply process_samples_span_mode in Hcreate_l. cbn in Hcreate_l.
  match goal with H : stack_batch _ _ = Ok _ |- _ =>
    apply stack_batch_Ok in H as (_ & _ & _ & Hne) end.
  contradiction.
Qed.




(** ** The fallback for samples without hard negatives *)

Lemma select_passages_fallback (num_hard_negatives num_other_negatives : nat)
    (shuffle shuffle_positives : bool) (s : BiEncoderSample) (w : World) :
  heap w !!! hard_negative_passages s = [] ->
  heap w !!! positive_passages s <> [] ->
  exists p negs hards w1,
    select_passages num_hard_negatives num_other_negatives shuffle shuffle_positives
      true s w = (Ok (p, negs, hards), w1)
    /\ heap w1 !!! negative_passages s ≡ₚ heap w !!! negative_passages s
    /\ (shuffle = false -> heap w1 = heap w)
    /\ hards = take num_hard_negatives (heap w1 !!! negative_passages s)
    /\ length hards
       = Nat.min num_hard_negatives (length (heap w !!! negative_passages s)).
Proof.
  intros Hhard Hpos.
  destruct (select_passages_returns num_hard_negatives num_other_negatives shuffle
              shuffle_positives true s w Hpos) as (p & negs & hards & w1 & Hsel).
  exists p, negs, hards, w1. split; [exact Hsel|].
  pose proof (select_passages_pools num_hard_negatives num_other_negatives shuffle
                shuffle_positives true (fun _ => true) s eq_refl eq_refl w) as Hpools.
  rewrite Hsel in Hpools. cbn [snd] in Hpools.
  pose proof (proj1 (Hpools (negative_passages s))) as Hneg.
  pose proof (proj1 (Hpools (hard_negative_passages s))) as Hh.
  rewrite Hhard in Hh. apply Permutation_nil_r in Hh.
  split; [exact Hneg|]. split.
  { intros ->.
    pose proof (proj1 (select_passages_heap_only num_hard_negatives num_other_negatives
                         shuffle_positives true s) w) as Hsame.
    rewrite Hsel in Hsame. cbn [snd] in Hsame. now subst. }
  apply select_passages_Ok in Hsel as (_ & -> & _).
  rewrite Hh. cbn [andb length Nat.eqb].
  rewrite take_take, Nat.min_id. split; [reflexivity|].
  now rewrite length_take, (Permutation_length Hneg).
Qed.

(** C4. With [hard_neg_fallback] set, for a sample whose pool of hard
    negatives is empty (and which has a positive passage, so that the turn
    goes through), the hard-negative slice is the prefix of length
    [num_hard_negatives] of the pool of other negatives as the shuffling left
    it (a permutation of the pool, the pool itself when [shuffle] is off); its
    length is [min(num_hard_negatives, len(other_negatives))]; and it is the
    slice whose tensors the turn, unless the encoding of the query raises,
    appends last to the batch. *)
Theorem hard_negative_fallback_takes_prefix_of_other_negatives
    (tensorizer : Tensorizer) (insert_title : bool)
    (num_hard_negatives num_other_negatives : nat)
    (shuffle shuffle_positives : bool) (query_token : option string)
    (s : BiEncoderSample) (w : World) :
  heap w !!! hard_negative_passages s = [] ->
  heap w !!! positive_passages s <> [] ->
  exists p negs hards w1,
    select_passages num_hard_negatives num_other_negatives shuffle shuffle_positives
      true s w = (Ok (p, negs, hards), w1)
    /\ heap w1 !!! negative_passages s ≡ₚ heap w !!! negative_passages s
    /\ (shuffle = false -> heap w1 = heap w)
    /\ hards = take num_hard_negatives (heap w1 !!! negative_passages s)
    /\ length hards
       = Nat.min num_hard_negatives (length (heap w !!! negative_passages s))
    /\ forall acc,
         match fst (process_sample tensorizer insert_title num_hard_negatives
                      num_other_negatives shuffle shuffle_positives true query_token
                      s acc w) with
         | Ok acc' =>
             ctx_tensors acc'
             = ctx_tensors acc
               ++ map (fun c => fst (fst (ctx_to_tensor tensorizer insert_title c)))
                    ([p] ++ negs ++ hards)
         | Raise _ => True
         end.
Proof.
  intros Hhard Hpos.
  destruct (select_passages_fallback num_hard_negatives num_other_negatives shuffle
              shuffle_positives s w Hhard Hpos)
    as (p & negs & hards & w1 & Hsel & Hperm & Hoff & Hpre & Hlen).
  exists p, negs, hards, w1. repeat (split; [assumption|]).
  intros acc.
  destruct (process_sample _ _ _ _ _ _ _ _ s acc w) as [[acc'|e] w'] eqn:Hturn;
    cbn [fst]; [|exact I].
  apply process_sample_Ok in Hturn as (p' & negs' & hards' & w1' & Hsel' & Hc & _).
  rewrite Hsel in Hsel'. now simplify_eq.
Qed.

Lemma hard_negative_fallback_takes_prefix_of_other_negatives_witness :
  exists p negs hards w1,
    select_passages 2 1 true false true Toy.sample_no_hard (Toy.world 0)
    = (Ok (p, negs, hards), w1)
    /\ heap w1 !!! 2%positive ≡ₚ heap (Toy.world 0) !!! 2%positive
    /\ hards = take 2 (heap w1 !!! 2%positive)
    /\ length hards = Nat.min 2 (length (heap (Toy.world 0) !!! 2%positive))
    /\ match fst (process_sample Toy.tensorizer true 2 1 true false true None
                    Toy.sample_no_hard empty_acc (Toy.world 0)) with
       | Ok acc' =>
           ctx_tensors acc'
           = ctx_tensors empty_acc
             ++ map (fun c => fst (fst (ctx_to_tensor Toy.tensorizer true c)))
                  ([p] ++ negs ++ hards)
       | Raise _ => True
       end.
Proof.
  destruct (hard_negative_fallback_takes_prefix_of_other_negatives Toy.tensorizer true
              2 1 true false None Toy.sample_no_hard (Toy.world 0))
    as (p & negs & hards & w1 & Hsel & Hperm & _ & Hpre & Hlen & Hrows).
  - reflexivity.
  - vm_compute. discriminate.
  - exists p, negs, hards, w1.
    split; [exact Hsel|]. split; [exact Hperm|]. split; [exact Hpre|].
    split; [exact Hlen | exact (Hrows empty_acc)].
Defined.

(** With [shuffle] on, the backfilled slice is cut from the shuffled pool. *)
Example fallback_slice_of_shuffled_pool :
  fst (select_passages 2 1 true false true Toy.sample_no_hard (Toy.world 0))
  = Ok (Toy.passage "p", [Toy.passage "n22"],
        [Toy.passage "n22"; Toy.passage "n1"]).
Proof. vm_compute. reflexivity. Qed.

(** ** The recorded indices of the hard negatives *)

(** What the code records for a sample, and where the tensors of its hard
    negatives lie among the rows of the batch. *)
Lemma process_sample_hard_negative_rows
    (tensorizer : Tensorizer) (insert_title : bool)
    (num_hard_negatives num_other_negatives : nat)
    (shuffle shuffle_positives hard_neg_fallback : bool) (query_token : option string)
    (s : BiEncoderSample) (acc acc' : Acc) (w w' : World) :
  process_sample tensorizer insert_title num_hard_negatives num_other_negatives
    shuffle shuffle_positives hard_neg_fallback query_token s acc w = (Ok acc', w') ->
  exists p negs hards w1,
    select_passages num_hard_negatives num_other_negatives shuffle shuffle_positives
      hard_neg_fallback s w = (Ok (p, negs, hards), w1)
    /\ last (hard_neg_ctx_indices acc')
       = Some (seq (length (ctx_tensors acc) + 1) (length hards))
    /\ forall i, i < length hards ->
         ctx_tensors acc' !! (length (ctx_tensors acc) + 1 + length negs + i)
         = (fun c => fst (fst (ctx_to_tensor tensorizer insert_title c))) <$> hards !! i.
Proof.
  intros Hturn.
  apply process_sample_Ok in Hturn as (p & negs & hards & w1 & Hsel & Hc & _ & Hh).
  exists p, negs, hards, w1. split; [assumption|]. split.
  - rewrite Hh. apply last_snoc.
  - intros i Hi. rewrite Hc. cbn [app map].
    rewrite lookup_app_r by lia.
    replace (length (ctx_tensors acc) + 1 + length negs + i - length (ctx_tensors acc))
      with (S (length negs + i)) by lia.
    rewrite lookup_cons_ne_0 by lia. cbn [Nat.pred].
    rewrite map_app, lookup_app_r by (rewrite length_map; lia).
    rewrite length_map. replace (length negs + i - length negs) with i by lia.
    apply list_lookup_fmap.
Qed.

(** C1. One sample with a positive, one other negative and one hard
    negative, [num_other_negatives = 1], [num_hard_negatives = 1], no
    shuffling: the flattened batch is [positive; other negative; hard
    negative], the hard negative lies at position 2, and the recorded list
    of hard-negative indices is [[1]], the position of the other negative. *)
Theorem hard_negative_indices_point_at_other_negatives :
  exists batch d rows,
    fst (create_biencoder_input Toy.tensorizer true 1 1 false false true None
           [Toy.sample] (Toy.world 0)) = Ok batch
    /\ context_ids batch = Mat d rows
    /\ rows !! 0 = Some (fst (fst (ctx_to_tensor Toy.tensorizer true (Toy.passage "p"))))
    /\ rows !! 1 = Some (fst (fst (ctx_to_tensor Toy.tensorizer true (Toy.passage "n1"))))
    /\ rows !! 2
       = Some (fst (fst (ctx_to_tensor Toy.tensorizer true (Toy.passage "h4444"))))
    /\ heap (Toy.world 0) !!! hard_negative_passages Toy.sample = [Toy.passage "h4444"]
    /\ hard_negatives batch = [[1]]
    /\ hard_negatives batch <> [[2]].
Proof.
  do 3 eexists. split; [vm_compute; reflexivity|].
  split; [reflexivity|]. repeat split; try reflexivity. discriminate.
Qed.

(** * Further properties of the scoring functions and the losses *)

Lemma sum_list_app_R (l k : list R) :
  sum_list (l ++ k) = (sum_list l + sum_list k)%R.
Proof.
  unfold sum_list. induction l as [|x l IH]; cbn [app fold_right s_add s_zero R_scalar].
  - ring.
  - cbn [sum_list fold_right s_add s_zero R_scalar] in IH. rewrite IH. ring.
Qed.

(** The inner product of two concatenated vectors is the sum of the inner
    products of their parts. *)
Lemma dot_app_R (u v u' v' : list R) :
  length u = length v -> dot (u ++ u') (v ++ v') = (dot u v + dot u' v')%R.
Proof.
  intros Hlen. unfold dot. rewrite zip_with_app by assumption. apply sum_list_app_R.
Qed.

Lemma scores_row_app (D : nat) (q qe : list R) (cs ces : list (list R)) :
  length q = D -> Forall (fun c => length c = D) cs ->
  zip_with s_add (map (dot q) cs) (map (dot qe) ces)
  = map (dot (q ++ qe)) (zip_with app cs ces).
Proof.
  intros Hq Hcs. revert ces. induction Hcs as [|c cs Hc _ IH]; intros [|ce ces];
    cbn [map zip_with]; try reflexivity.
  rewrite IH. f_equal. rewrite dot_app_R by congruence. reflexivity.
Qed.

Lemma scores_app (D : nat) (qs qes cs ces : list (list R)) :
  Forall (fun q => length q = D) qs -> Forall (fun c => length c = D) cs ->
  elementwise_sum (map (fun q => map (dot q) cs) qs) (map (fun qe => map (dot qe) ces) qes)
  = map (fun q => map (dot q) (zip_with app cs ces)) (zip_with app qs qes).
Proof.
  intros Hqs Hcs. unfold elementwise_sum. revert qes.
  induction Hqs as [|q qs Hq _ IH]; intros [|qe qes]; cbn [map zip_with]; try reflexivity.
  rewrite IH. f_equal. now apply (scores_row_app D).
Qed.

Lemma Forall_length_zip_with_app (D E : nat) (xs ys : list (list R)) :
  length ys = length xs ->
  Forall (fun x => length x = D) xs -> Forall (fun y => length y = E) ys ->
  Forall (fun z => length z = D + E) (zip_with app xs ys).
Proof.
  intros Hlen Hxs. revert ys Hlen.
  induction Hxs as [|x xs Hx _ IH]; intros [|y ys] Hlen Hys; cbn [zip_with];
    try constructor; simpl in Hlen; try lia.
  - inversion Hys; subst. rewrite length_app. lia.
  - inversion Hys; subst. apply IH; [lia | assumption].
Qed.

(** X1. The loss with entity-augmented scores is the plain loss on the
    concatenated vectors: for [n] queries and [m] passages of width [D] with
    entity vectors of width [E], [BiEncoderEntLoss.calc] returns what
    [BiEncoderNllLoss.calc] returns on the query vectors each followed by its
    entity vector and the passage vectors each followed by its entity
    vector, whatever the positives and the scale, errors included. *)
Theorem ent_loss_is_nll_loss_on_concatenated_vectors
    (D E : nat) (qs cs qes ces : list (list R)) (p : list nat)
    (hard : option (list (list nat))) (loss_scale : option R) :
  wf_tensor (Mat D qs) = true -> wf_tensor (Mat D cs) = true ->
  wf_tensor (Mat E qes) = true -> wf_tensor (Mat E ces) = true ->
  length qes = length qs -> length ces = length cs ->
  BiEncoderEntLoss.calc (Mat D qs) (Mat D cs) (Mat E qes) (Mat E ces) p hard loss_scale
  = BiEncoderNllLoss.calc (Mat (D + E) (zip_with app qs qes))
      (Mat (D + E) (zip_with app cs ces)) (Mat E qes) (Mat E ces) p hard loss_scale.
Proof.
  intros Hq Hc _ Hce Hnq Hnc.
  pose proof (proj1 (wf_tensor_Mat D qs) Hq) as Hqs.
  pose proof (proj1 (wf_tensor_Mat D cs) Hc) as Hcs.
  pose proof (proj1 (wf_tensor_Mat E ces) Hce) as Hces.
  unfold BiEncoderEntLoss.calc, BiEncoderEntLoss.get_scores,
    BiEncoderEntLoss.get_similarity_function, BiEncoderNllLoss.calc,
    BiEncoderNllLoss.get_scores, BiEncoderNllLoss.get_similarity_function.
  rewrite !dot_product_scores_entries; try assumption.
  2: { apply wf_tensor_Mat. now apply Forall_length_zip_with_app. }
  cbn [mbind result_bind].
  rewrite Hnc, tensor_add_same_shape.
  - rewrite (scores_app D) by assumption.
    rewrite length_zip_with_l_eq by congruence.
    unfold calc_from_scores. cbn [rank size length nth].
    now rewrite length_zip_with_l_eq by congruence.
  - now rewrite !length_map.
  - apply List.Forall_forall. intros r Hr. apply in_map_iff in Hr as (q & <- & _).
    now rewrite length_map.
  - apply List.Forall_forall. intros r Hr. apply in_map_iff in Hr as (q & <- & _).
    rewrite length_map. congruence.
Qed.

Lemma ent_loss_is_nll_loss_on_concatenated_vectors_witness :
  BiEncoderEntLoss.calc (Mat 2 [[1; 2]; [3; 4]]%R) (Mat 2 [[1; 0]; [0; 1]; [1; 1]]%R)
    (Mat 1 [[5]; [7]]%R) (Mat 1 [[1]; [2]; [3]]%R) [2; 0] None None
  = BiEncoderNllLoss.calc (Mat 3 [[1; 2; 5]; [3; 4; 7]]%R)
      (Mat 3 [[1; 0; 1]; [0; 1; 2]; [1; 1; 3]]%R)
      (Mat 1 [[5]; [7]]%R) (Mat 1 [[1]; [2]; [3]]%R) [2; 0] None None.
Proof.
  apply (ent_loss_is_nll_loss_on_concatenated_vectors 2 1
           [[1; 2]; [3; 4]]%R [[1; 0]; [0; 1]; [1; 1]]%R
           [[5]; [7]]%R [[1]; [2]; [3]]%R [2; 0] None None); reflexivity.
Defined.

Lemma sum_exp_nonneg (l : list R) : (0 <= sum_list (map exp l))%R.
Proof.
  unfold sum_list. induction l as [|x l IH]; cbn [map fold_right s_add s_zero R_scalar].
  - lra.
  - pose proof (exp_pos x). cbn [s_add s_zero R_scalar] in IH. lra.
Qed.

Lemma exp_le_sum_exp (l : list R) (x : R) :
  In x l -> (exp x <= sum_list (map exp l))%R.
Proof.
  induction l as [|y l IH]; intros Hin; [contradiction|].
  change (sum_list (map exp (y :: l))) with (exp y + sum_list (map exp l))%R.
  destruct Hin as [->|Hin].
  - pose proof (sum_exp_nonneg l). lra.
  - specialize (IH Hin). pose proof (exp_pos y). lra.
Qed.

(** No entry of a log-softmax is positive. *)
Lemma log_softmax_at_nonpos (row : list R) (t : nat) :
  t < length row -> (log_softmax_at row t <= 0)%R.
Proof.
  intros Ht. unfold log_softmax_at.
  pose proof (exp_le_sum_exp row (nth t row 0%R) (nth_In _ _ Ht)) as Hle.
  pose proof (exp_pos (nth t row 0%R)) as Hpos.
  destruct Hle as [Hlt|Heq].
  - apply ln_increasing in Hlt; [|assumption]. rewrite ln_exp in Hlt. lra.
  - rewrite <- Heq, ln_exp. lra.
Qed.

Lemma sum_neg_log_softmax_nonneg (cs qs : list (list R)) (p : list nat) :
  Forall (fun t => t < length cs) p ->
  (0 <= sum_list (zip_with (fun q t => - log_softmax_at (map (dot q) cs) t) qs p))%R.
Proof.
  intros Hp. revert qs. induction Hp as [|t p Ht _ IH]; intros [|q qs];
    cbn [zip_with]; try (unfold sum_list; simpl; lra).
  change (0 <= - log_softmax_at (map (dot q) cs) t
               + sum_list (zip_with (fun q t => - log_softmax_at (map (dot q) cs) t) qs p))%R.
  pose proof (log_softmax_at_nonpos (map (dot q) cs) t) as Hle.
  rewrite length_map in Hle. specialize (Hle Ht). specialize (IH qs). lra.
Qed.

Lemma length_filter_le {X} (f : X -> bool) (l : list X) :
  length (List.filter f l) <= length l.
Proof. induction l as [|x l IH]; simpl; [lia|]. destruct (f x); simpl; lia. Qed.

(** X2. On a well-shaped batch the unscaled loss is never negative, and the
    count of correct predictions never exceeds the number of queries. *)
Theorem nll_loss_nonnegative_and_count_bounded
    (D : nat) (qs cs : list (list R)) (q_ent ctx_ent : Tensor R)
    (p : list nat) (hard : option (list (list nat))) :
  qs <> [] ->
  wf_tensor (Mat D cs) = true ->
  length p = length qs ->
  Forall (fun t => t < length cs) p ->
  exists loss count,
    BiEncoderNllLoss.calc (Mat D qs) (Mat D cs) q_ent ctx_ent p hard None
    = Ok (loss, count)
    /\ (0 <= loss)%R /\ count <= length qs.
Proof.
  intros Hne Hwf Hlen Hp.
  exists (mean_nll qs cs p), (correct_count qs cs p).
  split; [now apply nll_calc_scaled|]. split.
  - unfold mean_nll. apply Rmult_le_pos; [now apply sum_neg_log_softmax_nonneg|].
    left. apply Rinv_0_lt_compat, lt_0_INR. destruct qs; [congruence | simpl; lia].
  - unfold correct_count. etransitivity; [apply length_filter_le|].
    rewrite length_zip_with. lia.
Qed.

Lemma nll_loss_nonnegative_and_count_bounded_witness :
  exists loss count,
    BiEncoderNllLoss.calc
      (Mat 3 [[2; 1; 0]; [0; 1; 2]]%R) (Mat 3 [[1; 0; 0]; [0; 1; 0]; [0; 0; 1]]%R)
      (Vec []) (Vec []) [1; 2] None None
    = Ok (loss, count)
    /\ (0 <= loss)%R /\ count <= 2.
Proof.
  apply (nll_loss_nonnegative_and_count_bounded 3
           [[2; 1; 0]; [0; 1; 2]]%R [[1; 0; 0]; [0; 1; 0]; [0; 0; 1]]%R
           (Vec []) (Vec []) [1; 2] None).
  - discriminate.
  - reflexivity.
  - reflexivity.
  - repeat constructor.
Defined.



Lemma gather_targets_out_of_bounds (m : nat) (rows : list (list R)) (p : list nat) :
  length p = length rows ->
  Forall (fun r => length r = m) rows ->
  Exists (fun t => m <= t) p ->
  gather_targets rows p = Raise (IndexError "Target is out of bounds").
Proof.
  intros Hlen Hrows. revert p Hlen.
  induction Hrows as [|r rows Hr _ IH]; intros [|t p] Hlen Hex; simpl in Hlen;
    try lia; [inversion Hex|].
  cbn [gather_targets]. destruct (r !! t) as [x|] eqn:Hx; [|reflexivity].
  apply lookup_lt_Some in Hx.
  inversion Hex as [? ? Ht|? ? Hex']; subst; [lia|].
  rewrite IH by (auto; lia). reflexivity.
Qed.

(** X4. A positive index that is not the index of a passage makes [calc]
    raise an [IndexError], on any batch of at least one query and one
    passage with as many positives as queries. *)
Theorem nll_calc_raises_on_positive_out_of_bounds
    (D : nat) (qs cs : list (list R)) (q_ent ctx_ent : Tensor R)
    (p : list nat) (hard : option (list (list nat))) (loss_scale : option R) :
  qs <> [] ->
  cs <> [] ->
  wf_tensor (Mat D cs) = true ->
  length p = length qs ->
  Exists (fun t => length cs <= t) p ->
  exists msg,
    BiEncoderNllLoss.calc (Mat D qs) (Mat D cs) q_ent ctx_ent p hard loss_scale
    = Raise (IndexError msg).
Proof.
  intros Hne _ Hwf Hlen Hex. eexists.
  unfold BiEncoderNllLoss.calc, BiEncoderNllLoss.get_scores,
    BiEncoderNllLoss.get_similarity_function.
  rewrite dot_product_scores_entries by assumption. cbn [mbind result_bind].
  unfold calc_from_scores. cbn [rank size length Nat.ltb Nat.leb nth].
  rewrite <- (length_map (fun q => map (dot q) cs) qs) at 1.
  rewrite view_rows_id.
  2: { destruct qs; simpl; congruence. }
  2: { apply List.Forall_forall. intros r Hr.
       apply in_map_iff in Hr as (q & <- & _). now rewrite length_map. }
  cbn [mbind result_bind log_softmax_dim1 nll_loss_mean].
  rewrite !length_map, Hlen, Nat.eqb_refl.
  rewrite (gather_targets_out_of_bounds (length cs)); try assumption.
  - reflexivity.
  - now rewrite !length_map.
  - apply List.Forall_forall. intros r Hr.
    apply in_map_iff in Hr as (r' & <- & Hr'). apply in_map_iff in Hr' as (q & <- & _).
    unfold log_softmax_row. now rewrite !length_map.
Qed.

Lemma nll_calc_raises_on_positive_out_of_bounds_witness :
  exists msg,
    BiEncoderNllLoss.calc
      (Mat 3 [[2; 1; 0]; [0; 1; 2]]%R) (Mat 3 [[1; 0; 0]; [0; 1; 0]; [0; 0; 1]]%R)
      (Vec []) (Vec []) [0; 3] None None
    = Raise (IndexError msg).
Proof.
  apply (nll_calc_raises_on_positive_out_of_bounds 3
           [[2; 1; 0]; [0; 1; 2]]%R [[1; 0; 0]; [0; 1; 0]; [0; 0; 1]]%R
           (Vec []) (Vec []) [0; 3] None None).
  - discriminate.
  - discriminate.
  - reflexivity.
  - reflexivity.
  - right. left. simpl. lia.
Defined.

(** X5. [calc] rejects a batch without queries and, on a batch with
    passages, a list of positives that has not one entry per query. *)
Theorem nll_calc_raises_on_empty_batch_or_positive_count_mismatch
    (D : nat) (qs cs : list (list R)) (q_ent ctx_ent : Tensor R)
    (p : list nat) (hard : option (list (list nat))) (loss_scale : option R) :
  wf_tensor (Mat D cs) = true ->
  (qs = [] ->
   exists msg,
     BiEncoderNllLoss.calc (Mat D qs) (Mat D cs) q_ent ctx_ent p hard loss_scale
     = Raise (RuntimeError msg))
  /\ (qs <> [] -> cs <> [] -> length p <> length qs ->
      exists msg,
        BiEncoderNllLoss.calc (Mat D qs) (Mat D cs) q_ent ctx_ent p hard loss_scale
        = Raise (ValueError msg)).
Proof.
  intros Hwf. split.
  - intros ->. eexists. unfold BiEncoderNllLoss.calc, BiEncoderNllLoss.get_scores,
      BiEncoderNllLoss.get_similarity_function.
    rewrite dot_product_scores_entries by assumption. reflexivity.
  - intros Hne _ Hlen. eexists.
    unfold BiEncoderNllLoss.calc, BiEncoderNllLoss.get_scores,
      BiEncoderNllLoss.get_similarity_function.
    rewrite dot_product_scores_entries by assumption. cbn [mbind result_bind].
    unfold calc_from_scores. cbn [rank size length Nat.ltb Nat.leb nth].
    rewrite <- (length_map (fun q => map (dot q) cs) qs) at 1.
    rewrite view_rows_id.
    2: { destruct qs; simpl; congruence. }
    2: { apply List.Forall_forall. intros r Hr.
         apply in_map_iff in Hr as (q & <- & _). now rewrite length_map. }
    cbn [mbind result_bind log_softmax_dim1 nll_loss_mean].
    rewrite !length_map.
    destruct (Nat.eqb_spec (length qs) (length p)); [congruence | reflexivity].
Qed.

Lemma nll_calc_raises_on_empty_batch_or_positive_count_mismatch_witness :
  (exists msg,
     BiEncoderNllLoss.calc (Mat 3 []) (Mat 3 [[1; 0; 0]; [0; 1; 0]]%R)
       (Vec []) (Vec []) [] None None
     = Raise (RuntimeError msg))
  /\ (exists msg,
        BiEncoderNllLoss.calc (Mat 3 [[2; 1; 0]; [0; 1; 2]]%R)
          (Mat 3 [[1; 0; 0]; [0; 1; 0]]%R) (Vec []) (Vec []) [0] None None
        = Raise (ValueError msg)).
Proof.
  split.
  - apply (nll_calc_raises_on_empty_batch_or_positive_count_mismatch 3
             [] [[1; 0; 0]; [0; 1; 0]]%R (Vec []) (Vec []) [] None None);
      reflexivity.
  - apply (nll_calc_raises_on_empty_batch_or_positive_count_mismatch 3
             [[2; 1; 0]; [0; 1; 2]]%R [[1; 0; 0]; [0; 1; 0]]%R (Vec []) (Vec [])
             [0] None None).
    + reflexivity.
    + discriminate.
    + discriminate.
    + simpl. lia.
Defined.

(** X6. A scale of zero is no scale: [if loss_scale:] takes [0.0] for
    false, so that the loss is returned unscaled rather than zeroed, on every
    input. *)
Theorem nll_calc_ignores_zero_loss_scale
    (q ctx q_ent ctx_ent : Tensor R) (p : list nat) (hard : option (list (list nat))) :
  BiEncoderNllLoss.calc q ctx q_ent ctx_ent p hard (Some 0%R)
  = BiEncoderNllLoss.calc q ctx q_ent ctx_ent p hard None.
Proof.
  unfold BiEncoderNllLoss.calc.
  destruct (BiEncoderNllLoss.get_scores q ctx) as [scores|e]; [|reflexivity].
  cbn [mbind result_bind]. unfold calc_from_scores.
  destruct (if 1 <? rank q then _ else _) as [s|e]; [|reflexivity].
  cbn [mbind result_bind].
  destruct (log_softmax_dim1 s) as [ls|e]; [|reflexivity]. cbn [mbind result_bind].
  destruct (nll_loss_mean ls p) as [loss|e]; [|reflexivity]. cbn [mbind result_bind].
  destruct (max_idxs_dim1 ls) as [idxs|e]; [|reflexivity]. cbn [mbind result_bind].
  destruct (count_equal idxs p) as [c|e]; [|reflexivity]. cbn [mbind result_bind].
  unfold apply_loss_scale. destruct (Req_dec_T 0 0); [reflexivity | congruence].
Qed.






(** X8. For a single query vector of the passages' width,
    [dot_product_scores] returns the vector of its inner products with the
    passages, one per passage and in their order. *)
Theorem dot_product_scores_of_single_query {A : Type} `{Scalar A}
    (D : nat) (q : list A) (cs : list (list A)) :
  length q = D -> wf_tensor (Mat D cs) = true ->
  dot_product_scores (Vec q) (Mat D cs) = Ok (Vec (map (dot q) cs)).
Proof.
  intros Hq Hwf%wf_tensor_Mat. unfold dot_product_scores. cbn [transpose mbind result_bind].
  cbn [matmul]. rewrite length_map, length_seq, Hq, Nat.eqb_refl. do 2 f_equal.
  transitivity (map (fun j => dot q (nth j cs [])) (seq 0 (length cs))).
  - apply map_ext_in. intros j Hj%in_seq. f_equal. apply col_of_cols; [assumption | lia].
  - rewrite <- (map_map (fun j => nth j cs []) (dot q)). f_equal.
    now apply map_nth_seq_self.
Qed.

Lemma dot_product_scores_of_single_query_witness :
  dot_product_scores (Vec [1; 2]%Z) (Mat 2 [[1; 0]; [0; 1]; [1; 1]]%Z)
  = Ok (Vec (map (dot [1; 2]%Z) [[1; 0]; [0; 1]; [1; 1]]%Z)).
Proof.
  apply (dot_product_scores_of_single_query 2 [1; 2]%Z [[1; 0]; [0; 1]; [1; 1]]%Z);
    reflexivity.
Defined.



Lemma zip_with_repeat_l {X Y W} (f : X -> Y -> W) (x : X) (l : list Y) :
  zip_with f (repeat x (length l)) l = map (f x) l.
Proof. induction l as [|y l IH]; simpl; [reflexivity | now rewrite IH]. Qed.

(** X10. With a batch of one query, [cosine_scores] broadcasts the query:
    it returns the similarities of that query to every passage. *)
Theorem cosine_scores_of_one_query (D : nat) (q : list R) (cs : list (list R)) :
  length q = D -> wf_tensor (Mat D cs) = true ->
  cosine_scores (Mat D [q]) (Mat D cs) = Ok (Vec (map (cosine_row q) cs)).
Proof.
  intros Hq Hwf%wf_tensor_Mat.
  unfold cosine_scores, cosine_similarity_dim1, broadcast. cbn [as_rows length].
  assert (bdim 1 (length cs) = Some (length cs)) as ->.
  { unfold bdim. destruct (Nat.eqb_spec 1 (length cs)) as [<-|_]; reflexivity. }
  unfold bdim at 1. rewrite Nat.eqb_refl. cbn [mbind result_bind rank size length Nat.max].
  cbn [Nat.ltb Nat.leb]. rewrite (expand_rows_id (length cs) D cs) by auto.
  unfold expand_rows. cbn [map expand]. rewrite (expand_id D q Hq).
  now rewrite zip_with_repeat_l.
Qed.

Lemma cosine_scores_of_one_query_witness :
  cosine_scores (Mat 2 [[1; 0]]%R) (Mat 2 [[1; 0]; [0; 1]; [1; 1]]%R)
  = Ok (Vec (map (cosine_row [1; 0]%R) [[1; 0]; [0; 1]; [1; 1]]%R)).
Proof.
  apply (cosine_scores_of_one_query 2 [1; 0]%R [[1; 0]; [0; 1]; [1; 1]]%R); reflexivity.
Defined.

(** * Further properties of the span re-windowing *)


Lemma set_last_Ok (t t' : list Z) (x : Z) :
  set_last t x = Ok t' -> t <> [] /\ t' = <[length t - 1 := x]> t.
Proof.
  unfold set_last. destruct t; [discriminate|]. intros [= <-].
  split; [discriminate | reflexivity].
Qed.

(** X11. [_select_span_with_token] never returns a tensor without the
    marker; and a tensor it has re-windowed has length [max_length] and ends
    with the end-of-sequence marker. *)
Theorem select_span_result_contains_marker
    (tensorizer : Tensorizer) (text token_str : string) (w : World) (t : list Z) :
  let id := get_token_id tensorizer token_str in
  fst (_select_span_with_token text tensorizer token_str w) = Ok t ->
  contains id t = true
  /\ (contains id (text_to_token_tensor tensorizer text true) = false ->
      length t = max_length tensorizer /\ last t = Some (sep_token_id tensorizer)).
Proof.
  intros id. unfold _select_span_with_token. fold id.
  destruct (contains id (text_to_token_tensor tensorizer text true)) eqn:Htrunc;
    cbn [negb].
  { intros [= <-]. split; [assumption | discriminate]. }
  destruct (first_index id _) as [start_pos|]; [|discriminate].
  rewrite bind_run. destruct (rnd_random w) as [[r|e] w1]; [|discriminate].
  destruct (slice_from _ _) as [|first rest]; [discriminate|].
  rewrite bind_run. unfold lift.
  destruct (set_last _ _) as [t3|e] eqn:Hset; [|discriminate].
  destruct (contains id t3) eqn:Hin; [|discriminate].
  intros [= <-]. split; [assumption|]. intros _.
  apply set_last_Ok in Hset as [Hne ->].
  rewrite length_insert, length_pad_to_len in *. split; [reflexivity|].
  rewrite last_lookup, length_insert, length_pad_to_len.
  assert (max_length tensorizer <> 0) as HL.
  { intros E. apply Hne. apply length_zero_iff_nil. now rewrite length_pad_to_len. }
  replace (pred (max_length tensorizer)) with (max_length tensorizer - 1) by lia.
  apply list_lookup_insert_eq. rewrite length_pad_to_len. lia.
Qed.

Lemma select_span_result_contains_marker_witness :
  contains 9%Z (replicate 100 7%Z) = false
  /\ exists t,
       fst (_select_span_with_token "q" Toy.tensorizer "[START_ENT]" (Toy.world (2 ^ 52)))
       = Ok t
       /\ contains 9%Z t = true
       /\ length t = 100 /\ last t = Some 102%Z.
Proof.
  split; [reflexivity|]. eexists. split; [vm_compute; reflexivity|].
  destruct (select_span_result_contains_marker Toy.tensorizer "q" "[START_ENT]"
              (Toy.world (2 ^ 52)) _ ltac:(vm_compute; reflexivity)) as [Hin Hshape].
  split; [exact Hin|]. apply Hshape. reflexivity.
Defined.

Lemma select_span_world (tensorizer : Tensorizer) (text token_str : string) (w : World) :
  let id := get_token_id tensorizer token_str in
  snd (_select_span_with_token text tensorizer token_str w)
  = if contains id (text_to_token_tensor tensorizer text true) then w
    else match first_index id (text_to_token_tensor tensorizer text false) with
         | Some _ => snd (rnd_random w)
         | None => w
         end.
Proof.
  intros id. unfold _select_span_with_token. fold id.
  destruct (contains id (text_to_token_tensor tensorizer text true)); cbn [negb];
    [reflexivity|].
  destruct (first_index id _) as [start_pos|]; [|reflexivity].
  rewrite bind_run. destruct (rnd_random w) as [[r|e] w1]; [|reflexivity].
  cbn [snd]. destruct (slice_from _ _) as [|first rest]; [reflexivity|].
  rewrite bind_run. unfold lift. destruct (set_last _ _) as [t3|e]; [|reflexivity].
  destruct (contains id t3); reflexivity.
Qed.

Lemma first_index_Some (id : Z) (t : list Z) :
  contains id t = true -> exists n, first_index id t = Some n.
Proof.
  intros Hin. destruct (first_index id t) as [n|] eqn:Hn; [eauto|].
  assert (contains id t = false) as Hout; [|congruence].
  clear Hin. unfold contains. induction t as [|x t IH]; [reflexivity|].
  simpl in *. destruct (Z.eqb_spec x id) as [->|Hne]; [discriminate|].
  destruct (first_index id t); [discriminate|].
  rewrite IH by reflexivity. rewrite orb_false_r. apply Z.eqb_neq. congruence.
Qed.

(** X12. [_select_span_with_token] draws one number from [rnd] when the
    marker is missing from the length-limited tensor and present in the
    untruncated one, and none otherwise; it never touches the list objects
    nor the two global generators. *)
Theorem select_span_draws_at_most_one_number
    (tensorizer : Tensorizer) (text token_str : string) (w : World) :
  let id := get_token_id tensorizer token_str in
  let w' := snd (_select_span_with_token text tensorizer token_str w) in
  heap w' = heap w
  /\ random_state w' = random_state w
  /\ np_random_state w' = np_random_state w
  /\ (contains id (text_to_token_tensor tensorizer text true) = false ->
      contains id (text_to_token_tensor tensorizer text false) = true ->
      rnd w' = snd (next_raw (rnd w)))
  /\ (contains id (text_to_token_tensor tensorizer text true) = true
      \/ contains id (text_to_token_tensor tensorizer text false) = false ->
      w' = w).
Proof.
  intros id w'. subst w'. rewrite select_span_world. fold id.
  assert (heap (snd (rnd_random w)) = heap w
          /\ random_state (snd (rnd_random w)) = random_state w
          /\ np_random_state (snd (rnd_random w)) = np_random_state w
          /\ rnd (snd (rnd_random w)) = snd (next_raw (rnd w))) as (H1 & H2 & H3 & H4).
  { unfold rnd_random, random_float. destruct (next_raw (rnd w)). cbn. auto. }
  destruct (contains id (text_to_token_tensor tensorizer text true)) eqn:Htrunc.
  { repeat split; try reflexivity. discriminate. }
  destruct (first_index id _) as [start_pos|] eqn:Hfirst.
  - repeat split; try assumption.
    intros [?|Hfull]; [discriminate|].
    apply first_index_None in Hfull. congruence.
  - repeat split; try reflexivity.
    intros _ Hfull. apply first_index_Some in Hfull as [n Hn]. congruence.
Qed.

Lemma select_span_draws_at_most_one_number_witness :
  let w' := snd (_select_span_with_token "q" Toy.tensorizer "[START_ENT]"
                   (Toy.world (2 ^ 52))) in
  cursor (rnd w') = S (cursor (rnd (Toy.world (2 ^ 52)))).
Proof.
  intros w'.
  destruct (select_span_draws_at_most_one_number Toy.tensorizer "q" "[START_ENT]"
              (Toy.world (2 ^ 52))) as (_ & _ & _ & Hdraw & _).
  fold w' in Hdraw. rewrite Hdraw; reflexivity.
Defined.




(** * Further properties of the batch assembler *)

Section AssemblerOutcomes.
Variable tensorizer : Tensorizer.
Variable insert_title : bool.
Variables num_hard_negatives num_other_negatives : nat.
Variables shuffle shuffle_positives hard_neg_fallback : bool.
Variable query_token : option string.

#[local] Abbreviation select :=
  (select_passages num_hard_negatives num_other_negatives shuffle shuffle_positives
     hard_neg_fallback).
#[local] Abbreviation turn :=
  (process_sample tensorizer insert_title num_hard_negatives num_other_negatives
     shuffle shuffle_positives hard_neg_fallback query_token).
#[local] Abbreviation turns :=
  (process_samples tensorizer insert_title num_hard_negatives num_other_negatives
     shuffle shuffle_positives hard_neg_fallback query_token).

(** Whatever a turn does, every list object keeps its content up to order. *)
Lemma process_sample_permutes (s : BiEncoderSample) (acc : Acc) (w : World) (l : loc) :
  heap (snd (turn s acc w)) !!! l ≡ₚ heap w !!! l.
Proof.
  apply (process_sample_pools tensorizer insert_title num_hard_negatives
           num_other_negatives shuffle shuffle_positives hard_neg_fallback
           query_token (fun _ => true) s acc eq_refl eq_refl w).
Qed.

(** The choice of the positive fails on an empty list, before anything is
    shuffled. *)
Lemma select_passages_no_positive (s : BiEncoderSample) (w : World) :
  heap w !!! positive_passages s = [] ->
  select s w
  = (Raise (if shuffle && shuffle_positives
            then ValueError "a must be non-empty"
            else IndexError "list index out of range"), w).
Proof.
  intros Hpos. unfold select_passages. rewrite bind_run.
  destruct (shuffle && shuffle_positives); rewrite bind_run; cbn [read_list];
    rewrite Hpos; reflexivity.
Qed.

(** The loop gets through only if every sample has a positive passage. *)
Lemma process_samples_Ok_positives (samples : list BiEncoderSample) (acc acc' : Acc)
    (w w' : World) :
  turns samples acc w = (Ok acc', w') ->
  Forall (fun s => heap w !!! positive_passages s <> []) samples.
Proof.
  revert acc w. induction samples as [|s samples IH]; intros acc w Hturns;
    [constructor|].
  cbn [process_samples] in Hturns. inv_bind Hturns.
  pose proof (process_sample_permutes s acc w) as Hperm.
  rewrite Hturns_l in Hperm. cbn [snd] in Hperm.
  constructor.
  - apply process_sample_Ok in Hturns_l as (p & negs & hards & w1 & Hsel & _).
    apply select_passages_Ok in Hsel as (_ & _ & Hin).
    intros E. rewrite E in Hin. now apply not_elem_of_nil in Hin.
  - apply IH in Hturns. eapply Forall_impl; [exact Hturns|]. cbn beta.
    intros s' Hs' E. apply Hs'. specialize (Hperm (positive_passages s')).
    rewrite E in Hperm. now apply Permutation_nil_r in Hperm.
Qed.

End AssemblerOutcomes.

(** A call that returns has gone through the loop. *)
Lemma create_biencoder_input_Ok_positives
    (tensorizer : Tensorizer) (insert_title : bool)
    (num_hard_negatives num_other_negatives : nat)
    (shuffle shuffle_positives hard_neg_fallback : bool) (query_token : option string)
    (samples : list BiEncoderSample) (w : World) (batch : BiEncoderBatch) :
  fst (create_biencoder_input tensorizer insert_title num_hard_negatives
         num_other_negatives shuffle shuffle_positives hard_neg_fallback query_token
         samples w) = Ok batch ->
  Forall (fun s => heap w !!! positive_passages s <> []) samples.
Proof.
  intros Hrun.
  destruct (create_biencoder_input _ _ _ _ _ _ _ _ samples w) as [r w'] eqn:Hcreate.
  cbn [fst] in Hrun. subst r. unfold create_biencoder_input in Hcreate.
  inv_bind Hcreate. now apply process_samples_Ok_positives in Hcreate_l.
Qed.

(** X14. [create_biencoder_input] returns a batch only for a non-empty list
    of samples each of which has a positive passage, and only outside
    span-selection mode. *)
Theorem create_biencoder_input_returns_only_if
    (tensorizer : Tensorizer) (insert_title : bool)
    (num_hard_negatives num_other_negatives : nat)
    (shuffle shuffle_positives hard_neg_fallback : bool) (query_token : option string)
    (samples : list BiEncoderSample) (w : World) (batch : BiEncoderBatch) :
  fst (create_biencoder_input tensorizer insert_title num_hard_negatives
         num_other_negatives shuffle shuffle_positives hard_neg_fallback query_token
         samples w) = Ok batch ->
  samples <> []
  /\ query_token <> Some "[START_ENT]"%string
  /\ Forall (fun s => heap w !!! positive_passages s <> []) samples.
Proof.
  intros Hrun. split; [|split].
  - intros ->. cbn in Hrun. discriminate.
  - intros ->. now apply create_biencoder_input_span_mode_raises in Hrun.
  - now apply create_biencoder_input_Ok_positives in Hrun.
Qed.

Lemma create_biencoder_input_returns_only_if_witness :
  exists batch,
    fst (create_biencoder_input Toy.tensorizer true 1 2 true true true None
           [Toy.sample; Toy.sample_no_hard] (Toy.world 0)) = Ok batch
    /\ Forall (fun s => heap (Toy.world 0) !!! positive_passages s <> [])
         [Toy.sample; Toy.sample_no_hard].
Proof.
  eexists. split; [vm_compute; reflexivity|].
  apply (create_biencoder_input_returns_only_if Toy.tensorizer true 1 2 true true true
           None [Toy.sample; Toy.sample_no_hard] (Toy.world 0) _
           ltac:(vm_compute; reflexivity)).
Defined.

(** X15. When the first sample has no positive passage the call raises at
    once, [IndexError] from [positive_ctxs[0]] or, with [shuffle] and
    [shuffle_positives], [ValueError] from [np.random.choice]; nothing has
    been shuffled or drawn by then.  When any sample has none, the call
    does not return a batch. *)
Theorem create_biencoder_input_raises_without_positive
    (tensorizer : Tensorizer) (insert_title : bool)
    (num_hard_negatives num_other_negatives : nat)
    (shuffle shuffle_positives hard_neg_fallback : bool) (query_token : option string)
    (samples : list BiEncoderSample) (w : World) :
  let run := create_biencoder_input tensorizer insert_title num_hard_negatives
               num_other_negatives shuffle shuffle_positives hard_neg_fallback
               query_token samples in
  Exists (fun s => heap w !!! positive_passages s = []) samples ->
  (exists e, fst (run w) = Raise e)
  /\ (forall s, head samples = Some s -> heap w !!! positive_passages s = [] ->
      exists msg,
        run w = (Raise ((if shuffle && shuffle_positives then ValueError else IndexError)
                          msg), w)).
Proof.
  intros run Hex. split.
  - destruct (fst (run w)) as [batch|e] eqn:Hrun; [|eauto].
    apply create_biencoder_input_Ok_positives in Hrun as Hall.
    apply Exists_exists in Hex as (s & Hin & Hs).
    rewrite Forall_forall in Hall. now apply Hall in Hin.
  - intros s Hhead Hs. destruct samples as [|s' rest]; [discriminate|].
    injection Hhead as ->. subst run.
    unfold create_biencoder_input. cbn [process_samples].
    rewrite !bind_run. unfold process_sample at 1. rewrite bind_run.
    rewrite select_passages_no_positive by assumption.
    destruct (shuffle && shuffle_positives); eexists; reflexivity.
Qed.

Lemma create_biencoder_input_raises_without_positive_witness :
  exists msg,
  create_biencoder_input Toy.tensorizer true 1 2 true true true None
    [{| query := Query.mk "what" [] []; positive_passages := 4%positive;
        negative_passages := 2%positive; hard_negative_passages := 3%positive |}]
    (Toy.world 0)
  = (Raise (ValueError msg), Toy.world 0).
Proof.
  refine (proj2 (create_biencoder_input_raises_without_positive Toy.tensorizer true 1 2
                   true true true None
                   [{| query := Query.mk "what" [] []; positive_passages := 4%positive;
                       negative_passages := 2%positive;
                       hard_negative_passages := 3%positive |}]
                   (Toy.world 0) _) _ eq_refl eq_refl).
  apply Exists_cons_hd. reflexivity.
Defined.

Lemma cat_rows_returns (L : nat) (ts : list (list Z)) :
  ts <> [] -> Forall (fun t => length t = L) ts -> cat_rows ts = Ok (Mat L ts).
Proof.
  intros Hne Hall. unfold cat_rows. destruct ts as [|t ts']; [congruence|].
  assert (length t = L) as Ht by (inversion Hall; assumption).
  assert (forallb (fun t' => length t' =? length t) (t :: ts') = true) as ->.
  { apply List.forallb_forall. intros t' Hin. apply Nat.eqb_eq.
    rewrite List.Forall_forall in Hall. rewrite (Hall t' Hin). congruence. }
  now rewrite Ht.
Qed.

Lemma length_chunks {X} (w k : nat) (l : list X) : length (chunks w k l) = k.
Proof. revert l. induction k as [|k IH]; intros l; simpl; [reflexivity | now rewrite IH]. Qed.

Lemma view_blocks_returns (m P : nat) (ts : list (Tensor Z)) :
  m <> 0 -> P mod m = 0 ->
  Forall (fun t => length (flatten t) = P) ts ->
  exists blocks, view_blocks m ts = Ok blocks
                 /\ length blocks = length ts
                 /\ Forall (fun b => length b = P / m) blocks.
Proof.
  intros Hm HP. induction 1 as [|t ts Ht _ (blocks & Hb & Hlen & Hall)].
  - exists []. repeat split; constructor.
  - exists (chunks m (P / m) (flatten t) :: blocks).
    cbn [view_blocks]. unfold view_block.
    destruct (Nat.eqb_spec m 0); [contradiction|].
    rewrite Ht, HP. cbn [Nat.eqb mbind result_bind]. rewrite Hb. cbn.
    split; [reflexivity|]. split; [now rewrite Hlen|].
    constructor; [apply length_chunks | assumption].
Qed.

Lemma cat_blocks_returns (m P : nat) (ts : list (Tensor Z)) :
  ts <> [] -> m <> 0 -> P mod m = 0 ->
  Forall (fun t => length (flatten t) = P) ts ->
  exists r, cat_blocks m ts = Ok r.
Proof.
  intros Hne Hm HP Hall.
  destruct (view_blocks_returns m P ts Hm HP Hall) as (blocks & Hb & Hlen & Hbs).
  unfold cat_blocks. rewrite Hb. cbn [mbind result_bind].
  destruct blocks as [|b blocks'].
  { destruct ts; [congruence | discriminate]. }
  assert (forallb (fun b' => length b' =? length b) (b :: blocks') = true) as ->.
  { apply List.forallb_forall. intros b' Hin. apply Nat.eqb_eq.
    rewrite List.Forall_forall in Hbs.
    rewrite (Hbs b' Hin). symmetry. apply Hbs. now left. }
  eauto.
Qed.

Lemma cat_dim0_returns (d : nat) (ts : list (Tensor Z)) :
  ts <> [] -> Forall (fun t => exists rows, t = Mat d rows) ts ->
  exists r, cat_dim0 ts = Ok r.
Proof.
  intros Hne Hall. destruct ts as [|t ts']; [congruence|].
  pose proof Hall as Hall'. inversion Hall' as [|? ? [rows ->] _]; subst.
  unfold cat_dim0.
  assert (forallb (fun t => match t with Mat d' _ => d' =? d | _ => false end)
            (Mat d rows :: ts') = true) as ->.
  { apply List.forallb_forall. intros t Hin. rewrite List.Forall_forall in Hall.
    destruct (Hall t Hin) as [rows' ->]. apply Nat.eqb_refl. }
  eauto.
Qed.

Section AssemblerShapes.
Variable tensorizer : Tensorizer.
Variable insert_title : bool.
Variables num_hard_negatives num_other_negatives : nat.
Variables shuffle shuffle_positives hard_neg_fallback : bool.
Variable query_token : option string.

#[local] Abbreviation select :=
  (select_passages num_hard_negatives num_other_negatives shuffle shuffle_positives
     hard_neg_fallback).
#[local] Abbreviation turn :=
  (process_sample tensorizer insert_title num_hard_negatives num_other_negatives
     shuffle shuffle_positives hard_neg_fallback query_token).
#[local] Abbreviation turns :=
  (process_samples tensorizer insert_title num_hard_negatives num_other_negatives
     shuffle shuffle_positives hard_neg_fallback query_token).
#[local] Abbreviation encoded_ctx := (ctx_to_tensor tensorizer insert_title).

(** What a turn that gets through has appended to each of the lists. *)
Lemma process_sample_appends (s : BiEncoderSample) (acc acc' : Acc) (w w' : World) :
  query_token <> Some "[START_ENT]"%string ->
  turn s acc w = (Ok acc', w') ->
  exists p negs hards w1 text,
    let e := text_to_tensor tensorizer text None (Query.entities (query s))
               (Query.entity_spans (query s)) in
    let all_ctxs := p :: negs ++ hards in
    select s w = (Ok (p, negs, hards), w1)
    /\ question_tensors acc' = question_tensors acc ++ [fst (fst e)]
    /\ question_entity_tensors acc' = question_entity_tensors acc ++ [snd (fst e)]
    /\ question_entity_position_ids_acc acc'
       = question_entity_position_ids_acc acc ++ [snd e]
    /\ ctx_tensors acc' = ctx_tensors acc ++ map (fun c => fst (fst (encoded_ctx c))) all_ctxs
    /\ ctx_entity_tensors acc'
       = ctx_entity_tensors acc ++ map (fun c => snd (fst (encoded_ctx c))) all_ctxs
    /\ ctxs_entity_position_ids acc'
       = ctxs_entity_position_ids acc ++ map (fun c => snd (encoded_ctx c)) all_ctxs
    /\ positive_ctx_indices acc' = positive_ctx_indices acc ++ [length (ctx_tensors acc)]
    /\ hard_neg_ctx_indices acc'
       = hard_neg_ctx_indices acc ++ [seq (length (ctx_tensors acc) + 1) (length hards)].
Proof.
  intros Hmode Hturn. unfold process_sample in Hturn.
  inv_bind Hturn. destruct a as [[p negs] hards].
  exists p, negs, hards, w0.
  assert (exists text, 
            encode_query tensorizer query_token (query s) = fun acc =>
              ret (let '(token_ids, entity_ids, entity_position_ids) :=
                     text_to_tensor tensorizer text None (Query.entities (query s))
                       (Query.entity_spans (query s)) in
                   {| question_tensors := question_tensors acc ++ [token_ids];
                      question_entity_tensors := question_entity_tensors acc ++ [entity_ids];
                      question_entity_position_ids_acc :=
                        question_entity_position_ids_acc acc ++ [entity_position_ids];
                      ctx_tensors := ctx_tensors acc;
                      ctx_entity_tensors := ctx_entity_tensors acc;
                      ctxs_entity_position_ids := ctxs_entity_position_ids acc;
                      positive_ctx_indices := positive_ctx_indices acc;
                      hard_neg_ctx_indices := hard_neg_ctx_indices acc |})) as [text Henc].
  { unfold encode_query. destruct query_token as [qt|]; [|eauto].
    destruct (truthy qt); [|eauto].
    destruct (String.eqb_spec qt "[START_ENT]") as [->|_]; [congruence | eauto]. }
  exists text. rewrite Henc in Hturn. unfold ret in Hturn.
  destruct (text_to_tensor tensorizer text None _ _) as [[tok ent] pos].
  injection Hturn as <- <-. cbn.
  rewrite !map_map.
  repeat split; try reflexivity; try assumption.
  do 3 f_equal. lia.
Qed.

Variables L E P : nat.
Hypothesis shape : forall text title ents spans,
  let e := text_to_tensor tensorizer text title ents spans in
  length (fst (fst e)) = L /\ length (snd (fst e)) = E
  /\ match get_max_mention_length tensorizer with
     | Some _ => length (flatten (snd e)) = P
     | None => exists rows, snd e = Mat P rows
     end.

#[local] Abbreviation position_ok :=
  (fun t : Tensor Z => match get_max_mention_length tensorizer with
                       | Some _ => length (flatten t) = P
                       | None => exists rows, t = Mat P rows
                       end).

#[local] Abbreviation shaped acc :=
  (Forall (fun t => length t = L) (question_tensors acc)
   /\ Forall (fun t => length t = E) (question_entity_tensors acc)
   /\ Forall position_ok (question_entity_position_ids_acc acc)
   /\ Forall (fun t => length t = L) (ctx_tensors acc)
   /\ Forall (fun t => length t = E) (ctx_entity_tensors acc)
   /\ Forall position_ok (ctxs_entity_position_ids acc)).

Lemma process_sample_shaped (s : BiEncoderSample) (acc acc' : Acc) (w w' : World) :
  query_token <> Some "[START_ENT]"%string ->
  turn s acc w = (Ok acc', w') ->
  shaped acc ->
  shaped acc'
  /\ question_tensors acc' <> [] /\ question_entity_tensors acc' <> []
  /\ question_entity_position_ids_acc acc' <> []
  /\ ctx_tensors acc' <> [] /\ ctx_entity_tensors acc' <> []
  /\ ctxs_entity_position_ids acc' <> [].
Proof.
  intros Hmode Hturn (H1 & H2 & H3 & H4 & H5 & H6).
  apply process_sample_appends in Hturn
    as (p & negs & hards & w1 & text & _ & -> & -> & -> & -> & -> & -> & _);
    [|assumption].
  assert (forall X (l : list X) x, l ++ [x] <> []) as Hsnoc
    by (intros X l x Hl; now apply app_eq_nil in Hl as [_ ?]).
  assert (forall X Y (f : X -> Y) (l : list Y) x k, l ++ map f (x :: k) <> []) as Hcons
    by (intros X Y f l x k Hl; now apply app_eq_nil in Hl as [_ ?]).
  repeat split; try apply Hsnoc; try apply Hcons;
    (apply Forall_app; split; [assumption|]).
  - repeat constructor. apply shape.
  - repeat constructor. apply shape.
  - repeat constructor. apply shape.
  - apply Forall_fmap, Forall_true. intros c. apply shape.
  - apply Forall_fmap, Forall_true. intros c. apply shape.
  - apply Forall_fmap, Forall_true. intros c. apply shape.
Qed.

End AssemblerShapes.

Lemma process_samples_shaped (tensorizer : Tensorizer) (insert_title : bool)
    (num_hard_negatives num_other_negatives : nat)
    (shuffle shuffle_positives hard_neg_fallback : bool) (query_token : option string)
    (L E P : nat) (samples : list BiEncoderSample) (acc' : Acc) (w w' : World) :
  (forall text title ents spans,
     let e := text_to_tensor tensorizer text title ents spans in
     length (fst (fst e)) = L /\ length (snd (fst e)) = E
     /\ match get_max_mention_length tensorizer with
        | Some _ => length (flatten (snd e)) = P
        | None => exists rows, snd e = Mat P rows
        end) ->
  query_token <> Some "[START_ENT]"%string ->
  samples <> [] ->
  process_samples tensorizer insert_title num_hard_negatives num_other_negatives
    shuffle shuffle_positives hard_neg_fallback query_token samples empty_acc w
  = (Ok acc', w') ->
  cat_rows (question_tensors acc') = Ok (Mat L (question_tensors acc'))
  /\ cat_rows (question_entity_tensors acc') = Ok (Mat E (question_entity_tensors acc'))
  /\ cat_rows (ctx_tensors acc') = Ok (Mat L (ctx_tensors acc'))
  /\ cat_rows (ctx_entity_tensors acc') = Ok (Mat E (ctx_entity_tensors acc'))
  /\ match get_max_mention_length tensorizer with
     | Some m =>
         m <> 0 -> P mod m = 0 ->
         (exists r, cat_blocks m (question_entity_position_ids_acc acc') = Ok r)
         /\ (exists r, cat_blocks m (ctxs_entity_position_ids acc') = Ok r)
     | None =>
         (exists r, cat_dim0 (question_entity_position_ids_acc acc') = Ok r)
         /\ (exists r, cat_dim0 (ctxs_entity_position_ids acc') = Ok r)
     end.
Proof.
  intros Hshape Hmode Hne Hturns.
  set (position_ok := fun t : Tensor Z =>
         match get_max_mention_length tensorizer with
         | Some _ => length (flatten t) = P
         | None => exists rows, t = Mat P rows
         end).
  set (shaped := fun a : Acc =>
         Forall (fun t => length t = L) (question_tensors a)
         /\ Forall (fun t => length t = E) (question_entity_tensors a)
         /\ Forall position_ok (question_entity_position_ids_acc a)
         /\ Forall (fun t => length t = L) (ctx_tensors a)
         /\ Forall (fun t => length t = E) (ctx_entity_tensors a)
         /\ Forall position_ok (ctxs_entity_position_ids a)).
  set (filled := fun a : Acc =>
         question_tensors a <> [] /\ question_entity_tensors a <> []
         /\ question_entity_position_ids_acc a <> []
         /\ ctx_tensors a <> [] /\ ctx_entity_tensors a <> []
         /\ ctxs_entity_position_ids a <> []).
  assert (forall samples0 acc w0,
            process_samples tensorizer insert_title num_hard_negatives
              num_other_negatives shuffle shuffle_positives hard_neg_fallback
              query_token samples0 acc w0 = (Ok acc', w') ->
            shaped acc -> samples0 <> [] \/ filled acc -> shaped acc' /\ filled acc')
    as Hloop.
  { clear Hne Hturns samples w.
    intros samples. induction samples as [|s samples IH]; intros acc w Hturns Hsh Hfill;
      cbn [process_samples] in Hturns.
    - unfold ret in Hturns. simplify_eq. destruct Hfill as [?|?]; [congruence | auto].
    - inv_bind Hturns.
      destruct (process_sample_shaped tensorizer insert_title num_hard_negatives
                  num_other_negatives shuffle shuffle_positives hard_neg_fallback
                  query_token L E P Hshape s acc a w w0 Hmode Hturns_l Hsh)
        as [Hsh' Hfill'].
      eapply IH; [exact Hturns | exact Hsh' | right; exact Hfill']. }
  destruct (Hloop samples empty_acc w Hturns) as [Hsh Hfill].
  { repeat split; constructor. }
  { now left. }
  destruct Hsh as (S1 & S2 & S3 & S4 & S5 & S6).
  destruct Hfill as (F1 & F2 & F3 & F4 & F5 & F6).
  repeat (split; [now apply cat_rows_returns|]).
  subst position_ok. cbn beta in S3, S6.
  destruct (get_max_mention_length tensorizer) as [m|].
  - intros Hm HP. split; now apply (cat_blocks_returns m P).
  - split; now apply (cat_dim0_returns P).
Qed.

(** X16. Outside span-selection mode, [create_biencoder_input] returns a
    batch for every non-empty list of samples that each have a positive
    passage, provided the tensorizer yields non-empty token and entity
    tensors of one length each and position tensors of one size (a multiple
    of the mention length when the tensorizer declares one, tensors of one
    width otherwise); the token tensors are stacked at that length. *)
Theorem create_biencoder_input_returns
    (tensorizer : Tensorizer) (insert_title : bool)
    (num_hard_negatives num_other_negatives : nat)
    (shuffle shuffle_positives hard_neg_fallback : bool) (query_token : option string)
    (L E P : nat) (samples : list BiEncoderSample) (w : World) :
  samples <> [] ->
  query_token <> Some "[START_ENT]"%string ->
  Forall (fun s => heap w !!! positive_passages s <> []) samples ->
  0 < L -> 0 < E ->
  match get_max_mention_length tensorizer with
  | Some m => 0 < P /\ m <> 0 /\ P mod m = 0
  | None => True
  end ->
  (forall text title ents spans,
     let e := text_to_tensor tensorizer text title ents spans in
     length (fst (fst e)) = L /\ length (snd (fst e)) = E
     /\ match get_max_mention_length tensorizer with
        | Some _ => length (flatten (snd e)) = P
        | None => exists rows, snd e = Mat P rows
        end) ->
  exists batch qrows crows,
    fst (create_biencoder_input tensorizer insert_title num_hard_negatives
           num_other_negatives shuffle shuffle_positives hard_neg_fallback query_token
           samples w) = Ok batch
    /\ question_ids batch = Mat L qrows
    /\ context_ids batch = Mat L crows.
Proof.
  intros Hne Hmode Hpos _ _ Hmention Hshape.
  destruct (process_samples_returns tensorizer insert_title num_hard_negatives
              num_other_negatives shuffle shuffle_positives hard_neg_fallback
              query_token samples empty_acc w Hmode Hpos) as (acc' & w' & Hturns).
  destruct (process_samples_shaped tensorizer insert_title num_hard_negatives
              num_other_negatives shuffle shuffle_positives hard_neg_fallback
              query_token L E P samples acc' w w' Hshape Hmode Hne Hturns)
    as (Hq & Hqe & Hc & Hce & Hposids).
  unfold create_biencoder_input. rewrite (bind_Ok_intro _ _ _ _ _ Hturns).
  unfold lift, stack_batch. cbn [fst]. rewrite Hc, Hce, Hq, Hqe. cbn [mbind result_bind].
  destruct (get_max_mention_length tensorizer) as [m|].
  - destruct Hmention as (_ & Hm & HP).
    destruct (Hposids Hm HP) as [[rq ->] [rc ->]].
    do 3 eexists. split; [reflexivity|]. split; reflexivity.
  - destruct Hposids as [[rq ->] [rc ->]].
    do 3 eexists. split; [reflexivity|]. split; reflexivity.
Qed.

Lemma create_biencoder_input_returns_witness :
  exists batch qrows crows,
    fst (create_biencoder_input Toy.tensorizer true 1 2 true true true None
           [Toy.sample; Toy.sample_no_hard] (Toy.world 0)) = Ok batch
    /\ question_ids batch = Mat 4 qrows
    /\ context_ids batch = Mat 4 crows.
Proof.
  apply (create_biencoder_input_returns Toy.tensorizer true 1 2 true true true None
           4 1 2 [Toy.sample; Toy.sample_no_hard] (Toy.world 0)).
  - discriminate.
  - discriminate.
  - repeat constructor; vm_compute; discriminate.
  - lia.
  - lia.
  - cbn. repeat split; [lia | discriminate].
  - intros text title ents spans. cbn. repeat split.
Defined.

Lemma stack_batch_questions (tensorizer : Tensorizer) (acc : Acc) (batch : BiEncoderBatch) :
  stack_batch tensorizer acc = Ok batch ->
  exists d, question_ids batch = Mat d (question_tensors acc).
Proof.
  unfold stack_batch. intros Hst.
  apply result_bind_Ok_inv in Hst as (ctxs & Hctxs & Hst).
  apply result_bind_Ok_inv in Hst as (cents & Hcents & Hst).
  apply result_bind_Ok_inv in Hst as (qs & Hqs & Hst).
  apply result_bind_Ok_inv in Hst as (qents & Hqents & Hst).
  apply result_bind_Ok_inv in Hst as ([qpos cpos] & Hpos & Hst).
  injection Hst as <-. cbn. now apply cat_rows_Ok.
Qed.

Section AssemblerIndices.
Variable tensorizer : Tensorizer.
Variable insert_title : bool.
Variables num_hard_negatives num_other_negatives : nat.
Variables shuffle shuffle_positives hard_neg_fallback : bool.
Variable query_token : option string.

#[local] Abbreviation turn :=
  (process_sample tensorizer insert_title num_hard_negatives num_other_negatives
     shuffle shuffle_positives hard_neg_fallback query_token).
#[local] Abbreviation turns :=
  (process_samples tensorizer insert_title num_hard_negatives num_other_negatives
     shuffle shuffle_positives hard_neg_fallback query_token).

(** Every turn that gets through records one query tensor, in all modes. *)
Lemma process_sample_question_count (s : BiEncoderSample) (acc acc' : Acc) (w w' : World) :
  turn s acc w = (Ok acc', w') ->
  length (question_tensors acc') = S (length (question_tensors acc)).
Proof.
  intros Hturn. unfold process_sample in Hturn.
  inv_bind Hturn. destruct a as [[p negs] hards].
  unfold encode_query in Hturn.
  assert (forall X (l : list X) x, length (l ++ [x]) = S (length l)) as Hsnoc
    by (intros; rewrite length_app; simpl; lia).
  destruct query_token as [qt|].
  2: { destruct (text_to_tensor _ _ _ _ _) as [[? ?] ?].
       injection Hturn as <- <-. apply Hsnoc. }
  destruct (truthy qt).
  2: { destruct (text_to_tensor _ _ _ _ _) as [[? ?] ?].
       injection Hturn as <- <-. apply Hsnoc. }
  destruct (String.eqb qt _).
  - inv_bind Hturn. injection Hturn as <- <-. apply Hsnoc.
  - destruct (text_to_tensor _ _ _ _ _) as [[? ?] ?].
    injection Hturn as <- <-. apply Hsnoc.
Qed.

(** The indices recorded over the loop: for each sample the position of its
    positive and the run of positions after it, all of them positions of
    rows collected so far, and all below the position of the next positive. *)
Lemma process_samples_indices (samples : list BiEncoderSample) (acc acc' : Acc)
    (w w' : World) :
  turns samples acc w = (Ok acc', w') ->
  exists bs hs,
    positive_ctx_indices acc' = positive_ctx_indices acc ++ bs
    /\ hard_neg_ctx_indices acc' = hard_neg_ctx_indices acc ++ hs
    /\ length bs = length samples /\ length hs = length samples
    /\ length (question_tensors acc') = length (question_tensors acc) + length samples
    /\ length (ctx_tensors acc) <= length (ctx_tensors acc')
    /\ forall i b l, bs !! i = Some b -> hs !! i = Some l ->
         l = seq (b + 1) (length l) /\ length l <= num_hard_negatives
         /\ length (ctx_tensors acc) <= b /\ b + length l < length (ctx_tensors acc')
         /\ forall j b', bs !! j = Some b' -> i < j -> b + length l < b'.
Proof.
  revert acc w. induction samples as [|s samples IH]; intros acc w Hturns;
    cbn [process_samples] in Hturns.
  - unfold ret in Hturns. simplify_eq. exists [], [].
    rewrite !app_nil_r. do 6 (split; [simpl; first [reflexivity | lia]|]).
    intros i b l Hb. discriminate.
  - inv_bind Hturns.
    pose proof (process_sample_question_count _ _ _ _ _ Hturns_l) as Hq.
    apply process_sample_Ok in Hturns_l as (p & negs & hards & w1 & Hsel & Hc & Hp & Hh).
    apply select_passages_Ok in Hsel as (_ & Hhards & _).
    assert (length hards <= num_hard_negatives) as Hnh.
    { rewrite Hhards, length_take. lia. }
    assert (length (ctx_tensors a)
            = length (ctx_tensors acc) + 1 + length negs + length hards) as Hlen.
    { rewrite Hc, length_app, length_map, !length_app. simpl. lia. }
    clear Hhards Hc.
    destruct (IH _ _ Hturns) as (bs & hs & Hbs & Hhs & Lbs & Lhs & Hqs & Hmono & Hidx).
    exists (length (ctx_tensors acc) :: bs), (seq (length (ctx_tensors acc) + 1) (length hards) :: hs).
    rewrite Hbs, Hhs, Hp, Hh, <- !app_assoc. cbn [app length].
    split; [reflexivity|]. split; [reflexivity|].
    split; [lia|]. split; [lia|]. split; [lia|]. split; [lia|].
    intros [|i] b l Hb Hl; cbn in Hb, Hl.
    + simplify_eq. rewrite length_seq.
      split; [reflexivity|]. split; [assumption|]. split; [lia|]. split; [lia|].
      intros [|j] b' Hb' Hj; [lia|]. cbn in Hb'.
      destruct (lookup_lt_is_Some_2 hs j) as [l' Hl'].
      { rewrite Lhs, <- Lbs. eapply lookup_lt_Some; exact Hb'. }
      destruct (Hidx j b' l' Hb' Hl') as (_ & _ & Hlo & _). lia.
    + destruct (Hidx i b l Hb Hl) as (Hseq & Hle & Hlo & Hhi & Hnext).
      split; [assumption|]. split; [assumption|]. split; [lia|]. split; [assumption|].
      intros [|j] b' Hb' Hj; [lia|]. cbn in Hb'. apply (Hnext j); [assumption | lia].
Qed.

End AssemblerIndices.

(** What the returned batch holds of the collected lists. *)
Lemma create_biencoder_input_indices
    (tensorizer : Tensorizer) (insert_title : bool)
    (num_hard_negatives num_other_negatives : nat)
    (shuffle shuffle_positives hard_neg_fallback : bool) (query_token : option string)
    (samples : list BiEncoderSample) (w : World) (batch : BiEncoderBatch) :
  fst (create_biencoder_input tensorizer insert_title num_hard_negatives
         num_other_negatives shuffle shuffle_positives hard_neg_fallback query_token
         samples w) = Ok batch ->
  exists dq qrows dc crows,
    question_ids batch = Mat dq qrows /\ context_ids batch = Mat dc crows
    /\ length qrows = length samples
    /\ length (is_positive batch) = length samples
    /\ length (hard_negatives batch) = length samples
    /\ forall i b l, is_positive batch !! i = Some b -> hard_negatives batch !! i = Some l ->
         l = seq (b + 1) (length l) /\ length l <= num_hard_negatives
         /\ b + length l < length crows
         /\ forall j b', is_positive batch !! j = Some b' -> i < j -> b + length l < b'.
Proof.
  intros Hrun.
  destruct (create_biencoder_input _ _ _ _ _ _ _ _ samples w) as [r w'] eqn:Hcreate.
  cbn [fst] in Hrun. subst r. unfold create_biencoder_input in Hcreate.
  inv_bind Hcreate. unfold lift in Hcreate. simplify_eq.
  apply process_samples_indices in Hcreate_l
    as (bs & hs & Hbs & Hhs & Lbs & Lhs & Hqs & _ & Hidx).
  cbn in Hbs, Hhs, Hqs.
  match goal with H : stack_batch _ _ = Ok _ |- _ =>
    pose proof (stack_batch_questions _ _ _ H) as [dq Hq];
    apply stack_batch_Ok in H as (Hpos & Hhard & (dc & Hctx) & _) end.
  exists dq, (question_tensors a), dc, (ctx_tensors a).
  rewrite Hpos, Hhard, Hbs, Hhs.
  repeat (split; [assumption|]).
  intros i b l Hb Hl. destruct (Hidx i b l Hb Hl) as (H1 & H2 & _ & H3 & H4). auto.
Qed.

(** X17. In a returned batch there is one list of hard-negative indices per
    sample, of at most [num_hard_negatives] entries, namely the positions
    that follow the sample's positive index; every recorded index, positive
    or hard-negative, is the position of a row of [context_ids]; and no
    hard-negative index of any sample is the positive index of any sample. *)
Theorem recorded_indices_are_rows_of_the_batch
    (tensorizer : Tensorizer) (insert_title : bool)
    (num_hard_negatives num_other_negatives : nat)
    (shuffle shuffle_positives hard_neg_fallback : bool) (query_token : option string)
    (samples : list BiEncoderSample) (w : World) (batch : BiEncoderBatch) :
  fst (create_biencoder_input tensorizer insert_title num_hard_negatives
         num_other_negatives shuffle shuffle_positives hard_neg_fallback query_token
         samples w) = Ok batch ->
  exists d rows,
    context_ids batch = Mat d rows
    /\ length (hard_negatives batch) = length samples
    /\ Forall (fun b => b < length rows) (is_positive batch)
    /\ Forall (fun l => length l <= num_hard_negatives
                        /\ Forall (fun x => x < length rows) l) (hard_negatives batch)
    /\ (forall i b l, is_positive batch !! i = Some b ->
          hard_negatives batch !! i = Some l -> l = seq (b + 1) (length l))
    /\ (forall x l b, l ∈ hard_negatives batch -> x ∈ l -> b ∈ is_positive batch ->
          x <> b).
Proof.
  intros Hrun.
  apply create_biencoder_input_indices in Hrun
    as (dq & qrows & dc & crows & _ & Hctx & _ & Lp & Lh & Hidx).
  exists dc, crows. split; [assumption|]. split; [assumption|].
  assert (forall i b, is_positive batch !! i = Some b ->
            exists l, hard_negatives batch !! i = Some l) as Hhas_l.
  { intros i b Hb. apply lookup_lt_is_Some_2. rewrite Lh, <- Lp.
    eapply lookup_lt_Some; exact Hb. }
  assert (forall i l, hard_negatives batch !! i = Some l ->
            exists b, is_positive batch !! i = Some b) as Hhas_b.
  { intros i l Hl. apply lookup_lt_is_Some_2. rewrite Lp, <- Lh.
    eapply lookup_lt_Some; exact Hl. }
  split; [|split; [|split]].
  - apply Forall_lookup. intros i b Hb. destruct (Hhas_l i b Hb) as [l Hl].
    destruct (Hidx i b l Hb Hl) as (_ & _ & Hhi & _). lia.
  - apply Forall_lookup. intros i l Hl. destruct (Hhas_b i l Hl) as [b Hb].
    destruct (Hidx i b l Hb Hl) as (Hseq & Hle & Hhi & _). split; [assumption|].
    rewrite Hseq. apply Forall_seq. intros j Hj. lia.
  - intros i b l Hb Hl. now destruct (Hidx i b l Hb Hl).
  - intros x l b' Hl Hx Hb'.
    apply list_elem_of_lookup in Hl as [i Hl]. apply list_elem_of_lookup in Hb' as [j Hb'].
    destruct (Hhas_b i l Hl) as [b Hb].
    destruct (Hidx i b l Hb Hl) as (Hseq & _ & _ & Hnext).
    rewrite Hseq in Hx. apply elem_of_seq in Hx.
    destruct (Nat.lt_trichotomy i j) as [Hij|[->|Hji]].
    + specialize (Hnext j b' Hb' Hij). lia.
    + simplify_eq. lia.
    + destruct (Hhas_l j b' Hb') as [l' Hl'].
      destruct (Hidx j b' l' Hb' Hl') as (_ & _ & _ & Hnext').
      specialize (Hnext' i b Hb Hji). lia.
Qed.

Lemma recorded_indices_are_rows_of_the_batch_witness :
  exists batch d rows,
    fst (create_biencoder_input Toy.tensorizer true 1 2 true false true None
           [Toy.sample; Toy.sample_no_hard] (Toy.world 0)) = Ok batch
    /\ context_ids batch = Mat d rows
    /\ length (hard_negatives batch) = 2
    /\ Forall (fun b => b < length rows) (is_positive batch)
    /\ Forall (fun l => length l <= 1 /\ Forall (fun x => x < length rows) l)
         (hard_negatives batch)
    /\ (forall x l b, l ∈ hard_negatives batch -> x ∈ l -> b ∈ is_positive batch ->
          x <> b).
Proof.
  eexists.
  destruct (recorded_indices_are_rows_of_the_batch Toy.tensorizer true 1 2 true false
              true None [Toy.sample; Toy.sample_no_hard] (Toy.world 0) _
              ltac:(vm_compute; reflexivity))
    as (d & rows & Hctx & Hlen & Hpos & Hhard & _ & Hdisjoint).
  exists d, rows. split; [vm_compute; reflexivity|]. auto.
Defined.

Section AssemblerBlocks.
Variable tensorizer : Tensorizer.
Variable insert_title : bool.
Variables num_hard_negatives num_other_negatives : nat.
Variables shuffle shuffle_positives hard_neg_fallback : bool.
Variable query_token : option string.

#[local] Abbreviation select :=
  (select_passages num_hard_negatives num_other_negatives shuffle shuffle_positives
     hard_neg_fallback).
#[local] Abbreviation turn :=
  (process_sample tensorizer insert_title num_hard_negatives num_other_negatives
     shuffle shuffle_positives hard_neg_fallback query_token).
#[local] Abbreviation turns :=
  (process_samples tensorizer insert_title num_hard_negatives num_other_negatives
     shuffle shuffle_positives hard_neg_fallback query_token).

(** Without the random choice, the positive is the first of its list. *)
Lemma select_passages_first_positive (s : BiEncoderSample) (w w1 : World)
    (p : Passage.t) (negs hards : list Passage.t) :
  (shuffle && shuffle_positives) = false ->
  select s w = (Ok (p, negs, hards), w1) ->
  (heap w !!! positive_passages s) !! 0 = Some p.
Proof.
  intros Hno Hsel. unfold select_passages in Hsel. rewrite Hno in Hsel.
  inv_bind Hsel. inv_bind Hsel. inv_bind Hsel. inv_bind Hsel.
  unfold ret in Hsel. simplify_eq.
  inv_bind Hsel_l. unfold read_list in Hsel_l_l. simplify_eq.
  unfold lift, index in Hsel_l.
  destruct (_ !! _) as [x|] eqn:Hx; [|discriminate]. now simplify_eq.
Qed.

(** A turn changes only the two pools of its sample, and only by shuffling. *)
Lemma process_sample_own_pools (s : BiEncoderSample) (acc : Acc) (w : World) :
  pools_permuted (fun l => shuffle && (Pos.eqb l (negative_passages s)
                                       || Pos.eqb l (hard_negative_passages s)))
    w (snd (turn s acc w)).
Proof.
  destruct shuffle eqn:Hsh.
  - apply (process_sample_pools tensorizer insert_title num_hard_negatives
             num_other_negatives true shuffle_positives hard_neg_fallback query_token
             (fun l => true && (Pos.eqb l (negative_passages s)
                                || Pos.eqb l (hard_negative_passages s))) s acc).
    + cbn. now rewrite Pos.eqb_refl.
    + cbn. rewrite Pos.eqb_refl. apply orb_true_r.
  - unfold process_sample.
    apply always_bind; [apply pools_permuted_preorder | |].
    + intros w0. apply heap_unchanged_pools_permuted. f_equal.
      apply (select_passages_heap_only num_hard_negatives num_other_negatives
               shuffle_positives hard_neg_fallback s).
    + intros [[p negs] hards]. apply encode_query_pools.
Qed.

Lemma elem_of_take_inv {X} (n : nat) (l : list X) (x : X) : x ∈ take n l -> x ∈ l.
Proof.
  intros Hx. apply elem_of_take in Hx as (i & Hi & _).
  eapply list_elem_of_lookup_2; exact Hi.
Qed.

Lemma select_passages_block (s : BiEncoderSample) (w w1 : World)
    (p : Passage.t) (negs hards : list Passage.t) :
  select s w = (Ok (p, negs, hards), w1) ->
  p ∈ heap w !!! positive_passages s
  /\ (forall c, c ∈ negs -> c ∈ heap w !!! negative_passages s)
  /\ (forall c, c ∈ hards ->
        c ∈ heap w !!! hard_negative_passages s
        \/ (hard_neg_fallback = true /\ heap w !!! hard_negative_passages s = []
            /\ c ∈ heap w !!! negative_passages s))
  /\ length negs <= num_other_negatives
  /\ length hards <= num_hard_negatives.
Proof.
  intros Hsel.
  pose proof (select_passages_pools num_hard_negatives num_other_negatives shuffle
                shuffle_positives hard_neg_fallback (fun _ => true) s eq_refl eq_refl w)
    as Hpools.
  rewrite Hsel in Hpools. cbn [snd] in Hpools.
  pose proof (proj1 (Hpools (negative_passages s))) as Hneg.
  pose proof (proj1 (Hpools (hard_negative_passages s))) as Hhard.
  apply select_passages_Ok in Hsel as (-> & -> & Hp).
  split; [assumption|]. split; [|split; [|split]].
  - intros c Hc. rewrite <- Hneg. eapply elem_of_take_inv; exact Hc.
  - intros c Hc. apply elem_of_take_inv in Hc.
    destruct hard_neg_fallback; cbn [andb] in Hc.
    + destruct (Nat.eqb_spec (length (heap w1 !!! hard_negative_passages s)) 0) as [E|_].
      * right. split; [reflexivity|]. split.
        -- apply length_zero_iff_nil in E. rewrite E in Hhard.
           symmetry in Hhard. now apply Permutation_nil_r in Hhard.
        -- rewrite <- Hneg. eapply elem_of_take_inv; exact Hc.
      * left. now rewrite <- Hhard.
    + left. now rewrite <- Hhard.
  - rewrite length_take. lia.
  - rewrite length_take. lia.
Qed.

(** The blocks of rows that the loop appends, sample by sample. *)
Lemma process_samples_blocks (samples : list BiEncoderSample) (acc acc' : Acc)
    (w w' : World) :
  turns samples acc w = (Ok acc', w') ->
  exists bs hs,
    positive_ctx_indices acc' = positive_ctx_indices acc ++ bs
    /\ hard_neg_ctx_indices acc' = hard_neg_ctx_indices acc ++ hs
    /\ ctx_tensors acc `prefix_of` ctx_tensors acc'
    /\ forall i s b l, samples !! i = Some s -> bs !! i = Some b -> hs !! i = Some l ->
         exists p negs hards,
           block_of tensorizer insert_title hard_neg_fallback (heap w) s
             (ctx_tensors acc') b p negs hards
           /\ l = seq (b + 1) (length hards)
           /\ length negs <= num_other_negatives
           /\ ((shuffle && shuffle_positives) = false ->
               shuffle = false \/ is_negative_pool samples (positive_passages s) = false ->
               (heap w !!! positive_passages s) !! 0 = Some p).
Proof.
  revert acc w. induction samples as [|s samples IH]; intros acc w Hturns;
    cbn [process_samples] in Hturns.
  - unfold ret in Hturns. simplify_eq. exists [], [].
    rewrite !app_nil_r. do 3 (split; [reflexivity|]). intros i s b l Hs. discriminate.
  - inv_bind Hturns.
    pose proof (process_sample_own_pools s acc w) as Hown.
    rewrite Hturns_l in Hown. cbn [snd] in Hown.
    apply process_sample_Ok in Hturns_l as (p & negs & hards & w1 & Hsel & Hc & Hp & Hh).
    destruct (IH _ _ Hturns) as (bs & hs & Hbs & Hhs & Hpre & Hblocks).
    exists (length (ctx_tensors acc) :: bs),
      (seq (length (ctx_tensors acc) + 1) (length hards) :: hs).
    rewrite Hbs, Hhs, Hp, Hh, <- !app_assoc. cbn [app].
    split; [reflexivity|]. split; [reflexivity|]. split.
    { etransitivity; [|exact Hpre]. rewrite Hc. now apply prefix_app_r. }
    intros [|i] s' b l Hs' Hb Hl; cbn in Hs', Hb, Hl.
    + simplify_eq. exists p, negs, hards.
      destruct (select_passages_block _ _ _ _ _ _ Hsel) as (B1 & B2 & B3 & B4 & _).
      split; [|split; [reflexivity|split; [assumption|]]].
      * split; [|auto]. intros k c Hk.
        eapply prefix_lookup_Some; [|exact Hpre]. rewrite Hc.
        rewrite lookup_app_r by lia.
        replace (length (ctx_tensors acc) + k - length (ctx_tensors acc)) with k by lia.
        rewrite list_lookup_fmap. cbn [app]. now rewrite Hk.
      * intros Hfirst _. eapply select_passages_first_positive; eauto.
    + destruct (Hblocks i s' b l Hs' Hb Hl)
        as (p' & negs' & hards' & (R1 & R2 & R3 & R4) & Hseq & Hlen & Hfirst).
      exists p', negs', hards'.
      assert (forall l0, heap w0 !!! l0 ≡ₚ heap w !!! l0) as Hperm
        by (intros l0; apply Hown).
      split; [|split; [assumption|split; [assumption|]]].
      * split; [assumption|]. split; [now rewrite <- Hperm|].
        split; [intros c Hc'; rewrite <- Hperm; auto|].
        intros c Hc'. destruct (R4 c Hc') as [Hin|(Hfb & Hnil & Hin)].
        -- left. now rewrite <- Hperm.
        -- right. split; [assumption|]. split; [|now rewrite <- Hperm].
           specialize (Hperm (hard_negative_passages s')). rewrite Hnil in Hperm.
           symmetry in Hperm. now apply Permutation_nil_r in Hperm.
      * intros Hno Hfree.
        assert (heap w0 !!! positive_passages s' = heap w !!! positive_passages s') as <-.
        { apply Hown. destruct Hfree as [->|Hfree]; [reflexivity|].
          cbn [is_negative_pool existsb] in Hfree.
          apply orb_false_iff in Hfree as [-> _]. apply andb_false_r. }
        apply Hfirst; [assumption|].
        destruct Hfree as [?|Hfree]; [now left | right].
        cbn [is_negative_pool existsb] in Hfree.
        now apply orb_false_iff in Hfree as [_ ?].
Qed.

End AssemblerBlocks.

Lemma create_biencoder_input_blocks
    (tensorizer : Tensorizer) (insert_title : bool)
    (num_hard_negatives num_other_negatives : nat)
    (shuffle shuffle_positives hard_neg_fallback : bool) (query_token : option string)
    (samples : list BiEncoderSample) (w : World) (batch : BiEncoderBatch) :
  fst (create_biencoder_input tensorizer insert_title num_hard_negatives
         num_other_negatives shuffle shuffle_positives hard_neg_fallback query_token
         samples w) = Ok batch ->
  exists d rows,
    context_ids batch = Mat d rows
    /\ forall i s b l, samples !! i = Some s -> is_positive batch !! i = Some b ->
         hard_negatives batch !! i = Some l ->
         exists p negs hards,
           block_of tensorizer insert_title hard_neg_fallback (heap w) s rows b p negs hards
           /\ l = seq (b + 1) (length hards)
           /\ length negs <= num_other_negatives
           /\ ((shuffle && shuffle_positives) = false ->
               shuffle = false \/ is_negative_pool samples (positive_passages s) = false ->
               (heap w !!! positive_passages s) !! 0 = Some p).
Proof.
  intros Hrun.
  destruct (create_biencoder_input _ _ _ _ _ _ _ _ samples w) as [r w'] eqn:Hcreate.
  cbn [fst] in Hrun. subst r. unfold create_biencoder_input in Hcreate.
  inv_bind Hcreate. unfold lift in Hcreate. simplify_eq.
  apply process_samples_blocks in Hcreate_l as (bs & hs & Hbs & Hhs & _ & Hblocks).
  cbn in Hbs, Hhs.
  match goal with H : stack_batch _ _ = Ok _ |- _ =>
    apply stack_batch_Ok in H as (Hpos & Hhard & (d & Hctx) & _) end.
  exists d, (ctx_tensors a). split; [assumption|].
  rewrite Hpos, Hhard, Hbs, Hhs. exact Hblocks.
Qed.



(** X19. In a returned batch the row at the positive index of sample [i] is
    the token tensor of a passage of that sample's list of positives: the
    first one of the list unless [shuffle] and [shuffle_positives] are both
    set (for a list that the call does not shuffle as a pool of negatives). *)
Theorem positive_rows_hold_positive_passages
    (tensorizer : Tensorizer) (insert_title : bool)
    (num_hard_negatives num_other_negatives : nat)
    (shuffle shuffle_positives hard_neg_fallback : bool) (query_token : option string)
    (samples : list BiEncoderSample) (w : World) (batch : BiEncoderBatch) :
  fst (create_biencoder_input tensorizer insert_title num_hard_negatives
         num_other_negatives shuffle shuffle_positives hard_neg_fallback query_token
         samples w) = Ok batch ->
  exists d rows,
    context_ids batch = Mat d rows
    /\ forall i s b, samples !! i = Some s -> is_positive batch !! i = Some b ->
         exists p,
           p ∈ heap w !!! positive_passages s
           /\ rows !! b = Some (fst (fst (ctx_to_tensor tensorizer insert_title p)))
           /\ ((shuffle && shuffle_positives) = false ->
               shuffle = false \/ is_negative_pool samples (positive_passages s) = false ->
               (heap w !!! positive_passages s) !! 0 = Some p).
Proof.
  intros Hrun.
  pose proof (create_biencoder_input_indices _ _ _ _ _ _ _ _ _ _ _ Hrun)
    as (_ & _ & _ & _ & _ & _ & _ & Lp & Lh & _).
  apply create_biencoder_input_blocks in Hrun as (d & rows & Hctx & Hblocks).
  exists d, rows. split; [assumption|]. intros i s b Hs Hb.
  destruct (lookup_lt_is_Some_2 (hard_negatives batch) i) as [l Hl].
  { rewrite Lh, <- Lp. eapply lookup_lt_Some; exact Hb. }
  destruct (Hblocks i s b l Hs Hb Hl)
    as (p & negs & hards & (Hrows & Hp & _) & _ & _ & Hfirst).
  exists p. split; [assumption|]. split; [|assumption].
  specialize (Hrows 0 p eq_refl). now rewrite Nat.add_0_r in Hrows.
Qed.

Lemma positive_rows_hold_positive_passages_witness :
  exists batch d rows p,
    fst (create_biencoder_input Toy.tensorizer true 1 2 true false true None
           [Toy.sample; Toy.sample_no_hard] (Toy.world 0)) = Ok batch
    /\ context_ids batch = Mat d rows
    /\ is_positive batch !! 1 = Some 4
    /\ rows !! 4 = Some (fst (fst (ctx_to_tensor Toy.tensorizer true p)))
    /\ (heap (Toy.world 0) !!! positive_passages Toy.sample_no_hard) !! 0 = Some p.
Proof.
  eexists.
  destruct (positive_rows_hold_positive_passages Toy.tensorizer true 1 2 true false true
              None [Toy.sample; Toy.sample_no_hard] (Toy.world 0) _
              ltac:(vm_compute; reflexivity)) as (d & rows & Hctx & Hrows).
  destruct (Hrows 1 Toy.sample_no_hard 4 eq_refl eq_refl) as (p & _ & Hrow & Hfirst).
  exists d, rows, p. split; [vm_compute; reflexivity|].
  split; [exact Hctx|]. split; [reflexivity|]. split; [exact Hrow|].
  apply Hfirst; [reflexivity | right; reflexivity].
Defined.

(** X20. In a returned batch every recorded hard-negative index of sample
    [i] is the position of the token tensor of a negative of that same
    sample, other or hard; with [num_other_negatives = 0] it is the tensor
    of one of its hard negatives or, on fallback from an empty pool of hard
    negatives, of one of its other negatives. *)
Theorem recorded_hard_indices_hold_negatives_of_the_sample
    (tensorizer : Tensorizer) (insert_title : bool)
    (num_hard_negatives num_other_negatives : nat)
    (shuffle shuffle_positives hard_neg_fallback : bool) (query_token : option string)
    (samples : list BiEncoderSample) (w : World) (batch : BiEncoderBatch) :
  fst (create_biencoder_input tensorizer insert_title num_hard_negatives
         num_other_negatives shuffle shuffle_positives hard_neg_fallback query_token
         samples w) = Ok batch ->
  exists d rows,
    context_ids batch = Mat d rows
    /\ forall i s l x, samples !! i = Some s -> hard_negatives batch !! i = Some l ->
         x ∈ l ->
         exists c,
           rows !! x = Some (fst (fst (ctx_to_tensor tensorizer insert_title c)))
           /\ (c ∈ heap w !!! negative_passages s
               \/ c ∈ heap w !!! hard_negative_passages s)
           /\ (num_other_negatives = 0 ->
               c ∈ heap w !!! hard_negative_passages s
               \/ (hard_neg_fallback = true
                   /\ heap w !!! hard_negative_passages s = []
                   /\ c ∈ heap w !!! negative_passages s)).
Proof.
  intros Hrun.
  pose proof (create_biencoder_input_indices _ _ _ _ _ _ _ _ _ _ _ Hrun)
    as (_ & _ & _ & _ & _ & _ & _ & Lp & Lh & _).
  apply create_biencoder_input_blocks in Hrun as (d & rows & Hctx & Hblocks).
  exists d, rows. split; [assumption|]. intros i s l x Hs Hl Hx.
  destruct (lookup_lt_is_Some_2 (is_positive batch) i) as [b Hb].
  { rewrite Lp, <- Lh. eapply lookup_lt_Some; exact Hl. }
  destruct (Hblocks i s b l Hs Hb Hl)
    as (p & negs & hards & (Hrows & _ & Hnegs & Hhards) & -> & Hlen & _).
  apply elem_of_seq in Hx.
  destruct (lookup_lt_is_Some_2 (negs ++ hards) (x - (b + 1))) as [c Hc].
  { rewrite length_app. lia. }
  exists c. split; [|split].
  - replace x with (b + S (x - (b + 1))) at 1 by lia. apply Hrows. exact Hc.
  - apply list_elem_of_lookup_2, elem_of_app in Hc as [Hin|Hin]; [auto|].
    destruct (Hhards c Hin) as [?|(_ & _ & ?)]; auto.
  - intros ->. assert (negs = []) as -> by (apply length_zero_iff_nil; lia).
    cbn [app] in Hc. apply list_elem_of_lookup_2 in Hc. auto.
Qed.

Lemma recorded_hard_indices_hold_negatives_of_the_sample_witness :
  exists batch d rows c,
    fst (create_biencoder_input Toy.tensorizer true 1 0 false false true None
           [Toy.sample] (Toy.world 0)) = Ok batch
    /\ context_ids batch = Mat d rows
    /\ hard_negatives batch !! 0 = Some [1]
    /\ rows !! 1 = Some (fst (fst (ctx_to_tensor Toy.tensorizer true c)))
    /\ (c ∈ heap (Toy.world 0) !!! hard_negative_passages Toy.sample
        \/ (true = true
            /\ heap (Toy.world 0) !!! hard_negative_passages Toy.sample = []
            /\ c ∈ heap (Toy.world 0) !!! negative_passages Toy.sample)).
Proof.
  eexists.
  destruct (recorded_hard_indices_hold_negatives_of_the_sample Toy.tensorizer true 1 0
              false false true None [Toy.sample] (Toy.world 0) _
              ltac:(vm_compute; reflexivity)) as (d & rows & Hctx & Hrows).
  destruct (Hrows 0 Toy.sample [1] 1 eq_refl eq_refl ltac:(apply list_elem_of_here))
    as (c & Hrow & _ & Hhard).
  exists d, rows, c. split; [vm_compute; reflexivity|].
  split; [exact Hctx|]. split; [reflexivity|]. split; [exact Hrow|].
  apply Hhard. reflexivity.
Defined.

(** X21. On fallback from an empty pool of hard negatives both slices are
    cut from the front of the same pool of other negatives: the shorter slice
    is a prefix of the longer, so that the first
    [min(num_other_negatives, num_hard_negatives)] passages enter the batch
    twice. *)
Theorem fallback_slices_share_a_prefix
    (num_hard_negatives num_other_negatives : nat) (shuffle shuffle_positives : bool)
    (s : BiEncoderSample) (w w1 : World) (p : Passage.t) (negs hards : list Passage.t) :
  heap w !!! hard_negative_passages s = [] ->
  select_passages num_hard_negatives num_other_negatives shuffle shuffle_positives
    true s w = (Ok (p, negs, hards), w1) ->
  take (Nat.min num_other_negatives num_hard_negatives) negs
  = take (Nat.min num_other_negatives num_hard_negatives) hards
  /\ (num_hard_negatives <= num_other_negatives -> hards = take num_hard_negatives negs)
  /\ (num_other_negatives <= num_hard_negatives -> negs = take num_other_negatives hards).
Proof.
  intros Hhard Hsel.
  pose proof (select_passages_pools num_hard_negatives num_other_negatives shuffle
                shuffle_positives true (fun _ => true) s eq_refl eq_refl w) as Hpools.
  rewrite Hsel in Hpools. cbn [snd] in Hpools.
  pose proof (proj1 (Hpools (hard_negative_passages s))) as Hh.
  rewrite Hhard in Hh. apply Permutation_nil_r in Hh.
  apply select_passages_Ok in Hsel as (-> & -> & _).
  rewrite Hh. cbn [andb length Nat.eqb]. rewrite !take_take.
  split; [|split].
  - f_equal. lia.
  - intros Hle. f_equal. lia.
  - intros Hle. f_equal. lia.
Qed.

Lemma fallback_slices_share_a_prefix_witness :
  exists p negs hards w1,
    select_passages 2 1 true false true Toy.sample_no_hard (Toy.world 0)
    = (Ok (p, negs, hards), w1)
    /\ negs = take 1 hards.
Proof.
  do 4 eexists. split; [vm_compute; reflexivity|].
  refine (proj2 (proj2 (fallback_slices_share_a_prefix 2 1 true false
                          Toy.sample_no_hard (Toy.world 0) _ _ _ _ eq_refl _)) _).
  - vm_compute. reflexivity.
  - lia.
Defined.

(** ** Which generator each option consumes *)

Section Untouched.
Context {X : Type} (f : World -> X).
Variable tensorizer : Tensorizer.
Variable insert_title : bool.
Variables num_hard_negatives num_other_negatives : nat.
Variables shuffle shuffle_positives hard_neg_fallback : bool.
Variable query_token : option string.

(** The part [f] of the world is left as it was. *)
#[local] Abbreviation kept := (fun w w' : World => f w' = f w).

#[local] Instance kept_preorder : PreOrder kept.
Proof. split; [intros w; reflexivity | intros w1 w2 w3 H12 H23; congruence]. Qed.

Hypothesis choice_kept :
  (shuffle && shuffle_positives) = false \/ forall n, always kept (np_random_choice n).
Hypothesis shuffle_kept : shuffle = false \/ forall l, always kept (random_shuffle l).
Hypothesis rnd_kept :
  query_token <> Some "[START_ENT]"%string \/ always kept rnd_random.

Lemma select_passages_kept (s : BiEncoderSample) :
  always kept (select_passages num_hard_negatives num_other_negatives shuffle
                 shuffle_positives hard_neg_fallback s).
Proof.
  unfold select_passages.
  apply always_bind; [apply _ | |].
  { destruct (shuffle && shuffle_positives).
    - destruct choice_kept as [?|Hc]; [discriminate|].
      apply always_bind; [apply _ | apply always_read_list; apply _ |].
      intros ps. apply always_bind; [apply _ | apply Hc | intros i; apply always_lift; apply _].
    - apply always_bind; [apply _ | apply always_read_list; apply _ |].
      intros ps. apply always_lift; apply _. }
  intros p. apply always_bind; [apply _ | |].
  { destruct shuffle; [|apply always_ret; apply _].
    destruct shuffle_kept as [?|Hs]; [discriminate|].
    apply always_bind; [apply _ | apply Hs | intros _; apply Hs]. }
  intros _. apply always_bind; [apply _ | apply always_read_list; apply _ |].
  intros negs. apply always_bind; [apply _ | apply always_read_list; apply _ |].
  intros hards. apply always_ret; apply _.
Qed.

Lemma encode_query_kept (question : Query.t) (acc : Acc) :
  always kept (encode_query tensorizer query_token question acc).
Proof.
  unfold encode_query. destruct query_token as [qt|]; [|apply always_ret; apply _].
  destruct (truthy qt); [|apply always_ret; apply _].
  destruct (String.eqb_spec qt "[START_ENT]") as [->|_]; [|apply always_ret; apply _].
  destruct rnd_kept as [?|Hr]; [congruence|].
  apply always_bind; [apply _ | | intros t; apply always_ret; apply _].
  unfold _select_span_with_token.
  destruct (negb _); [|apply always_ret; apply _].
  destruct (first_index _ _); [|apply always_raise; apply _].
  apply always_bind; [apply _ | exact Hr |].
  intros r. destruct (slice_from _ _); [apply always_raise; apply _|].
  apply always_bind; [apply _ | apply always_lift; apply _ |].
  intros t. destruct (contains _ t); [apply always_ret | apply always_raise]; apply _.
Qed.

Lemma create_biencoder_input_kept (samples : list BiEncoderSample) :
  always kept (create_biencoder_input tensorizer insert_title num_hard_negatives
                 num_other_negatives shuffle shuffle_positives hard_neg_fallback
                 query_token samples).
Proof.
  unfold create_biencoder_input.
  apply always_bind; [apply _ | | intros acc; apply always_lift; apply _].
  generalize empty_acc. induction samples as [|s samples IH]; intros acc;
    cbn [process_samples].
  - apply always_ret; apply _.
  - apply always_bind; [apply _ | | apply IH].
    unfold process_sample. apply always_bind; [apply _ | apply select_passages_kept |].
    intros [[p negs] hards]. apply encode_query_kept.
Qed.

End Untouched.

(** X22. Each option has its own generator: the global [np.random] is left
    alone unless [shuffle] and [shuffle_positives] are both set, the global
    [random] and the list objects are left alone unless [shuffle] is set, and
    the module's [rnd] is left alone outside span-selection mode; whether the
    call returns or raises. *)
Theorem create_biencoder_input_generators
    (tensorizer : Tensorizer) (insert_title : bool)
    (num_hard_negatives num_other_negatives : nat)
    (shuffle shuffle_positives hard_neg_fallback : bool) (query_token : option string)
    (samples : list BiEncoderSample) (w : World) :
  let w' := snd (create_biencoder_input tensorizer insert_title num_hard_negatives
                   num_other_negatives shuffle shuffle_positives hard_neg_fallback
                   query_token samples w) in
  ((shuffle && shuffle_positives) = false -> np_random_state w' = np_random_state w)
  /\ (shuffle = false -> random_state w' = random_state w /\ heap w' = heap w)
  /\ (query_token <> Some "[START_ENT]"%string -> rnd w' = rnd w).
Proof.
  intros w'. subst w'.
  assert (forall n w0, random_state (snd (np_random_choice n w0)) = random_state w0
                        /\ heap (snd (np_random_choice n w0)) = heap w0
                        /\ rnd (snd (np_random_choice n w0)) = rnd w0) as Hchoice.
  { intros n w0. unfold np_random_choice. destruct (n =? 0); [auto|].
    destruct (randbelow n (np_random_state w0)). auto. }
  assert (forall l w0, np_random_state (snd (random_shuffle l w0)) = np_random_state w0
                        /\ rnd (snd (random_shuffle l w0)) = rnd w0) as Hshuffle.
  { intros l w0. unfold random_shuffle. destruct (shuffle_list _ _). auto. }
  assert (forall w0, np_random_state (snd (rnd_random w0)) = np_random_state w0
                      /\ random_state (snd (rnd_random w0)) = random_state w0
                      /\ heap (snd (rnd_random w0)) = heap w0) as Hrnd.
  { intros w0. unfold rnd_random. destruct (random_float _). auto. }
  split; [|split].
  - intros Hno.
    apply (create_biencoder_input_kept np_random_state); [now left | right | right].
    + intros l w0. apply Hshuffle.
    + intros w0. apply Hrnd.
  - intros Hno. split.
    + apply (create_biencoder_input_kept random_state); [right | now left | right].
      * intros n w0. apply Hchoice.
      * intros w0. apply Hrnd.
    + apply (create_biencoder_input_kept heap); [right | now left | right].
      * intros n w0. apply Hchoice.
      * intros w0. apply Hrnd.
  - intros Hmode.
    apply (create_biencoder_input_kept rnd); [right | right | now left].
    + intros n w0. apply Hchoice.
    + intros l w0. apply Hshuffle.
Qed.

Lemma create_biencoder_input_generators_witness :
  let w' := snd (create_biencoder_input Toy.tensorizer true 1 2 true false true None
                   [Toy.sample; Toy.sample_no_hard] (Toy.world 0)) in
  np_random_state w' = np_random_state (Toy.world 0)
  /\ rnd w' = rnd (Toy.world 0)
  /\ random_state w' <> random_state (Toy.world 0).
Proof.
  intros w'.
  destruct (create_biencoder_input_generators Toy.tensorizer true 1 2 true false true
              None [Toy.sample; Toy.sample_no_hard] (Toy.world 0)) as (Hnp & _ & Hrnd).
  split; [apply Hnp; reflexivity|]. split; [apply Hrnd; discriminate|].
  vm_compute. intros E. discriminate.
Defined.

(** * The encoders *)

(** X23. [forward] chooses the encoders by [encoder_type]: with ["question"]
    both sides are encoded by the question model and the context model is
    not used, with ["ctx"] both by the context model, and with any other
    string the two models are swapped: the call equals the one with no
    [encoder_type] on the bi-encoder whose models are exchanged. *)
Theorem forward_routes_the_encoders {T V H E : Type}
    (grad_enabled : bool) (qm cm other : SubModel T V H E)
    (fix_q fix_ctx : bool) (question context : EncoderInput T)
    (encoder_type : option string) (pos : Z) (entity_list_representation : bool) :
  let run q_model c_model et :=
    forward grad_enabled
      {| question_model := q_model; ctx_model := c_model;
         fix_q_encoder := fix_q; fix_ctx_encoder := fix_ctx |}
      question context et pos entity_list_representation in
  (encoder_type = Some "question"%string ->
   run qm cm encoder_type = run qm other encoder_type
   /\ run qm cm encoder_type = run qm qm None)
  /\ (encoder_type = Some "ctx"%string ->
      run qm cm encoder_type = run other cm encoder_type
      /\ run qm cm encoder_type = run cm cm None)
  /\ (forall t, encoder_type = Some t -> t <> "question"%string -> t <> "ctx"%string ->
      run qm cm encoder_type = run cm qm None).
Proof.
  intros run. subst run. unfold forward.
  cbn [question_model ctx_model fix_q_encoder fix_ctx_encoder]. split; [|split].
  - intros ->. cbn. split; reflexivity.
  - intros ->. cbn. split; reflexivity.
  - intros t -> Hq Hc. cbn [none_or].
    destruct (String.eqb_spec t "question"); [contradiction|].
    destruct (String.eqb_spec t "ctx"); [contradiction|]. reflexivity.
Qed.

Lemma forward_routes_the_encoders_witness :
  forward true
    {| question_model := toy_encoder 10 false; ctx_model := toy_encoder 20 false;
       fix_q_encoder := false; fix_ctx_encoder := false |}
    (toy_input 1) (toy_input 2) (Some "context"%string) 0 true
  = forward true
      {| question_model := toy_encoder 20 false; ctx_model := toy_encoder 10 false;
         fix_q_encoder := false; fix_ctx_encoder := false |}
      (toy_input 1) (toy_input 2) None 0 true
  /\ forward true
       {| question_model := toy_encoder 10 false; ctx_model := toy_encoder 20 false;
          fix_q_encoder := false; fix_ctx_encoder := false |}
       (toy_input 1) (toy_input 2) (Some "question"%string) 0 true
     = forward true
         {| question_model := toy_encoder 10 false; ctx_model := toy_encoder 10 false;
            fix_q_encoder := false; fix_ctx_encoder := false |}
         (toy_input 1) (toy_input 2) None 0 true.
Proof.
  split.
  - apply (proj2 (proj2 (forward_routes_the_encoders true (toy_encoder 10 false)
                           (toy_encoder 20 false) (toy_encoder 0 false) false false
                           (toy_input 1) (toy_input 2) (Some "context"%string) 0 true))
             "context"%string eq_refl); discriminate.
  - apply (proj1 (forward_routes_the_encoders true (toy_encoder 10 false)
                    (toy_encoder 20 false) (toy_encoder 0 false) false false
                    (toy_input 1) (toy_input 2) (Some "question"%string) 0 true)
             eq_refl).
Defined.

(** * The title cache *)

Section TitleCacheFacts.
Context {Id P Title : Type} `{Countable Title}.
Variable title : P -> Title.

#[local] Abbreviation titled k := (fun x : Id * P => title (snd x) = k).

Lemma create_title_cache_from (passages : list (Id * P))
    (cache : gmap Title (list (Id * P))) (k : Title) :
  foldl (fun cache '(passage_id, passage) =>
           let (l, cache) := defaultdict_getitem (title passage) cache in
           <[title passage := l ++ [(passage_id, passage)]]> cache)
    cache passages !! k
  = match cache !! k, filter (titled k) passages with
    | None, [] => None
    | o, l => Some (default [] o ++ l)
    end.
Proof.
  revert cache. induction passages as [|[i p] passages IH]; intros cache.
  - cbn. destruct (cache !! k); cbn; [now rewrite app_nil_r | reflexivity].
  - cbn [foldl]. rewrite IH. unfold defaultdict_getitem.
    rewrite filter_cons. cbn [snd].
    destruct (decide (title p = k)) as [->|Hne].
    + destruct (cache !! k) as [l|] eqn:Hk.
      * rewrite lookup_insert_eq. cbn. rewrite <- app_assoc. cbn.
        now destruct (filter _ passages).
      * rewrite lookup_insert_eq. cbn. now destruct (filter _ passages).
    + destruct (cache !! title p) as [l|] eqn:Hp.
      * now rewrite lookup_insert_ne.
      * now rewrite !lookup_insert_ne.
Qed.

(** X24. [create_title_cache] groups the passages by title: under each
    title that occurs it holds the passages of that title, with their ids,
    in the order in which they came; a title that does not occur has no
    entry. *)
Theorem create_title_cache_groups_by_title (passages : list (Id * P)) (k : Title) :
  create_title_cache title passages !! k
  = match filter (titled k) passages with
    | [] => None
    | l => Some l
    end.
Proof.
  unfold create_title_cache. rewrite create_title_cache_from, lookup_empty.
  now destruct (filter _ passages).
Qed.

Lemma defaultdict_getitem_spec (key : Title) (cache : gmap Title (list (Id * P))) :
  fst (defaultdict_getitem key cache) = cache !!! key
  /\ (forall k, snd (defaultdict_getitem key cache) !!! k = cache !!! k)
  /\ dom (snd (defaultdict_getitem key cache)) = {[key]} ∪ dom cache.
Proof.
  unfold defaultdict_getitem. rewrite lookup_total_alt.
  destruct (cache !! key) as [l|] eqn:Hk; cbn.
  - split; [reflexivity|]. split; [reflexivity|].
    apply elem_of_dom_2 in Hk. symmetry.
    now apply subseteq_union_1_L, singleton_subseteq_l.
  - split; [reflexivity|]. split; [|now rewrite dom_insert_L].
    intros k. destruct (decide (key = k)) as [<-|Hne].
    + now rewrite lookup_total_insert_eq, lookup_total_alt, Hk.
    + now rewrite lookup_total_insert_ne.
Qed.

Lemma find_relevant_passages_from (entities : list Title)
    (relevant : list (Id * P)) (cache : gmap Title (list (Id * P))) :
  let out := foldl (fun '(relevant, title_cache) ent =>
                      let (l, title_cache) := defaultdict_getitem ent title_cache in
                      (relevant ++ l, title_cache))
               (relevant, cache) entities in
  fst out = relevant ++ concat (map (fun ent => cache !!! ent) entities)
  /\ (forall k, snd out !!! k = cache !!! k)
  /\ dom (snd out) = list_to_set entities ∪ dom cache.
Proof.
  revert relevant cache. induction entities as [|ent entities IH]; intros relevant cache.
  - cbn. rewrite app_nil_r. split; [reflexivity|]. split; [reflexivity|].
    now rewrite (left_id_L ∅ (∪)).
  - cbn [foldl map concat list_to_set].
    destruct (defaultdict_getitem_spec ent cache) as (Hl & Hsame & Hdom).
    destruct (defaultdict_getitem ent cache) as [l cache'] eqn:Hget. cbn [fst snd] in *.
    destruct (IH (relevant ++ l) cache') as (IH1 & IH2 & IH3).
    cbn zeta in IH1, IH2, IH3 |- *. subst l.
    rewrite IH1, IH3, Hdom, <- app_assoc. split; [|split].
    + do 3 f_equal. apply map_ext. intros e. apply Hsame.
    + intros k. now rewrite IH2.
    + rewrite (assoc_L (∪)). f_equal. apply (comm_L (∪)).
Qed.

(** X25. On the cache of [create_title_cache], [find_relevant_passages]
    returns, entity after entity and repeated for a repeated entity, the
    passages whose title is the entity, in their original order; the lookups
    leave in the cache an empty entry for every entity that is no title, and
    change the list of no title. *)
Theorem find_relevant_passages_by_title (entities : list Title)
    (passages : list (Id * P)) :
  let cache := create_title_cache title passages in
  let out := find_relevant_passages entities cache in
  fst out = concat (map (fun ent => filter (titled ent) passages) entities)
  /\ (forall k, snd out !!! k = cache !!! k)
  /\ dom (snd out) = list_to_set entities ∪ dom cache.
Proof.
  intros cache out.
  destruct (find_relevant_passages_from entities [] cache) as (H1 & H2 & H3).
  split; [|split; assumption].
  subst out. unfold find_relevant_passages. rewrite H1. cbn [app]. f_equal.
  apply map_ext. intros ent. subst cache. unfold create_title_cache.
  rewrite lookup_total_alt, create_title_cache_from, lookup_empty.
  now destruct (filter _ passages).
Qed.

End TitleCacheFacts.

Lemma create_title_cache_groups_by_title_witness :
  create_title_cache (fun p : string * string => fst p)
    [(1, ("A", "a1")); (2, ("B", "b")); (3, ("A", "a2"))]%string !! "A"%string
  = Some [(1, ("A", "a1")); (3, ("A", "a2"))]%string
  /\ create_title_cache (fun p : string * string => fst p)
       [(1, ("A", "a1")); (2, ("B", "b")); (3, ("A", "a2"))]%string !! "C"%string
     = None.
Proof.
  rewrite !(create_title_cache_groups_by_title (fun p : string * string => fst p)).
  split; reflexivity.
Defined.

Lemma find_relevant_passages_by_title_witness :
  fst (find_relevant_passages ["A"; "C"; "A"]%string
         (create_title_cache (fun p : string * string => fst p)
            [(1, ("A", "a1")); (2, ("B", "b")); (3, ("A", "a2"))]%string))
  = [(1, ("A", "a1")); (3, ("A", "a2")); (1, ("A", "a1")); (3, ("A", "a2"))]%string.
Proof.
  rewrite (proj1 (find_relevant_passages_by_title (fun p : string * string => fst p)
                    ["A"; "C"; "A"]%string
                    [(1, ("A", "a1")); (2, ("B", "b")); (3, ("A", "a2"))]%string)).
  reflexivity.
Defined.
